(** * Traceur: the class transformer and the free variable checker

    A shallow embedding of two passes of the Traceur compiler,

    - [src/semantics/FreeVariableChecker.js], the pass that reports the
      identifiers of a lowered program that no declaration binds, and
    - the [ClassTransformer] module, the pass that lowers class declarations
      and class expressions to calls of [traceur.runtime.createClass],

    together with the properties their specification states about them.

    Conventions of the embedding.

    - A parse tree is a value of the inductive type [ParseTree]; the
      [tree.type] tag of the source is the constructor.  Trees are immutable
      in the source, and the [===] the transformer uses to see whether a child
      changed is rendered by structural equality ([ParseTree_eqb]).
    - A token is rendered by its [value], a string.
    - A location is [option SourceRange]; [None] is the [null] location of
      the trees the compiler generates.
    - Code that mutates state and throws is written in the monad [M]: a
      computation receives the state and returns an outcome and the state
      reached, also when it throws.
    - The sources of the two passes are the whole of what is embedded from
      the repository.  The trees, the tree factory, the generic visitor and
      transformer, the super transformer and the temporary variables of
      [TempVarTransformer] are not among them: what the passes need of these
      is stated under [Modelled from the spec], and the super transformer is
      a parameter of the class transformer. *)

From Stdlib Require Import List String Ascii ZArith Bool Arith Lia.
From Stdlib Require Import Sorting.Sorted Sorting.Permutation.
From Stdlib Require Import DecimalString DecimalNat.
Import ListNotations.
Local Open Scope string_scope.
Local Open Scope list_scope.

Set Implicit Arguments.

(** ** Source positions *)

(** Modelled from the spec: [SourcePosition], of which the passes read the
    [offset] only. *)
Record SourcePosition := mkSourcePosition { offset : Z }.

(** Modelled from the spec: [SourceRange], the location of a node. *)
Record SourceRange := mkSourceRange {
  start : SourcePosition;
  end_ : SourcePosition
}.

(** [tree.location]: a range, or [null]. *)
Definition Location := option SourceRange.

(** The location from the offset [a] to the offset [b]. *)
Definition at_ (a b : Z) : Location :=
  Some (mkSourceRange (mkSourcePosition a) (mkSourcePosition b)).

(** ** Parse trees *)

Scheme All for list.
Scheme All for option.

(** Modelled from the spec: the token types the passes name. *)
Inductive TokenType := VAR | LET | CONST | EQUAL.

(** Modelled from the spec: the literal tokens. *)
Inductive Literal :=
| NullLiteral
| BooleanLiteral (b : bool)
| StringLiteral (s : string)
| NumberLiteral (n : Z).

(** Modelled from the spec: [trees.BindingIdentifier], where a field of a
    node is of that kind. *)
Record BindingIdentifier := mkBindingIdentifier {
  bindingLocation : Location;
  identifierToken : string
}.

(** Modelled from the spec: the kinds of nodes of [trees], each with its
    location and its kind-specific children, a child that may be [null]
    being an option.  A function expression is a function declaration
    without a name. *)
Inductive ParseTree : Type :=
| ArgumentList (location : Location) (args : list ParseTree)
| ArrayLiteralExpression (location : Location) (elements : list ParseTree)
| ArrowFunctionExpression (location : Location)
    (formalParameters : ParseTree) (functionBody : ParseTree)
| BinaryOperator (location : Location)
    (left : ParseTree) (operator : TokenType) (right : ParseTree)
| BindingElement (location : Location)
    (binding : BindingIdentifier) (initializer : option ParseTree)
| BindingIdentifierTree (b : BindingIdentifier)
| Block (location : Location) (statements : list ParseTree)
| CallExpression (location : Location) (operand : ParseTree) (args : ParseTree)
| Catch (location : Location) (binding : ParseTree) (catchBody : ParseTree)
| ClassDeclaration (location : Location) (name : BindingIdentifier)
    (superClass : option ParseTree) (elements : list ParseTree)
| ClassExpression (location : Location) (name : option BindingIdentifier)
    (superClass : option ParseTree) (elements : list ParseTree)
| ExpressionStatement (location : Location) (expression : ParseTree)
| FormalParameterList (location : Location) (parameters : list ParseTree)
| FunctionDeclaration (location : Location) (name : option BindingIdentifier)
    (isGenerator : bool) (formalParameterList : ParseTree)
    (functionBody : ParseTree)
| GetAccessor (location : Location) (propertyName : string) (body : ParseTree)
| IdentifierExpression (location : Location) (identifierToken : string)
| IfStatement (location : Location) (condition : ParseTree)
    (ifClause : ParseTree) (elseClause : option ParseTree)
| LiteralExpression (location : Location) (literalToken : Literal)
| MemberExpression (location : Location) (operand : ParseTree)
    (memberName : string)
| ObjectLiteralExpression (location : Location)
    (propertyNameAndValues : list ParseTree)
| ParenExpression (location : Location) (expression : ParseTree)
| PropertyMethodAssignment (location : Location) (name : string)
    (isGenerator : bool) (formalParameterList : ParseTree)
    (functionBody : ParseTree)
| PropertyNameAssignment (location : Location) (name : string)
    (value : ParseTree)
| RestParameter (location : Location) (identifier : BindingIdentifier)
| ReturnStatement (location : Location) (expression : option ParseTree)
| SetAccessor (location : Location) (propertyName : string)
    (parameter : ParseTree) (body : ParseTree)
| SpreadExpression (location : Location) (expression : ParseTree)
| SuperExpression (location : Location)
| ThisExpression (location : Location)
| TryStatement (location : Location) (body : ParseTree)
    (catchBlock : option ParseTree) (finallyBlock : option ParseTree)
| VariableDeclaration (location : Location) (lvalue : BindingIdentifier)
    (initializer : option ParseTree)
| VariableDeclarationList (location : Location) (declarationType : TokenType)
    (declarations : list ParseTree)
| VariableStatement (location : Location) (declarations : ParseTree).

(** Modelled from the spec: [trees.Program], the root, never a child of
    another tree. *)
Record Program := mkProgram {
  programLocation : Location;
  programElements : list ParseTree
}.

(** Equality of locations is decidable. *)
Definition Location_eq_dec (a b : Location) : {a = b} + {a <> b}.
Proof. repeat decide equality; apply Z.eq_dec. Defined.

(** Structural equality of trees is decidable. *)
Fixpoint ParseTree_eq_dec (a b : ParseTree) {struct a} : {a = b} + {a <> b}.
Proof.
  decide equality;
    try apply Location_eq_dec;
    try apply string_dec;
    try apply bool_dec;
    try (apply list_eq_dec; apply ParseTree_eq_dec);
    try (decide equality; apply ParseTree_eq_dec);
    try (repeat decide equality; try apply Location_eq_dec;
         try apply string_dec; apply Z.eq_dec).
Defined.

(** [a === b] on tree nodes. *)
Definition ParseTree_eqb (a b : ParseTree) : bool :=
  if ParseTree_eq_dec a b then true else false.

(** Modelled from the spec: [tree.type], the name of the kind of a node in
    [ParseTreeType]. *)
Definition type (tree : ParseTree) : string :=
  match tree with
  | ArgumentList _ _ => "ARGUMENT_LIST"
  | ArrayLiteralExpression _ _ => "ARRAY_LITERAL_EXPRESSION"
  | ArrowFunctionExpression _ _ _ => "ARROW_FUNCTION_EXPRESSION"
  | BinaryOperator _ _ _ _ => "BINARY_OPERATOR"
  | BindingElement _ _ _ => "BINDING_ELEMENT"
  | BindingIdentifierTree _ => "BINDING_IDENTIFIER"
  | Block _ _ => "BLOCK"
  | CallExpression _ _ _ => "CALL_EXPRESSION"
  | Catch _ _ _ => "CATCH"
  | ClassDeclaration _ _ _ _ => "CLASS_DECLARATION"
  | ClassExpression _ _ _ _ => "CLASS_EXPRESSION"
  | ExpressionStatement _ _ => "EXPRESSION_STATEMENT"
  | FormalParameterList _ _ => "FORMAL_PARAMETER_LIST"
  | FunctionDeclaration _ _ _ _ _ => "FUNCTION_DECLARATION"
  | GetAccessor _ _ _ => "GET_ACCESSOR"
  | IdentifierExpression _ _ => "IDENTIFIER_EXPRESSION"
  | IfStatement _ _ _ _ => "IF_STATEMENT"
  | LiteralExpression _ _ => "LITERAL_EXPRESSION"
  | MemberExpression _ _ _ => "MEMBER_EXPRESSION"
  | ObjectLiteralExpression _ _ => "OBJECT_LITERAL_EXPRESSION"
  | ParenExpression _ _ => "PAREN_EXPRESSION"
  | PropertyMethodAssignment _ _ _ _ _ => "PROPERTY_METHOD_ASSIGNMENT"
  | PropertyNameAssignment _ _ _ => "PROPERTY_NAME_ASSIGNMENT"
  | RestParameter _ _ => "REST_PARAMETER"
  | ReturnStatement _ _ => "RETURN_STATEMENT"
  | SetAccessor _ _ _ _ => "SET_ACCESSOR"
  | SpreadExpression _ _ => "SPREAD_EXPRESSION"
  | SuperExpression _ => "SUPER_EXPRESSION"
  | ThisExpression _ => "THIS_EXPRESSION"
  | TryStatement _ _ _ _ => "TRY_STATEMENT"
  | VariableDeclaration _ _ _ => "VARIABLE_DECLARATION"
  | VariableDeclarationList _ _ _ => "VARIABLE_DECLARATION_LIST"
  | VariableStatement _ _ => "VARIABLE_STATEMENT"
  end.

(** ** The monad of the two passes *)

(** What a computation ends in: a value, or what it throws. *)
Inductive Result (E A : Type) :=
| Ok (a : A)
| Throw (e : E).
Arguments Ok {E A} a.
Arguments Throw {E A} e.

(** What a result throws, if it does. *)
Definition thrown {E A} (r : Result E A) : option E :=
  match r with
  | Ok _ => None
  | Throw e => Some e
  end.

(** A computation on the state [St] that may throw an [E]. *)
Definition M (St E A : Type) := St -> Result E A * St.

(** [return a]. *)
Definition ret {St E A} (a : A) : M St E A := fun s => (Ok a, s).

(** [m] and then [k] on its value, unless [m] throws. *)
Definition bind {St E A B} (m : M St E A) (k : A -> M St E B) : M St E B :=
  fun s =>
    match m s with
    | (Ok a, s') => k a s'
    | (Throw e, s') => (Throw e, s')
    end.

(** [throw e]. *)
Definition throw {St E A} (e : E) : M St E A := fun s => (Throw e, s).

(** The state. *)
Definition get {St E} : M St E St := fun s => (Ok s, s).

Declare Scope monad_scope.
Delimit Scope monad_scope with monad.
Notation "x <- m ;; k" := (bind m (fun x => k))
  (at level 100, m at next level, right associativity) : monad_scope.
Notation "m ;; k" := (bind m (fun _ => k))
  (at level 100, right associativity) : monad_scope.
Local Open Scope monad_scope.

Section Loops.
Context {St E A B : Type}.

(** [Array.prototype.forEach] with an effectful callback. *)
Section ForEach.
Variable f : A -> M St E unit.
Fixpoint forEach (l : list A) : M St E unit :=
  match l with
  | [] => ret tt
  | x :: rest => f x ;; forEach rest
  end.
End ForEach.

(** [Array.prototype.map] with an effectful callback. *)
Section MapM.
Variable f : A -> M St E B.
Fixpoint mapM (l : list A) : M St E (list B) :=
  match l with
  | [] => ret []
  | x :: rest => y <- f x ;; ys <- mapM rest ;; ret (y :: ys)
  end.
End MapM.
End Loops.

(** A JavaScript object used as a map from names to values, created by
    [Object.create(null)]: the keys in insertion order, which is the order
    [for (name in object)] enumerates identifier names in. *)
Definition NameMap (V : Type) := list (string * V).

(** [name in m]. *)
Fixpoint inMap {V} (name : string) (m : NameMap V) : bool :=
  match m with
  | [] => false
  | (k, _) :: rest => if String.eqb name k then true else inMap name rest
  end.

(** [m[name]], if [name] is a key of [m]. *)
Fixpoint lookup {V} (name : string) (m : NameMap V) : option V :=
  match m with
  | [] => None
  | (k, v) :: rest => if String.eqb name k then Some v else lookup name rest
  end.

(** [object[name] = v] for a name that is not a key of [object]. *)
Definition addKey {V} (name : string) (v : V) (m : NameMap V) : NameMap V :=
  m ++ [(name, v)].

(** The keys of [m], in the order of [for (name in m)]. *)
Definition keys {V} (m : NameMap V) : list string := map fst m.

(** * FreeVariableChecker.js *)

Module FreeVariableChecker.

(** [Scope]: the [parent] link is the rest of the chain the scope is the head
    of (see [scope_] below). *)
Record Scope := mkScope {
  references : NameMap Location;
  declarations : NameMap Location
}.

(** What the error reporter receives from [reportError_]:
    [location.start], the format and its argument. *)
Record Diagnostic := mkDiagnostic {
  position : SourcePosition;
  format : string;
  argument : string
}.

(** The checker: [scope_] is the chain of scopes from the current one to the
    top level one ([[]] is [null]); [reporter_] is what the error reporter
    has received, oldest first. *)
Record Checker := mkChecker {
  scope_ : list Scope;
  reporter_ : list Diagnostic
}.

(** A method of the checker; what it throws is the message of an
    [Error]. *)
Definition V := M Checker string.

(** What [getVariableName] and [declareVariable_] receive. *)
Inductive Name :=
| OfBinding (b : BindingIdentifier)
| OfString (s : string).

Definition getVariableName (name : Name) : string :=
  match name with
  | OfBinding b => identifierToken b
  | OfString s => s
  end.

(** [tree.location] of the argument of [declareVariable_]; a string has
    none. *)
Definition locationOf (name : Name) : Location :=
  match name with
  | OfBinding b => bindingLocation b
  | OfString _ => None
  end.

(** The error of a property read on [null]. *)
Definition typeError : string := "TypeError".

(** [pushScope_]; the scope returned is identified by its depth in the
    chain. *)
Definition pushScope_ : V nat :=
  fun c =>
    let chain := mkScope [] [] :: scope_ c in
    (Ok (List.length chain), mkChecker chain (reporter_ c)).

Definition declareVariable_ (tree : Name) : V unit :=
  fun c =>
    let name := getVariableName tree in
    if String.eqb name "" then (Ok tt, c)
    else
      match scope_ c with
      | [] => (Throw typeError, c)
      | scope :: parents =>
          if inMap name (declarations scope) then (Ok tt, c)
          else
            (Ok tt,
             mkChecker
               (mkScope (references scope)
                        (addKey name (locationOf tree) (declarations scope))
                :: parents)
               (reporter_ c))
      end.

(** [declareVariable_(name)] for a name that may be [null]. *)
Definition declareVariableOpt_ (name : option BindingIdentifier) : V unit :=
  match name with
  | Some b => declareVariable_ (OfBinding b)
  | None => ret tt
  end.

Definition visitIdentifierExpression (location : Location) (name : string)
  : V unit :=
  fun c =>
    match scope_ c with
    | [] => (Throw typeError, c)
    | scope :: parents =>
        if inMap name (references scope) then (Ok tt, c)
        else
          (Ok tt,
           mkChecker
             (mkScope (addKey name location (references scope))
                      (declarations scope)
              :: parents)
             (reporter_ c))
    end.

Definition reportError_ (d : Diagnostic) : V unit :=
  fun c => (Ok tt, mkChecker (scope_ c) (reporter_ c ++ [d])).

(** The comparator of [errors.sort]: [x[0].offset - y[0].offset]. *)
Definition compareErrors (x y : Diagnostic) : Z :=
  offset (position x) - offset (position y).

(** [e] put into a sorted array, after the elements it does not come
    before. *)
Fixpoint insertError (e : Diagnostic) (sorted : list Diagnostic)
  : list Diagnostic :=
  match sorted with
  | [] => [e]
  | x :: rest =>
      if (compareErrors e x <? 0)%Z then e :: sorted
      else x :: insertError e rest
  end.

(** [errors.sort(compareErrors)], as an insertion sort; the order in which
    the source leaves errors of the same offset is that of its sort, which
    the statements below make no use of. *)
Definition sortErrors (errors : list Diagnostic) : list Diagnostic :=
  fold_left (fun sorted e => insertError e sorted) errors [].

(** The message of the internal error of [validateScope_]. *)
Definition notDefined (name : string) : string :=
  "generated variable " ++ name ++ " is not defined".

(** The loop of [validateScope_] over the names of [scope.references]:
    [parent] is [scope.parent] and [errors] the array of that name. *)
Fixpoint validateLoop (declarations : NameMap Location)
    (names : NameMap Location) (parent : option Scope)
    (errors : list Diagnostic)
  : Result string (option Scope * list Diagnostic) :=
  match names with
  | [] => Ok (parent, errors)
  | (name, location) :: rest =>
      if inMap name declarations then
        validateLoop declarations rest parent errors
      else
        match parent with
        | None =>
            match location with
            | None => Throw (notDefined name)
            | Some range =>
                validateLoop declarations rest parent
                  (errors ++
                   [mkDiagnostic (start range) "%s is not defined" name])
            end
        | Some p =>
            if inMap name (references p) then
              validateLoop declarations rest parent errors
            else
              validateLoop declarations rest
                (Some (mkScope (addKey name location (references p))
                               (FreeVariableChecker.declarations p)))
                errors
        end
  end.

Definition validateScope_ : V unit :=
  fun c =>
    match scope_ c with
    | [] => (Throw typeError, c)
    | scope :: parents =>
        let parent := match parents with
                      | [] => None
                      | p :: _ => Some p
                      end in
        match validateLoop (declarations scope) (references scope)
                parent [] with
        | Throw e => (Throw e, c)
        | Ok (parent', errors) =>
            let chain := match parent' with
                         | None => scope :: parents
                         | Some p' => scope :: p' :: tl parents
                         end in
            forEach reportError_ (sortErrors errors)
              (mkChecker chain (reporter_ c))
        end
    end.

(** [pop_]: [scope] is what [pushScope_] returned. *)
Definition pop_ (scope : nat) : V unit :=
  c <- get ;;
  if negb (Nat.eqb (List.length (scope_ c)) scope) then
    throw "FreeVariableChecker scope mismatch"
  else
    validateScope_ ;;
    (fun c' => (Ok tt, mkChecker (tl (scope_ c')) (reporter_ c'))).

(** Modelled from the spec: [PredefinedName.ARGUMENTS], the implicit
    binding of a function. *)
Definition ARGUMENTS : string := "arguments".

(** [d.lvalue]: the field of that name of a variable declaration;
    [undefined] on a node of another kind, which declares nothing. *)
Definition lvalueOf (d : ParseTree) : option BindingIdentifier :=
  match d with
  | VariableDeclaration _ lvalue _ => Some lvalue
  | _ => None
  end.

(** [d.initializer]: the field of that name of a variable declaration or of
    a binding element, which may be [null]; [undefined] on a node of another
    kind.  The visit of [null] or [undefined] does nothing. *)
Definition initializerOf (d : ParseTree) : option ParseTree :=
  match d with
  | VariableDeclaration _ _ initializer => initializer
  | BindingElement _ _ initializer => initializer
  | _ => None
  end.

(** The methods of the checker that visit children do it through
    [this.visitAny]. *)
Section Methods.
Variable visitAny : ParseTree -> V unit.

(** [visitAny(tree)] for a child that may be [null]. *)
Definition visitAnyOpt (tree : option ParseTree) : V unit :=
  match tree with
  | Some t => visitAny t
  | None => ret tt
  end.

Definition visitStatements_ (statements : list ParseTree) : V unit :=
  forEach
    (fun s =>
       match s with
       | FunctionDeclaration _ name _ _ _ => declareVariableOpt_ name
       | _ => ret tt
       end ;;
       visitAny s)
    statements.

Definition visitBlock (statements : list ParseTree) : V unit :=
  visitStatements_ statements.

(** [global] is the chain of prototypes of the global object, each given
    by its own property names. *)
Definition visitProgram (tree : Program) (global : list (list string))
  : V unit :=
  scope <- pushScope_ ;;
  forEach (fun object =>
             forEach (fun name => declareVariable_ (OfString name)) object)
    global ;;
  visitStatements_ (programElements tree) ;;
  pop_ scope.

Definition visitFunction_ (name : option BindingIdentifier)
    (formalParameterList body : ParseTree) : V unit :=
  scope <- pushScope_ ;;
  declareVariableOpt_ name ;;
  declareVariable_ (OfString ARGUMENTS) ;;
  visitAny formalParameterList ;;
  visitAny body ;;
  pop_ scope.

Definition visitFunctionDeclaration (name : option BindingIdentifier)
    (formalParameterList functionBody : ParseTree) : V unit :=
  visitFunction_ name formalParameterList functionBody.

Definition visitArrowFunctionExpression
    (formalParameters functionBody : ParseTree) : V unit :=
  visitFunction_ None formalParameters functionBody.

Definition visitGetAccessor (body : ParseTree) : V unit :=
  scope <- pushScope_ ;;
  visitAny body ;;
  pop_ scope.

(** [tree.parameter.binding] is [undefined] unless the parameter is a
    binding element. *)
Definition visitSetAccessor (parameter body : ParseTree) : V unit :=
  scope <- pushScope_ ;;
  match parameter with
  | BindingElement _ binding _ => declareVariable_ (OfBinding binding)
  | _ => ret tt
  end ;;
  visitAny body ;;
  pop_ scope.

Definition visitCatch (binding catchBody : ParseTree) : V unit :=
  scope <- pushScope_ ;;
  visitAny binding ;;
  visitAny catchBody ;;
  pop_ scope.

(** [d.lvalue] and [d.initializer] are read on every element [d] of the
    list, whatever its kind.  [d.lvalue] is [lvalueOf d].
    [visitAny(d.initializer)] is written by cases on [d], for the recursion
    to be structural: a variable declaration and a binding element have
    the field [initializer]; on a node of another kind [d.initializer] is
    [undefined], on which [visitAny] does nothing, as on [null].  The match
    is [visitAnyOpt (initializerOf d)], see [visitDeclaration_eq]. *)
Definition visitVariableDeclarationList (declarationType : TokenType)
    (declarations : list ParseTree) : V unit :=
  match declarationType with
  | VAR =>
      forEach
        (fun d =>
           declareVariableOpt_ (lvalueOf d) ;;
           match d with
           | VariableDeclaration _ _ initializer
           | BindingElement _ _ initializer => visitAnyOpt initializer
           | _ => ret tt
           end)
        declarations
  | _ => throw "let and const should have been rewritten"
  end.

Definition visitBindingIdentifier (tree : BindingIdentifier) : V unit :=
  declareVariable_ (OfBinding tree).
End Methods.

(** Modelled from the spec: [ParseTreeVisitor.visitAny], which calls the
    method of the kind of the node; the generic traversal is not part of the
    sources.  The methods of the checker are those above; a kind of node the
    checker has no method for has its children visited in the order of its
    fields. *)
Fixpoint visitAny (tree : ParseTree) : V unit :=
  match tree with
  | ArgumentList _ args => forEach visitAny args
  | ArrayLiteralExpression _ elements => forEach visitAny elements
  | ArrowFunctionExpression _ formalParameters functionBody =>
      visitArrowFunctionExpression visitAny formalParameters functionBody
  | BinaryOperator _ lhs _ rhs => visitAny lhs ;; visitAny rhs
  | BindingElement _ binding initializer =>
      visitBindingIdentifier binding ;; visitAnyOpt visitAny initializer
  | BindingIdentifierTree b => visitBindingIdentifier b
  | Block _ statements => visitBlock visitAny statements
  | CallExpression _ operand args => visitAny operand ;; visitAny args
  | Catch _ binding catchBody => visitCatch visitAny binding catchBody
  | ClassDeclaration _ _ superClass elements =>
      visitAnyOpt visitAny superClass ;; forEach visitAny elements
  | ClassExpression _ _ superClass elements =>
      visitAnyOpt visitAny superClass ;; forEach visitAny elements
  | ExpressionStatement _ expression => visitAny expression
  | FormalParameterList _ parameters => forEach visitAny parameters
  | FunctionDeclaration _ name _ formalParameterList functionBody =>
      visitFunctionDeclaration visitAny name formalParameterList functionBody
  | GetAccessor _ _ body => visitGetAccessor visitAny body
  | IdentifierExpression location identifierToken =>
      visitIdentifierExpression location identifierToken
  | IfStatement _ condition ifClause elseClause =>
      visitAny condition ;; visitAny ifClause ;;
      visitAnyOpt visitAny elseClause
  | LiteralExpression _ _ => ret tt
  | MemberExpression _ operand _ => visitAny operand
  | ObjectLiteralExpression _ propertyNameAndValues =>
      forEach visitAny propertyNameAndValues
  | ParenExpression _ expression => visitAny expression
  | PropertyMethodAssignment _ _ _ formalParameterList functionBody =>
      visitAny formalParameterList ;; visitAny functionBody
  | PropertyNameAssignment _ _ value => visitAny value
  | RestParameter _ identifier => visitBindingIdentifier identifier
  | ReturnStatement _ expression => visitAnyOpt visitAny expression
  | SetAccessor _ _ parameter body => visitSetAccessor visitAny parameter body
  | SpreadExpression _ expression => visitAny expression
  | SuperExpression _ => ret tt
  | ThisExpression _ => ret tt
  | TryStatement _ body catchBlock finallyBlock =>
      visitAny body ;; visitAnyOpt visitAny catchBlock ;;
      visitAnyOpt visitAny finallyBlock
  | VariableDeclaration _ lvalue initializer =>
      visitBindingIdentifier lvalue ;; visitAnyOpt visitAny initializer
  | VariableDeclarationList _ declarationType declarations =>
      visitVariableDeclarationList visitAny declarationType declarations
  | VariableStatement _ declarations => visitAny declarations
  end.

(** [FreeVariableChecker.checkProgram(reporter, tree)], the reporter given by
    what it has received so far and [global] by the chain of prototypes of
    the global object. *)
Definition checkProgram (reporter : list Diagnostic) (tree : Program)
    (global : list (list string)) : Result string unit * Checker :=
  visitProgram visitAny tree global (mkChecker [] reporter).

End FreeVariableChecker.

(** * ParseTreeFactory.js

    The factory is not part of the sources: each [create] function builds
    the node its name says, with no location. *)

Module ParseTreeFactory.

(** Modelled from the spec: the argument list of the arguments given. *)
Definition createArgumentList (args : list ParseTree) : ParseTree :=
  ArgumentList None args.

(** Modelled from the spec: the array literal of the elements given. *)
Definition createArrayLiteralExpression (elements : list ParseTree)
  : ParseTree :=
  ArrayLiteralExpression None elements.

(** Modelled from the spec: the assignment [lhs = rhs], a binary operator. *)
Definition createAssignmentExpression (lhs rhs : ParseTree) : ParseTree :=
  BinaryOperator None lhs EQUAL rhs.

(** Modelled from the spec: the block of one statement. *)
Definition createBlock (statement : ParseTree) : ParseTree :=
  Block None [statement].

(** Modelled from the spec: the literal [true] or [false]. *)
Definition createBooleanLiteral (value : bool) : ParseTree :=
  LiteralExpression None (BooleanLiteral value).

(** Modelled from the spec: the call of [operand] on [args]. *)
Definition createCallExpression (operand args : ParseTree) : ParseTree :=
  CallExpression None operand args.

(** Modelled from the spec: the expression as a statement. *)
Definition createExpressionStatement (expression : ParseTree) : ParseTree :=
  ExpressionStatement None expression.

(** Modelled from the spec: the function expression, a function
    declaration without a name. *)
Definition createFunctionExpression (formalParameterList functionBody
  : ParseTree) : ParseTree :=
  FunctionDeclaration None None false formalParameterList functionBody.

(** Modelled from the spec: the reference to [name]. *)
Definition createIdentifierExpression (name : string) : ParseTree :=
  IdentifierExpression None name.

(** Modelled from the spec: the identifier token of value [name]. *)
Definition createIdentifierToken (name : string) : string := name.

(** Modelled from the spec: [createMemberExpression(a, b, c)] is
    [a.b.c]. *)
Definition createMemberExpression (operand : string) (names : list string)
  : ParseTree :=
  fold_left (fun tree name => MemberExpression None tree name) names
    (createIdentifierExpression operand).

(** Modelled from the spec: the literal [null]. *)
Definition createNullLiteral : ParseTree :=
  LiteralExpression None NullLiteral.

(** Modelled from the spec: the object literal of the properties
    given. *)
Definition createObjectLiteralExpression (propertyNameAndValues
  : list ParseTree) : ParseTree :=
  ObjectLiteralExpression None propertyNameAndValues.

(** Modelled from the spec: the expression in parentheses. *)
Definition createParenExpression (expression : ParseTree) : ParseTree :=
  ParenExpression None expression.

(** Modelled from the spec: the property [name: value]. *)
Definition createPropertyNameAssignment (name : string) (value : ParseTree)
  : ParseTree :=
  PropertyNameAssignment None name value.

(** Modelled from the spec: the rest parameter [...name]. *)
Definition createRestParameter (name : string) : ParseTree :=
  RestParameter None (mkBindingIdentifier None name).

(** Modelled from the spec: the spread [...expression]. *)
Definition createSpreadExpression (expression : ParseTree) : ParseTree :=
  SpreadExpression None expression.

(** Modelled from the spec: the string literal of value [value]. *)
Definition createStringLiteral (value : string) : ParseTree :=
  LiteralExpression None (StringLiteral value).

(** Modelled from the spec: [this]. *)
Definition createThisExpression : ParseTree := ThisExpression None.

(** Modelled from the spec: the declaration of the one variable
    [name], initialized. *)
Definition createVariableStatement (declarationType : TokenType)
    (name : BindingIdentifier) (initializer : ParseTree) : ParseTree :=
  VariableStatement None
    (VariableDeclarationList None declarationType
       [VariableDeclaration None name (Some initializer)]).

End ParseTreeFactory.

(** * SuperTransformer.js

    The super rewrite is not part of the sources.  The class transformer is
    stated for any super rewrite; the one of this module, which follows the
    specification, is what the examples are run with.  Inside the body of
    one member it rewrites every [super(...)] call and every
    [super.member(...)] call into a call of the runtime's super dispatch
    helper, on the receiver, the class name expression, the member name and
    the arguments, and every other [super.member] into a read through the
    runtime; it reports whether any rewrite occurred. *)

Module SuperTransformer.
Import ParseTreeFactory.

(** Modelled from the spec: the name of the [traceur] object. *)
Definition TRACEUR := "traceur".

(** Modelled from the spec: the name of [traceur.runtime]. *)
Definition RUNTIME := "runtime".

(** Modelled from the spec: the name of the super dispatch helper. *)
Definition SUPER_CALL := "superCall".

(** Modelled from the spec: the name of the helper that reads a member of
    the superclass. *)
Definition SUPER_GET := "superGet".

(** Modelled from the spec: the name of the member a body belongs to. *)
Definition methodName (methodTree : ParseTree) : string :=
  match methodTree with
  | PropertyMethodAssignment _ name _ _ _ => name
  | GetAccessor _ propertyName _ => propertyName
  | SetAccessor _ propertyName _ _ => propertyName
  | _ => ""
  end.

(** Modelled from the spec: the arguments of a call. *)
Definition argumentsOf (args : ParseTree) : list ParseTree :=
  match args with
  | ArgumentList _ l => l
  | _ => [args]
  end.

(** Modelled from the spec: the call of the super dispatch helper on the
    receiver, the class, the member name and the arguments. *)
Definition superCall (className : ParseTree) (member : string)
    (args : list ParseTree) : ParseTree :=
  createCallExpression
    (createMemberExpression TRACEUR [RUNTIME; SUPER_CALL])
    (createArgumentList
       [createThisExpression; className; createStringLiteral member;
        createArrayLiteralExpression args]).

(** Modelled from the spec: the read of a member of the superclass through
    the runtime. *)
Definition superGet (className : ParseTree) (member : string) : ParseTree :=
  createCallExpression
    (createMemberExpression TRACEUR [RUNTIME; SUPER_GET])
    (createArgumentList
       [createThisExpression; className; createStringLiteral member]).

Section Rewrite.
Variable className : ParseTree.
Variable method : string.

(** Modelled from the spec: the rewrite of every [super(...)] and
    [super.member] of a tree. *)
Fixpoint rewrite (tree : ParseTree) : ParseTree :=
  match tree with
  | CallExpression _ (SuperExpression _) args =>
      superCall className method (argumentsOf (rewrite args))
  | CallExpression _ (MemberExpression _ (SuperExpression _) member) args =>
      superCall className member (argumentsOf (rewrite args))
  | MemberExpression _ (SuperExpression _) member =>
      superGet className member
  | ArgumentList l args => ArgumentList l (map rewrite args)
  | ArrayLiteralExpression l elements =>
      ArrayLiteralExpression l (map rewrite elements)
  | ArrowFunctionExpression l formalParameters functionBody =>
      ArrowFunctionExpression l (rewrite formalParameters)
        (rewrite functionBody)
  | BinaryOperator l lhs operator rhs =>
      BinaryOperator l (rewrite lhs) operator (rewrite rhs)
  | BindingElement l binding initializer =>
      BindingElement l binding (option_map rewrite initializer)
  | BindingIdentifierTree b => tree
  | Block l statements => Block l (map rewrite statements)
  | CallExpression l operand args =>
      CallExpression l (rewrite operand) (rewrite args)
  | Catch l binding catchBody => Catch l (rewrite binding) (rewrite catchBody)
  | ClassDeclaration l name superClass elements =>
      ClassDeclaration l name (option_map rewrite superClass)
        (map rewrite elements)
  | ClassExpression l name superClass elements =>
      ClassExpression l name (option_map rewrite superClass)
        (map rewrite elements)
  | ExpressionStatement l expression =>
      ExpressionStatement l (rewrite expression)
  | FormalParameterList l parameters =>
      FormalParameterList l (map rewrite parameters)
  | FunctionDeclaration l name isGenerator formalParameterList functionBody =>
      FunctionDeclaration l name isGenerator (rewrite formalParameterList)
        (rewrite functionBody)
  | GetAccessor l propertyName body => GetAccessor l propertyName (rewrite body)
  | IdentifierExpression _ _ => tree
  | IfStatement l condition ifClause elseClause =>
      IfStatement l (rewrite condition) (rewrite ifClause)
        (option_map rewrite elseClause)
  | LiteralExpression _ _ => tree
  | MemberExpression l operand memberName =>
      MemberExpression l (rewrite operand) memberName
  | ObjectLiteralExpression l propertyNameAndValues =>
      ObjectLiteralExpression l (map rewrite propertyNameAndValues)
  | ParenExpression l expression => ParenExpression l (rewrite expression)
  | PropertyMethodAssignment l name isGenerator formalParameterList
      functionBody =>
      PropertyMethodAssignment l name isGenerator
        (rewrite formalParameterList) (rewrite functionBody)
  | PropertyNameAssignment l name value =>
      PropertyNameAssignment l name (rewrite value)
  | RestParameter _ _ => tree
  | ReturnStatement l expression =>
      ReturnStatement l (option_map rewrite expression)
  | SetAccessor l propertyName parameter body =>
      SetAccessor l propertyName (rewrite parameter) (rewrite body)
  | SpreadExpression l expression => SpreadExpression l (rewrite expression)
  | SuperExpression _ => tree
  | ThisExpression _ => tree
  | TryStatement l body catchBlock finallyBlock =>
      TryStatement l (rewrite body) (option_map rewrite catchBlock)
        (option_map rewrite finallyBlock)
  | VariableDeclaration l lvalue initializer =>
      VariableDeclaration l lvalue (option_map rewrite initializer)
  | VariableDeclarationList l declarationType declarations =>
      VariableDeclarationList l declarationType (map rewrite declarations)
  | VariableStatement l declarations =>
      VariableStatement l (rewrite declarations)
  end.
End Rewrite.

(** Modelled from the spec: [superTransformer.hasSuper] after the rewrite of
    [tree], whether a rewrite occurred, that is, whether [tree] has a
    [super(...)] call or a [super.member]. *)
Fixpoint hasSuper (tree : ParseTree) : bool :=
  let any := existsb hasSuper in
  let opt o := match o with Some t => hasSuper t | None => false end in
  match tree with
  | CallExpression _ (SuperExpression _) _ => true
  | MemberExpression _ (SuperExpression _) _ => true
  | ArgumentList _ args => any args
  | ArrayLiteralExpression _ elements => any elements
  | ArrowFunctionExpression _ formalParameters functionBody =>
      hasSuper formalParameters || hasSuper functionBody
  | BinaryOperator _ lhs _ rhs => hasSuper lhs || hasSuper rhs
  | BindingElement _ _ initializer => opt initializer
  | BindingIdentifierTree _ => false
  | Block _ statements => any statements
  | CallExpression _ operand args => hasSuper operand || hasSuper args
  | Catch _ binding catchBody => hasSuper binding || hasSuper catchBody
  | ClassDeclaration _ _ superClass elements => opt superClass || any elements
  | ClassExpression _ _ superClass elements => opt superClass || any elements
  | ExpressionStatement _ expression => hasSuper expression
  | FormalParameterList _ parameters => any parameters
  | FunctionDeclaration _ _ _ formalParameterList functionBody =>
      hasSuper formalParameterList || hasSuper functionBody
  | GetAccessor _ _ body => hasSuper body
  | IdentifierExpression _ _ => false
  | IfStatement _ condition ifClause elseClause =>
      hasSuper condition || hasSuper ifClause || opt elseClause
  | LiteralExpression _ _ => false
  | MemberExpression _ operand _ => hasSuper operand
  | ObjectLiteralExpression _ propertyNameAndValues =>
      any propertyNameAndValues
  | ParenExpression _ expression => hasSuper expression
  | PropertyMethodAssignment _ _ _ formalParameterList functionBody =>
      hasSuper formalParameterList || hasSuper functionBody
  | PropertyNameAssignment _ _ value => hasSuper value
  | RestParameter _ _ => false
  | ReturnStatement _ expression => opt expression
  | SetAccessor _ _ parameter body => hasSuper parameter || hasSuper body
  | SpreadExpression _ expression => hasSuper expression
  | SuperExpression _ => false
  | ThisExpression _ => false
  | TryStatement _ body catchBlock finallyBlock =>
      hasSuper body || opt catchBlock || opt finallyBlock
  | VariableDeclaration _ _ initializer => opt initializer
  | VariableDeclarationList _ _ declarations => any declarations
  | VariableStatement _ declarations => hasSuper declarations
  end.

(** Modelled from the spec:
    [new SuperTransformer(_, _, className, methodTree)], then the result of
    its [transformAny(tree)] and its [hasSuper]. *)
Definition transformAny (className : option ParseTree)
    (methodTree tree : ParseTree) : ParseTree * bool :=
  let c := match className with
           | Some c => c
           | None => createNullLiteral
           end in
  (rewrite c (methodName methodTree) tree, hasSuper tree).

End SuperTransformer.

(** * ClassTransformer.js *)

Module ClassTransformer.
Import ParseTreeFactory.

(** Modelled from the spec: [CONSTRUCTOR] of [PredefinedName.js], the name
    of the constructor of a class. *)
Definition CONSTRUCTOR := "constructor".

(** Modelled from the spec: [CREATE_CLASS] of [PredefinedName.js], the name
    of the runtime class-creation helper. *)
Definition CREATE_CLASS := "createClass".

(** Modelled from the spec: [RUNTIME] of [PredefinedName.js]. *)
Definition RUNTIME := "runtime".

(** Modelled from the spec: [TRACEUR] of [PredefinedName.js]. *)
Definition TRACEUR := "traceur".

(** [State]: the class being transformed, the expression that names it and
    whether a member of it used [super]. *)
Record State := mkState {
  tree : ParseTree;
  name : option ParseTree;
  hasSuper : bool
}.

(** What the transformer reads and writes.

    - [heap] holds the [State] objects created so far, an object being known
      by its index, and [stack] is the module-level array of that name, as
      the list of the objects it holds, the last pushed first.
    - [tempVars] and [identifierGenerator] are the temporary variables of
      [TempVarTransformer] that are allocated, oldest first, and the counter
      of the unique identifier generator. *)
Record Transformer := mkTransformer {
  heap : list State;
  stack : list nat;
  tempVars : list string;
  identifierGenerator : nat
}.

(** A computation stops on a JavaScript [Error], or because the recursion
    budget of the embedding is used up. *)
Inductive Failure :=
| JsError (message : string)
| OutOfFuel.

(** A method of the transformer. *)
Definition T := M Transformer Failure.

(** The error of a property read on [undefined]. *)
Definition typeError : Failure := JsError "TypeError".

(** [new State(classTree)]. *)
Definition newState (classTree : ParseTree) : T nat :=
  fun s =>
    (Ok (List.length (heap s)),
     mkTransformer (heap s ++ [mkState classTree None false]) (stack s)
       (tempVars s) (identifierGenerator s)).

(** The object [state], if [state] is one. *)
Definition deref (state : nat) : T State :=
  fun s =>
    match nth_error (heap s) state with
    | Some o => (Ok o, s)
    | None => (Throw typeError, s)
    end.

(** The objects, the object [state] being now [o]. *)
Fixpoint update (objects : list State) (state : nat) (o : State)
  : list State :=
  match objects, state with
  | [], _ => []
  | _ :: rest, O => o :: rest
  | x :: rest, S n => x :: update rest n o
  end.

(** A write to the fields of the object [state]. *)
Definition assign (state : nat) (o : State) : T unit :=
  fun s =>
    (Ok tt,
     mkTransformer (update (heap s) state o) (stack s) (tempVars s)
       (identifierGenerator s)).

(** [state.name = name]. *)
Definition setName (state : nat) (name : ParseTree) : T unit :=
  o <- deref state ;;
  assign state (mkState (tree o) (Some name) (hasSuper o)).

(** [state.hasSuper = true]. *)
Definition setHasSuper (state : nat) : T unit :=
  o <- deref state ;;
  assign state (mkState (tree o) (name o) true).

(** [stack.push(state)]. *)
Definition push (state : nat) : T unit :=
  fun s =>
    (Ok tt,
     mkTransformer (heap s) (state :: stack s) (tempVars s)
       (identifierGenerator s)).

(** [stack.pop()]. *)
Definition pop : T unit :=
  fun s =>
    (Ok tt,
     mkTransformer (heap s) (tl (stack s)) (tempVars s)
       (identifierGenerator s)).

(** [peekState()]: [undefined] on the empty stack. *)
Definition peekState : T (option nat) :=
  fun s => (Ok (hd_error (stack s)), s).

(** ** TempVarTransformer.js

    The temporary variable bookkeeping is not part of the sources. *)

(** Modelled from the spec: the unique identifier the generator returns the
    [n]-th time. *)
Definition uniqueIdentifier (n : nat) : string :=
  "$__" ++ NilEmpty.string_of_uint (Nat.to_uint n).

(** Modelled from the spec: [addTempVar()] allocates a fresh unique
    temporary binding name. *)
Definition addTempVar : T string :=
  fun s =>
    let uid := uniqueIdentifier (identifierGenerator s) in
    (Ok uid,
     mkTransformer (heap s) (stack s) (tempVars s ++ [uid])
       (S (identifierGenerator s))).

(** Modelled from the spec: [removeTempVar(name)] releases a temporary
    binding name allocated before. *)
Definition removeTempVar (name : string) : T unit :=
  fun s =>
    (Ok tt,
     mkTransformer (heap s) (stack s)
       (filter (fun v => negb (String.eqb v name)) (tempVars s))
       (identifierGenerator s)).

(** ** The methods of the class transformer

    [superTransformer className methodTree tree] stands for
    [new SuperTransformer(this, this.reporter_, className, methodTree)]: the
    result of its [transformAny(tree)] and its [hasSuper].
    [blockBinding] is [transformOptions.blockBinding].  [transformAny] is
    [this.transformAny], which is [proto.transformAny] with [this]. *)
Section Methods.
Variable superTransformer :
  option ParseTree -> ParseTree -> ParseTree -> ParseTree * bool.
Variable blockBinding : bool.
Variable transformAny : ParseTree -> T ParseTree.

(** [transformAny(tree)] for a child that may be [null]. *)
Definition transformAnyOpt (tree : option ParseTree) : T (option ParseTree) :=
  match tree with
  | Some t => t' <- transformAny t ;; ret (Some t')
  | None => ret None
  end.

Definition transformSuperInBlock_ (methodTree tree : ParseTree)
  : T ParseTree :=
  state <- peekState ;;
  match state with
  | None => throw typeError
  | Some state =>
      o <- deref state ;;
      let className := name o in
      tree' <- transformAny tree ;;
      let (transformedTree, superFound) :=
        superTransformer className methodTree tree' in
      (if superFound then setHasSuper state else ret tt) ;;
      ret transformedTree
  end.

(** [tree] is a property method assignment, given by its fields. *)
Definition transformPropertyMethodAssignment_ (location : Location)
    (name : string) (isGenerator : bool)
    (formalParameterList functionBody : ParseTree) : T ParseTree :=
  let tree := PropertyMethodAssignment location name isGenerator
                formalParameterList functionBody in
  formalParameterList' <- transformAny formalParameterList ;;
  functionBody' <- transformSuperInBlock_ tree functionBody ;;
  if ParseTree_eqb formalParameterList' formalParameterList &&
     ParseTree_eqb functionBody' functionBody
  then ret tree
  else ret (PropertyMethodAssignment location name isGenerator
              formalParameterList' functionBody').

(** [tree] is a get accessor, given by its fields. *)
Definition transformGetAccessor_ (location : Location) (propertyName : string)
    (body : ParseTree) : T ParseTree :=
  let tree := GetAccessor location propertyName body in
  body' <- transformSuperInBlock_ tree body ;;
  if ParseTree_eqb body' body then ret tree
  else ret (GetAccessor location propertyName body').

(** [tree] is a set accessor, given by its fields. *)
Definition transformSetAccessor_ (location : Location) (propertyName : string)
    (parameter body : ParseTree) : T ParseTree :=
  let tree := SetAccessor location propertyName parameter body in
  parameter' <- transformAny parameter ;;
  body' <- transformSuperInBlock_ tree body ;;
  if ParseTree_eqb body' body then ret tree
  else ret (SetAccessor location propertyName parameter' body').

(** [tree] is a property method assignment, given by its fields. *)
Definition transformConstructor_ (location : Location) (name : string)
    (isGenerator : bool) (formalParameterList functionBody : ParseTree)
  : T ParseTree :=
  let tree := PropertyMethodAssignment location name isGenerator
                formalParameterList functionBody in
  parameters <- transformAny formalParameterList ;;
  functionBody' <- transformSuperInBlock_ tree functionBody ;;
  let func := createFunctionExpression parameters functionBody' in
  ret (createPropertyNameAssignment CONSTRUCTOR func).

(** The parameters [(...args)] [getDefaultConstructor_] builds. *)
Definition defaultParams : ParseTree :=
  FormalParameterList None [createRestParameter "args"].

(** The body [{ super(...args) }] of the default constructor. *)
Definition defaultBody : ParseTree :=
  createBlock
    (createExpressionStatement
       (createCallExpression
          (SuperExpression None)
          (createArgumentList
             [createSpreadExpression (createIdentifierExpression "args")]))).

Definition getDefaultConstructor_ (tree : ParseTree) : T ParseTree :=
  transformConstructor_ None (createIdentifierToken CONSTRUCTOR) false
    defaultParams defaultBody.

(** The callback of [tree.elements.map] in [transformClassShared_]; the
    second component is the value the callback assigns to [constructor], if
    it does. *)
Definition transformElement (tree : ParseTree)
  : T (ParseTree * option ParseTree) :=
  match tree with
  | GetAccessor location propertyName body =>
      e <- transformGetAccessor_ location propertyName body ;;
      ret (e, None)
  | SetAccessor location propertyName parameter body =>
      e <- transformSetAccessor_ location propertyName parameter body ;;
      ret (e, None)
  | PropertyMethodAssignment location name isGenerator formalParameterList
      functionBody =>
      if String.eqb name CONSTRUCTOR then
        e <- transformConstructor_ location name isGenerator
               formalParameterList functionBody ;;
        ret (e, Some e)
      else
        e <- transformPropertyMethodAssignment_ location name isGenerator
               formalParameterList functionBody ;;
        ret (e, None)
  | _ => throw (JsError ("Unexpected class element: " ++ type tree))
  end.

(** The value of [constructor] after the callbacks ran: the last one
    assigned. *)
Definition lastConstructor (results : list (ParseTree * option ParseTree))
  : option ParseTree :=
  fold_left (fun constructor r =>
               match snd r with
               | Some c => Some c
               | None => constructor
               end)
    results None.

(** [tree] is a class declaration or a class expression; [superClass] and
    [elements] are its fields of these names. *)
Definition transformClassShared_ (tree : ParseTree)
    (superClass : option ParseTree) (elements : list ParseTree)
    (name : string) : T (ParseTree * bool) :=
  superClass' <- transformAnyOpt superClass ;;
  state <- newState tree ;;
  push state ;;
  setName state (createIdentifierExpression name) ;;
  results <- mapM transformElement elements ;;
  let constructor := lastConstructor results in
  let elements' := map fst results in
  elements'' <-
    match constructor with
    | None =>
        c <- getDefaultConstructor_ tree ;;
        ret (elements' ++ [c])
    | Some _ => ret elements'
    end ;;
  pop ;;
  let hasConstructor :=
    match constructor with Some _ => true | None => false end in
  let hasExtendsExpression :=
    match superClass' with Some _ => true | None => false end in
  o <- deref state ;;
  ret (createCallExpression
         (createMemberExpression TRACEUR [RUNTIME; CREATE_CLASS])
         (createArgumentList
            [createObjectLiteralExpression elements'';
             match superClass' with
             | Some c => c
             | None => createNullLiteral
             end;
             createBooleanLiteral hasConstructor;
             createBooleanLiteral hasExtendsExpression]),
       hasSuper o).

Definition transformClassDeclaration (location : Location)
    (name : BindingIdentifier) (superClass : option ParseTree)
    (elements : list ParseTree) : T ParseTree :=
  let tree := ClassDeclaration location name superClass elements in
  transformResult <-
    transformClassShared_ tree superClass elements (identifierToken name) ;;
  ret (createVariableStatement (if blockBinding then LET else VAR) name
         (fst transformResult)).

Definition transformClassExpression (location : Location)
    (name : option BindingIdentifier) (superClass : option ParseTree)
    (elements : list ParseTree) : T ParseTree :=
  let tree := ClassExpression location name superClass elements in
  tempIdent <- addTempVar ;;
  transformResult <- transformClassShared_ tree superClass elements tempIdent ;;
  let classTree := fst transformResult in
  let hasSuper := snd transformResult in
  if hasSuper then
    ret (createParenExpression
           (createAssignmentExpression
              (createIdentifierExpression tempIdent)
              classTree))
  else
    removeTempVar tempIdent ;;
    ret classTree.

(** Modelled from the spec: [proto.transformAny] on a node, which calls the
    method of the kind of the node; the generic tree rewrite is not part of
    the sources.  The two methods above are the ones the class transformer
    has of its own; a node of another kind has its children transformed in
    the order of its fields, and is the original node when no child
    changed. *)
Definition transformTree (tree : ParseTree) : T ParseTree :=
  match tree with
  | ArgumentList l args =>
      args' <- mapM transformAny args ;; ret (ArgumentList l args')
  | ArrayLiteralExpression l elements =>
      elements' <- mapM transformAny elements ;;
      ret (ArrayLiteralExpression l elements')
  | ArrowFunctionExpression l formalParameters functionBody =>
      formalParameters' <- transformAny formalParameters ;;
      functionBody' <- transformAny functionBody ;;
      ret (ArrowFunctionExpression l formalParameters' functionBody')
  | BinaryOperator l lhs operator rhs =>
      lhs' <- transformAny lhs ;;
      rhs' <- transformAny rhs ;;
      ret (BinaryOperator l lhs' operator rhs')
  | BindingElement l binding initializer =>
      initializer' <- transformAnyOpt initializer ;;
      ret (BindingElement l binding initializer')
  | BindingIdentifierTree _ => ret tree
  | Block l statements =>
      statements' <- mapM transformAny statements ;;
      ret (Block l statements')
  | CallExpression l operand args =>
      operand' <- transformAny operand ;;
      args' <- transformAny args ;;
      ret (CallExpression l operand' args')
  | Catch l binding catchBody =>
      binding' <- transformAny binding ;;
      catchBody' <- transformAny catchBody ;;
      ret (Catch l binding' catchBody')
  | ClassDeclaration location name superClass elements =>
      transformClassDeclaration location name superClass elements
  | ClassExpression location name superClass elements =>
      transformClassExpression location name superClass elements
  | ExpressionStatement l expression =>
      expression' <- transformAny expression ;;
      ret (ExpressionStatement l expression')
  | FormalParameterList l parameters =>
      parameters' <- mapM transformAny parameters ;;
      ret (FormalParameterList l parameters')
  | FunctionDeclaration l name isGenerator formalParameterList functionBody =>
      formalParameterList' <- transformAny formalParameterList ;;
      functionBody' <- transformAny functionBody ;;
      ret (FunctionDeclaration l name isGenerator formalParameterList'
             functionBody')
  | GetAccessor l propertyName body =>
      body' <- transformAny body ;;
      ret (GetAccessor l propertyName body')
  | IdentifierExpression _ _ => ret tree
  | IfStatement l condition ifClause elseClause =>
      condition' <- transformAny condition ;;
      ifClause' <- transformAny ifClause ;;
      elseClause' <- transformAnyOpt elseClause ;;
      ret (IfStatement l condition' ifClause' elseClause')
  | LiteralExpression _ _ => ret tree
  | MemberExpression l operand memberName =>
      operand' <- transformAny operand ;;
      ret (MemberExpression l operand' memberName)
  | ObjectLiteralExpression l propertyNameAndValues =>
      propertyNameAndValues' <- mapM transformAny propertyNameAndValues ;;
      ret (ObjectLiteralExpression l propertyNameAndValues')
  | ParenExpression l expression =>
      expression' <- transformAny expression ;;
      ret (ParenExpression l expression')
  | PropertyMethodAssignment l name isGenerator formalParameterList
      functionBody =>
      formalParameterList' <- transformAny formalParameterList ;;
      functionBody' <- transformAny functionBody ;;
      ret (PropertyMethodAssignment l name isGenerator formalParameterList'
             functionBody')
  | PropertyNameAssignment l name value =>
      value' <- transformAny value ;;
      ret (PropertyNameAssignment l name value')
  | RestParameter _ _ => ret tree
  | ReturnStatement l expression =>
      expression' <- transformAnyOpt expression ;;
      ret (ReturnStatement l expression')
  | SetAccessor l propertyName parameter body =>
      parameter' <- transformAny parameter ;;
      body' <- transformAny body ;;
      ret (SetAccessor l propertyName parameter' body')
  | SpreadExpression l expression =>
      expression' <- transformAny expression ;;
      ret (SpreadExpression l expression')
  | SuperExpression _ => ret tree
  | ThisExpression _ => ret tree
  | TryStatement l body catchBlock finallyBlock =>
      body' <- transformAny body ;;
      catchBlock' <- transformAnyOpt catchBlock ;;
      finallyBlock' <- transformAnyOpt finallyBlock ;;
      ret (TryStatement l body' catchBlock' finallyBlock')
  | VariableDeclaration l lvalue initializer =>
      initializer' <- transformAnyOpt initializer ;;
      ret (VariableDeclaration l lvalue initializer')
  | VariableDeclarationList l declarationType declarations =>
      declarations' <- mapM transformAny declarations ;;
      ret (VariableDeclarationList l declarationType declarations')
  | VariableStatement l declarations =>
      declarations' <- transformAny declarations ;;
      ret (VariableStatement l declarations')
  end.
End Methods.

Section Transform.
Variable superTransformer :
  option ParseTree -> ParseTree -> ParseTree -> ParseTree * bool.
Variable blockBinding : bool.

(** [this.transformAny(tree)]: the method of [tree], its calls of
    [this.transformAny] made with one unit of [fuel] less. *)
Fixpoint transformAny (fuel : nat) (tree : ParseTree) : T ParseTree :=
  match fuel with
  | O => throw OutOfFuel
  | S fuel' =>
      transformTree superTransformer blockBinding (transformAny fuel') tree
  end.

End Transform.

End ClassTransformer.

(** * Vocabulary of the statements about the class transformer *)

Module ClassFacts.
Import ClassTransformer.

(** The error of the [default] case of the switch on the class elements. *)
Definition unexpected (f : Failure) : Prop :=
  exists t, f = JsError ("Unexpected class element: " ++ type t).

(** The members [transformClassShared_] has a case for. *)
Definition isClassElement (t : ParseTree) : bool :=
  match t with
  | GetAccessor _ _ _ | SetAccessor _ _ _ _
  | PropertyMethodAssignment _ _ _ _ _ => true
  | _ => false
  end.

(** A member is the user's constructor. *)
Definition isConstructor (t : ParseTree) : bool :=
  match t with
  | PropertyMethodAssignment _ name _ _ _ => String.eqb name CONSTRUCTOR
  | _ => false
  end.

(** The class has a constructor of the user. *)
Definition hasUserConstructor (elements : list ParseTree) : bool :=
  existsb isConstructor elements.

(** Every class context of [s] is a class context of [s'], for the same
    class under the same name; a flag that was set is still set, and a
    context outside [P] is as it was. *)
Definition keepsContexts (P : nat -> Prop) (s s' : Transformer) : Prop :=
  forall i o,
    nth_error (heap s) i = Some o ->
    exists o',
      nth_error (heap s') i = Some o' /\
      tree o' = tree o /\ name o' = name o /\
      (hasSuper o = true -> hasSuper o' = true) /\
      (~ P i -> o' = o).

(** The identifier generator only advances, and a temporary variable it
    cannot generate any more stays allocated. *)
Definition keepsTemps (s s' : Transformer) : Prop :=
  identifierGenerator s <= identifierGenerator s' /\
  forall v,
    In v (tempVars s) ->
    (forall k, identifierGenerator s <= k -> v <> uniqueIdentifier k) ->
    In v (tempVars s').

(** [s'] is reached from [s] by a computation that touches the class
    contexts of [P] at most. *)
Definition related (P : nat -> Prop) (s s' : Transformer) : Prop :=
  keepsContexts P s s' /\ keepsTemps s s'.

(** What a run from [s] may end in: the stack is as it was after a normal
    return, and it has the entries [extra] left on it after the error of an
    unexpected class element. *)
Definition outcome {A} (P : nat -> Prop) (strict : bool) (s : Transformer)
    (rs : Result Failure A * Transformer) : Prop :=
  related P s (snd rs) /\
  match fst rs with
  | Ok _ => stack (snd rs) = stack s
  | Throw OutOfFuel => True
  | Throw f =>
      unexpected f /\
      exists extra,
        (strict = true -> extra <> []) /\ stack (snd rs) = extra ++ stack s
  end.

(** A computation that touches no class context it finds. *)
Definition soundAny {A} (m : T A) : Prop :=
  forall s, outcome (fun _ => False) true s (m s).

(** A computation that touches at most the class context on top of the
    stack. *)
Definition soundMember {A} (m : T A) : Prop :=
  forall s a rest,
    stack s = a :: rest -> a < List.length (heap s) ->
    outcome (eq a) false s (m s).

(** A computation that does not use up its recursion budget. *)
Definition total {A} (m : T A) : Prop :=
  forall s, thrown (fst (m s)) <> Some OutOfFuel.

(** The recursion budget the transformation of a tree takes; the default
    constructor of a class takes six levels. *)
Fixpoint height (t : ParseTree) : nat :=
  let all := fold_right (fun x n => Nat.max (height x) n) 0 in
  let opt o := match o with Some x => height x | None => 0 end in
  S match t with
    | ArgumentList _ args => all args
    | ArrayLiteralExpression _ elements => all elements
    | ArrowFunctionExpression _ a b => Nat.max (height a) (height b)
    | BinaryOperator _ a _ b => Nat.max (height a) (height b)
    | BindingElement _ _ initializer => opt initializer
    | BindingIdentifierTree _ => 0
    | Block _ statements => all statements
    | CallExpression _ a b => Nat.max (height a) (height b)
    | Catch _ a b => Nat.max (height a) (height b)
    | ClassDeclaration _ _ superClass elements =>
        Nat.max 6 (Nat.max (opt superClass) (all elements))
    | ClassExpression _ _ superClass elements =>
        Nat.max 6 (Nat.max (opt superClass) (all elements))
    | ExpressionStatement _ a => height a
    | FormalParameterList _ parameters => all parameters
    | FunctionDeclaration _ _ _ a b => Nat.max (height a) (height b)
    | GetAccessor _ _ a => height a
    | IdentifierExpression _ _ => 0
    | IfStatement _ a b c => Nat.max (height a) (Nat.max (height b) (opt c))
    | LiteralExpression _ _ => 0
    | MemberExpression _ a _ => height a
    | ObjectLiteralExpression _ l => all l
    | ParenExpression _ a => height a
    | PropertyMethodAssignment _ _ _ a b => Nat.max (height a) (height b)
    | PropertyNameAssignment _ _ a => height a
    | RestParameter _ _ => 0
    | ReturnStatement _ a => opt a
    | SetAccessor _ _ a b => Nat.max (height a) (height b)
    | SpreadExpression _ a => height a
    | SuperExpression _ => 0
    | ThisExpression _ => 0
    | TryStatement _ a b c => Nat.max (height a) (Nat.max (opt b) (opt c))
    | VariableDeclaration _ _ a => opt a
    | VariableDeclarationList _ _ l => all l
    | VariableStatement _ a => height a
    end.

(** The greatest [height] of the trees of a list. *)
Definition heights (l : list ParseTree) : nat :=
  fold_right (fun x n => Nat.max (height x) n) 0 l.

(** The [height] of a child that may be [null]. *)
Definition heightOpt (o : option ParseTree) : nat :=
  match o with Some x => height x | None => 0 end.

(** The budget [transformClassShared_] takes for a class. *)
Definition classHeight (superClass : option ParseTree)
    (elements : list ParseTree) : nat :=
  Nat.max 6 (Nat.max (heightOpt superClass) (heights elements)).

(** The member [getDefaultConstructor_] hands to [transformConstructor_]. *)
Definition defaultConstructor : ParseTree :=
  PropertyMethodAssignment None CONSTRUCTOR false defaultParams defaultBody.

(** The call of [traceur.runtime.createClass] on its four arguments. *)
Definition createClassCall (elements : list ParseTree)
    (superClass : ParseTree) (hasConstructor hasExtendsExpression : bool)
  : ParseTree :=
  CallExpression None
    (MemberExpression None
       (MemberExpression None (IdentifierExpression None TRACEUR) RUNTIME)
       CREATE_CLASS)
    (ArgumentList None
       [ObjectLiteralExpression None elements;
        superClass;
        LiteralExpression None (BooleanLiteral hasConstructor);
        LiteralExpression None (BooleanLiteral hasExtendsExpression)]).

(** The state [transformClassShared_] transforms the members in: the class
    context of the class is a new object, on top of the stack. *)
Definition entered (tree : ParseTree) (name : string) (s : Transformer)
  : Transformer :=
  mkTransformer
    (heap s ++
     [mkState tree (Some (ParseTreeFactory.createIdentifierExpression name))
        false])
    (List.length (heap s) :: stack s) (tempVars s) (identifierGenerator s).

(** What [transformClassShared_] does between [stack.push] and [stack.pop]:
    the members after their transformation, and whether one of them is a
    constructor of the user. *)
Definition members
    (superTransformer :
       option ParseTree -> ParseTree -> ParseTree -> ParseTree * bool)
    (transformAny : ParseTree -> T ParseTree)
    (tree : ParseTree) (elements : list ParseTree)
  : T (list ParseTree * bool) :=
  results <- mapM (transformElement superTransformer transformAny) elements ;;
  match lastConstructor results with
  | None =>
      c <- getDefaultConstructor_ superTransformer transformAny tree ;;
      ret (map fst results ++ [c], false)
  | Some _ => ret (map fst results, true)
  end.

(** The constructor [getDefaultConstructor_] returns for the class named by
    [className]. *)
Definition synthesized
    (superTransformer :
       option ParseTree -> ParseTree -> ParseTree -> ParseTree * bool)
    (className : option ParseTree) : ParseTree :=
  ParseTreeFactory.createPropertyNameAssignment CONSTRUCTOR
    (ParseTreeFactory.createFunctionExpression defaultParams
       (fst (superTransformer className defaultConstructor defaultBody))).

(** [state.hasSuper = true] on the class context [a] of [s], when [found]. *)
Definition flagged (found : bool) (a : nat) (s : Transformer) : Transformer :=
  if found then
    match nth_error (heap s) a with
    | Some o =>
        mkTransformer
          (update (heap s) a
             (mkState (ClassTransformer.tree o) (name o) true))
          (stack s) (tempVars s) (identifierGenerator s)
    | None => s
    end
  else s.

(** Whether the super rewrite reports a use of [super] in the body of a
    member, the body being transformed from [s]. *)
Definition foundIn
    (superTransformer :
       option ParseTree -> ParseTree -> ParseTree -> ParseTree * bool)
    (transformAny : ParseTree -> T ParseTree)
    (className : option ParseTree) (member body : ParseTree)
    (s : Transformer) : bool :=
  match transformAny body s with
  | (Ok body', _) => snd (superTransformer className member body')
  | (Throw _, _) => false
  end.

(** A member of a class uses [super]: the super rewrite reports it when the
    member is transformed from [s]. *)
Definition usesSuper
    (superTransformer :
       option ParseTree -> ParseTree -> ParseTree -> ParseTree * bool)
    (transformAny : ParseTree -> T ParseTree)
    (className : option ParseTree) (member : ParseTree)
    (s : Transformer) : bool :=
  match member with
  | GetAccessor _ _ body =>
      foundIn superTransformer transformAny className member body s
  | SetAccessor _ _ parameter body =>
      match transformAny parameter s with
      | (Ok _, s1) =>
          foundIn superTransformer transformAny className member body s1
      | (Throw _, _) => false
      end
  | PropertyMethodAssignment _ _ _ formalParameterList functionBody =>
      match transformAny formalParameterList s with
      | (Ok _, s1) =>
          foundIn superTransformer transformAny className member functionBody
            s1
      | (Throw _, _) => false
      end
  | _ => false
  end.


(** ** Examples *)

(** A transformer that has transformed nothing yet. *)
Definition fresh : Transformer := mkTransformer [] [] [] 0.

(** [this.transformAny] with the super rewrite of [SuperTransformer] and
    function-scoped bindings. *)
Definition run (fuel : nat) : ParseTree -> T ParseTree :=
  transformAny SuperTransformer.transformAny false fuel.

(** The reference [B]. *)
Definition identB : ParseTree := IdentifierExpression None "B".

(** [constructor() {}] *)
Definition emptyConstructor : ParseTree :=
  PropertyMethodAssignment None CONSTRUCTOR false
    (FormalParameterList None []) (Block None []).

(** [constructor() { super(); }] *)
Definition superConstructor : ParseTree :=
  PropertyMethodAssignment None CONSTRUCTOR false
    (FormalParameterList None [])
    (Block None
       [ExpressionStatement None
          (CallExpression None (SuperExpression None)
             (ArgumentList None []))]).

(** [v = class { constructor() {} }], as the parameter of a set accessor. *)
Definition classParameter : ParseTree :=
  BindingElement None (mkBindingIdentifier None "v")
    (Some (ClassExpression None None None [emptyConstructor])).

(** The members are transformed in the class context of a class [C]. *)
Definition inClassC : Transformer :=
  mkTransformer
    [mkState (ThisExpression None) (Some (IdentifierExpression None "C"))
       false]
    [0] [] 0.


End ClassFacts.

(** * Vocabulary of the statements about the free variable checker *)

Module CheckerFacts.
Import FreeVariableChecker.

(** The diagnostic [validateScope_] pushes for a name and the location of
    its reference. *)
Definition diagnosticOf (name : string) (range : SourceRange) : Diagnostic :=
  mkDiagnostic (start range) "%s is not defined" name.

(** The pending references of a scope that no declaration of the scope
    matches, in the order [for (name in scope.references)] meets them. *)
Definition unresolved (declarations names : NameMap Location)
  : NameMap Location :=
  filter (fun entry => negb (inMap (fst entry) declarations)) names.

(** The diagnostics of the references that have a location. *)
Fixpoint diagnostics (names : NameMap Location) : list Diagnostic :=
  match names with
  | [] => []
  | (name, Some range) :: rest => diagnosticOf name range :: diagnostics rest
  | (_, None) :: rest => diagnostics rest
  end.

(** The first reference without a location, if there is one. *)
Fixpoint firstGenerated (names : NameMap Location) : option string :=
  match names with
  | [] => None
  | (name, None) :: _ => Some name
  | (_, Some _) :: rest => firstGenerated rest
  end.

(** The reference mapping of the parent once the references [names] of a
    scope with the declarations [declarations] are promoted into it: a name
    the scope declares, or the parent has a pending reference for, is left
    out. *)
Fixpoint promote (declarations names parent : NameMap Location)
  : NameMap Location :=
  match names with
  | [] => parent
  | (name, location) :: rest =>
      if inMap name declarations || inMap name parent
      then promote declarations rest parent
      else promote declarations rest (addKey name location parent)
  end.

(** Diagnostics in source order. *)
Definition byOffset (x y : Diagnostic) : Prop :=
  (offset (position x) <= offset (position y))%Z.

(** No name is a key twice. *)
Definition uniqueKeys {V} (m : NameMap V) : Prop := NoDup (keys m).

(** A scope after more references and declarations were recorded in it. *)
Definition grows (a b : Scope) : Prop :=
  (exists r, references b = references a ++ r) /\
  (exists d, declarations b = declarations a ++ d).

(** A scope after more references were recorded in it, none for a name of
    [hidden], and no declaration. *)
Definition growsReferences (hidden : list string) (a b : Scope) : Prop :=
  declarations b = declarations a /\
  exists r, references b = references a ++ r /\
            forall name, In name hidden -> inMap name r = false.

(** A visit in a chain of scopes: when it returns, the scopes above the
    current one and the reporter are as they were, and the current scope
    has grown. *)
Definition visits (m : V unit) : Prop :=
  forall scope parents reporter,
    match m (mkChecker (scope :: parents) reporter) with
    | (Ok _, c') =>
        exists scope',
          c' = mkChecker (scope' :: parents) reporter /\
          grows scope scope' /\
          (uniqueKeys (references scope) -> uniqueKeys (references scope'))
    | (Throw _, c') => reporter_ c' = reporter
    end.

(** A visit that pushes a scope and pops it: when it returns, no
    declaration was added to the current scope, and no reference for a name
    of [hidden]. *)
Definition visitsScoped (hidden : list string) (m : V unit) : Prop :=
  forall scope parents reporter,
    match m (mkChecker (scope :: parents) reporter) with
    | (Ok _, c') =>
        exists scope',
          c' = mkChecker (scope' :: parents) reporter /\
          growsReferences hidden scope scope' /\
          (uniqueKeys (references scope) -> uniqueKeys (references scope'))
    | (Throw _, c') => reporter_ c' = reporter
    end.

(** The rest of a visit that pushed the scope [handle], which declares the
    names of [known] by now: when it returns the scope is popped, and the
    scope below has more references, none for a name of [hidden]. *)
Definition leaves (handle : nat) (known hidden : list string) (m : V unit)
  : Prop :=
  forall inner scope parents reporter,
    handle = List.length (inner :: scope :: parents) ->
    (forall name, In name known -> inMap name (declarations inner) = true) ->
    match m (mkChecker (inner :: scope :: parents) reporter) with
    | (Ok _, c') =>
        exists scope',
          c' = mkChecker (scope' :: parents) reporter /\
          growsReferences hidden scope scope' /\
          (uniqueKeys (references scope) -> uniqueKeys (references scope'))
    | (Throw _, c') => reporter_ c' = reporter
    end.

(** The name a function declares in its own scope, if it has one. *)
Definition ownName (name : option BindingIdentifier) : list string :=
  match name with
  | Some b =>
      if String.eqb (identifierToken b) "" then [] else [identifierToken b]
  | None => []
  end.

(** The name a statement declares in the enclosing scope: the name of a
    function declaration. *)
Definition hoistedName (s : ParseTree) : option BindingIdentifier :=
  match s with
  | FunctionDeclaration _ name _ _ _ => name
  | _ => None
  end.

(** A name is declared in the current scope. *)
Definition declared (name : string) (c : Checker) : bool :=
  match scope_ c with
  | [] => false
  | scope :: _ => inMap name (declarations scope)
  end.

(** The state the statement of index [i] of a statement list is recursed
    into from: the statements before it were visited, and its own name was
    declared if it is a function declaration. *)
Definition recursedFrom (i : nat) (statements : list ParseTree) (c : Checker)
  : Checker :=
  let before := snd (visitStatements_ visitAny (firstn i statements) c) in
  match nth_error statements i with
  | Some s => snd (declareVariableOpt_ (hoistedName s) before)
  | None => before
  end.

(** What [visitProgram] does before it pops the top level scope. *)
Definition visitProgramBody (tree : Program) (global : list (list string))
  : V unit :=
  pushScope_ ;;
  forEach (fun object =>
             forEach (fun name => declareVariable_ (OfString name)) object)
    global ;;
  visitStatements_ visitAny (programElements tree).

(** A name is declared in the top level scope of a program, once its
    statements were visited; [reporter] is what the reporter has received
    before. *)
Definition declaredAtTopLevel (reporter : list Diagnostic) (tree : Program)
    (global : list (list string)) (name : string) : bool :=
  declared name (snd (visitProgramBody tree global (mkChecker [] reporter))).

(** ** Examples *)

(** The statement [x;], the reference being at the offsets [a] to [b]. *)
Definition reference (a b : Z) (x : string) : ParseTree :=
  ExpressionStatement None (IdentifierExpression (at_ a b) x).

(** [function name() { body }] *)
Definition function (name : string) (body : list ParseTree) : ParseTree :=
  FunctionDeclaration None (Some (mkBindingIdentifier None name)) false
    (FormalParameterList None []) (Block None body).

(** The global object has the one property [Object]. *)
Definition globalObject : list (list string) := [["Object"]].

(** The top level scope, nothing declared in it yet. *)
Definition topLevel : Checker := mkChecker [mkScope [] []] [].

(** [x; x;] *)
Definition twoReferences : Program :=
  mkProgram None [reference 5 6 "x"; reference 9 10 "x"].

(** [function f() { return g(); } function g() { return 1; }] *)
Definition forwardReference : Program :=
  mkProgram None
    [function "f"
       [ReturnStatement None
          (Some (CallExpression None (IdentifierExpression (at_ 22 23) "g")
                   (ArgumentList None [])))];
     function "g"
       [ReturnStatement None
          (Some (LiteralExpression None (NumberLiteral 1)))]].

(** [g; function g() {}] *)
Definition referenceFirst : list ParseTree :=
  [reference 0 1 "g"; function "g" []].

(** [(function f() {}); f;] *)
Definition namedExpression : Program :=
  mkProgram None
    [ExpressionStatement None (function "f" []); reference 20 21 "f"].

(** A top level scope with the pending references [b], [a] and [c], at the
    offsets 9, 2 and 5, that declares [c]. *)
Definition pendingScope : Scope :=
  mkScope [("b", at_ 9 10); ("a", at_ 2 3); ("c", at_ 5 6)] [("c", None)].

(** A top level scope with a pending reference without a location. *)
Definition generatedScope : Scope :=
  mkScope [("b", at_ 9 10); ("$tmp", None)] [].

End CheckerFacts.

(** * More vocabulary about the class transformer *)

Module ClassElements.
Import ClassTransformer ClassFacts.

(** What an element of the class named by [className] is in the object
    literal of the class, when the elements are transformed from [s].  The
    parameters, then the body, go through [transformAny], and the body then
    through the super rewrite, which is given [className] and the element.
    An accessor or a method keeps its kind, location and name; a
    constructor is the property [constructor] that holds a function
    expression. *)
Definition lowered
    (superTransformer :
       option ParseTree -> ParseTree -> ParseTree -> ParseTree * bool)
    (transformAny : ParseTree -> T ParseTree)
    (className : option ParseTree) (element property : ParseTree)
    (s : Transformer) : Prop :=
  match element with
  | GetAccessor location propertyName body =>
      exists body' s',
        transformAny body s = (Ok body', s') /\
        property =
          GetAccessor location propertyName
            (fst (superTransformer className element body'))
  | SetAccessor location propertyName parameter body =>
      exists parameter' s1 body' s2,
        transformAny parameter s = (Ok parameter', s1) /\
        transformAny body s1 = (Ok body', s2) /\
        let body'' := fst (superTransformer className element body') in
        property =
          if ParseTree_eqb body'' body then element
          else SetAccessor location propertyName parameter' body''
  | PropertyMethodAssignment location name isGenerator formalParameterList
      functionBody =>
      exists parameters s1 body' s2,
        transformAny formalParameterList s = (Ok parameters, s1) /\
        transformAny functionBody s1 = (Ok body', s2) /\
        let body'' := fst (superTransformer className element body') in
        property =
          if String.eqb name CONSTRUCTOR then
            PropertyNameAssignment None CONSTRUCTOR
              (FunctionDeclaration None None false parameters body'')
          else
            PropertyMethodAssignment location name isGenerator parameters
              body''
  | _ => False
  end.

(** The elements of a class and the properties they are, one for one and
    in their order, each element being transformed from the state the
    element before it left. *)
Fixpoint loweredFrom
    (superTransformer :
       option ParseTree -> ParseTree -> ParseTree -> ParseTree * bool)
    (transformAny : ParseTree -> T ParseTree)
    (className : option ParseTree) (elements properties : list ParseTree)
    (s : Transformer) : Prop :=
  match elements, properties with
  | [], [] => True
  | element :: elements', property :: properties' =>
      lowered superTransformer transformAny className element property s /\
      loweredFrom superTransformer transformAny className elements'
        properties'
        (snd (transformElement superTransformer transformAny element s))
  | _, _ => False
  end.

(** Every class of a tree, at whatever depth, has no element other than
    accessors and methods. *)
Fixpoint classesOk (t : ParseTree) : bool :=
  let all := forallb classesOk in
  let opt o := match o with Some x => classesOk x | None => true end in
  match t with
  | ArgumentList _ args => all args
  | ArrayLiteralExpression _ elements => all elements
  | ArrowFunctionExpression _ a b => classesOk a && classesOk b
  | BinaryOperator _ a _ b => classesOk a && classesOk b
  | BindingElement _ _ initializer => opt initializer
  | BindingIdentifierTree _ => true
  | Block _ statements => all statements
  | CallExpression _ a b => classesOk a && classesOk b
  | Catch _ a b => classesOk a && classesOk b
  | ClassDeclaration _ _ superClass elements =>
      opt superClass && forallb isClassElement elements && all elements
  | ClassExpression _ _ superClass elements =>
      opt superClass && forallb isClassElement elements && all elements
  | ExpressionStatement _ a => classesOk a
  | FormalParameterList _ parameters => all parameters
  | FunctionDeclaration _ _ _ a b => classesOk a && classesOk b
  | GetAccessor _ _ a => classesOk a
  | IdentifierExpression _ _ => true
  | IfStatement _ a b c => classesOk a && classesOk b && opt c
  | LiteralExpression _ _ => true
  | MemberExpression _ a _ => classesOk a
  | ObjectLiteralExpression _ l => all l
  | ParenExpression _ a => classesOk a
  | PropertyMethodAssignment _ _ _ a b => classesOk a && classesOk b
  | PropertyNameAssignment _ _ a => classesOk a
  | RestParameter _ _ => true
  | ReturnStatement _ a => opt a
  | SetAccessor _ _ a b => classesOk a && classesOk b
  | SpreadExpression _ a => classesOk a
  | SuperExpression _ => true
  | ThisExpression _ => true
  | TryStatement _ a b c => classesOk a && opt b && opt c
  | VariableDeclaration _ _ a => opt a
  | VariableDeclarationList _ _ l => all l
  | VariableStatement _ a => classesOk a
  end.

(** The superclass expression and the elements of a class are as
    [transformClassShared_] expects them: the elements are accessors and
    methods, and so are the elements of the classes inside them and inside
    the superclass expression. *)
Definition classOk (superClass : option ParseTree)
    (elements : list ParseTree) : bool :=
  match superClass with Some x => classesOk x | None => true end &&
  forallb isClassElement elements && forallb classesOk elements.

(** The state [s] with the entries [stale] under the entries of its
    stack. *)
Definition below (stale : list nat) (s : Transformer) : Transformer :=
  mkTransformer (heap s) (stack s ++ stale) (tempVars s)
    (identifierGenerator s).

(** A computation that does not look at the stack it finds: run over
    entries [stale], it does what it does without them, and leaves them
    where they are. *)
Definition framed {A} (m : T A) : Prop :=
  forall stale s, m (below stale s) = (fst (m s), below stale (snd (m s))).

(** The same for a computation that is run with a class context on top of
    the stack. *)
Definition framedMember {A} (m : T A) : Prop :=
  forall stale s a rest,
    stack s = a :: rest -> a < List.length (heap s) ->
    m (below stale s) = (fst (m s), below stale (snd (m s))).

(** The state [s] with the stack [entries]. *)
Definition withStack (entries : list nat) (s : Transformer) : Transformer :=
  mkTransformer (heap s) entries (tempVars s) (identifierGenerator s).

(** A computation that does not throw the error of an unexpected class
    element. *)
Definition quiet {A} (m : T A) : Prop :=
  forall s f, thrown (fst (m s)) = Some f -> ~ unexpected f.

(** A computation that throws, whatever the state. *)
Definition fails {A} (m : T A) : Prop :=
  forall s, exists f, thrown (fst (m s)) = Some f.

(** ** Examples *)

(** [get x() {}] and [constructor() {}] *)
Definition accessorElements : list ParseTree :=
  [GetAccessor None "x" (Block None []); emptyConstructor].

(** [class { constructor() {} }] *)
Definition plainClass : ParseTree :=
  ClassExpression None None None [emptyConstructor].

(** A class expression with a statement among its elements. *)
Definition brokenClass : ParseTree :=
  ClassExpression None None None [ReturnStatement None None].

(** [class { constructor() { super(); } }] *)
Definition superClassExpression : ParseTree :=
  ClassExpression None None None [superConstructor].

(** The state [transformClassShared_] leaves when it throws on the class
    [class C { constructor() {} this }], whose second member is an
    expression: its stack holds the class context of the class. *)
Definition afterFailure : Transformer :=
  snd (transformClassShared_ SuperTransformer.transformAny (run 7)
         (ThisExpression None) None [emptyConstructor; ThisExpression None]
         "C" fresh).

(** [set x(v) { super.x; }] *)
Definition superSetter : ParseTree :=
  SetAccessor None "x" (BindingElement None (mkBindingIdentifier None "v") None)
    (Block None
       [ExpressionStatement None
          (MemberExpression None (SuperExpression None) "x")]).

End ClassElements.

(** * More vocabulary about the free variable checker *)

Module ScopeFacts.
Import FreeVariableChecker CheckerFacts.

(** The message of the error of [visitVariableDeclarationList]. *)
Definition notRewritten : string :=
  "let and const should have been rewritten".

(** A visit in a chain of scopes that throws no error but the one of
    [visitVariableDeclarationList]. *)
Definition rejectsOnly (m : V unit) : Prop :=
  forall scope parents reporter e c',
    m (mkChecker (scope :: parents) reporter) = (Throw e, c') ->
    e = notRewritten.

(** The same for the rest of a visit that pushed the scope [handle]. *)
Definition rejectsOnlyInside (handle : nat) (m : V unit) : Prop :=
  forall inner scope parents reporter e c',
    handle = List.length (inner :: scope :: parents) ->
    m (mkChecker (inner :: scope :: parents) reporter) = (Throw e, c') ->
    e = notRewritten.

(** The identifier expressions of a tree, each by its name and its
    location, in the order of the fields. *)
Fixpoint identifiers (t : ParseTree) : list (string * Location) :=
  let all := flat_map identifiers in
  let opt o := match o with Some x => identifiers x | None => [] end in
  match t with
  | ArgumentList _ args => all args
  | ArrayLiteralExpression _ elements => all elements
  | ArrowFunctionExpression _ a b => identifiers a ++ identifiers b
  | BinaryOperator _ a _ b => identifiers a ++ identifiers b
  | BindingElement _ _ initializer => opt initializer
  | BindingIdentifierTree _ => []
  | Block _ statements => all statements
  | CallExpression _ a b => identifiers a ++ identifiers b
  | Catch _ a b => identifiers a ++ identifiers b
  | ClassDeclaration _ _ superClass elements => opt superClass ++ all elements
  | ClassExpression _ _ superClass elements => opt superClass ++ all elements
  | ExpressionStatement _ a => identifiers a
  | FormalParameterList _ parameters => all parameters
  | FunctionDeclaration _ _ _ a b => identifiers a ++ identifiers b
  | GetAccessor _ _ a => identifiers a
  | IdentifierExpression location name => [(name, location)]
  | IfStatement _ a b c => identifiers a ++ identifiers b ++ opt c
  | LiteralExpression _ _ => []
  | MemberExpression _ a _ => identifiers a
  | ObjectLiteralExpression _ l => all l
  | ParenExpression _ a => identifiers a
  | PropertyMethodAssignment _ _ _ a b => identifiers a ++ identifiers b
  | PropertyNameAssignment _ _ a => identifiers a
  | RestParameter _ _ => []
  | ReturnStatement _ a => opt a
  | SetAccessor _ _ a b => identifiers a ++ identifiers b
  | SpreadExpression _ a => identifiers a
  | SuperExpression _ => []
  | ThisExpression _ => []
  | TryStatement _ a b c => identifiers a ++ opt b ++ opt c
  | VariableDeclaration _ _ a => opt a
  | VariableDeclarationList _ _ l => all l
  | VariableStatement _ a => identifiers a
  end.

(** A visit in a chain of scopes that records, in the current scope,
    references of [P] only. *)
Definition cites (P : string * Location -> Prop) (m : V unit) : Prop :=
  forall scope parents reporter c',
    m (mkChecker (scope :: parents) reporter) = (Ok tt, c') ->
    exists scope' r,
      c' = mkChecker (scope' :: parents) reporter /\
      references scope' = references scope ++ r /\
      Forall P r.

(** The same for the rest of a visit that pushed the scope [handle], which
    holds references of [P] only by now. *)
Definition citesInside (handle : nat) (P : string * Location -> Prop)
    (m : V unit) : Prop :=
  forall inner scope parents reporter c',
    handle = List.length (inner :: scope :: parents) ->
    Forall P (references inner) ->
    m (mkChecker (inner :: scope :: parents) reporter) = (Ok tt, c') ->
    exists scope' r,
      c' = mkChecker (scope' :: parents) reporter /\
      references scope' = references scope ++ r /\
      Forall P r.

(** Every declaration list of a tree that the visit reaches is of [var].
    The visit does not reach the parameter of a set accessor, and of an
    element of a declaration list it reaches the initializer only. *)
Fixpoint varOnly (t : ParseTree) : bool :=
  let all := forallb varOnly in
  let opt o := match o with Some x => varOnly x | None => true end in
  match t with
  | ArgumentList _ args => all args
  | ArrayLiteralExpression _ elements => all elements
  | ArrowFunctionExpression _ a b => varOnly a && varOnly b
  | BinaryOperator _ a _ b => varOnly a && varOnly b
  | BindingElement _ _ initializer => opt initializer
  | BindingIdentifierTree _ => true
  | Block _ statements => all statements
  | CallExpression _ a b => varOnly a && varOnly b
  | Catch _ a b => varOnly a && varOnly b
  | ClassDeclaration _ _ superClass elements => opt superClass && all elements
  | ClassExpression _ _ superClass elements => opt superClass && all elements
  | ExpressionStatement _ a => varOnly a
  | FormalParameterList _ parameters => all parameters
  | FunctionDeclaration _ _ _ a b => varOnly a && varOnly b
  | GetAccessor _ _ a => varOnly a
  | IdentifierExpression _ _ => true
  | IfStatement _ a b c => varOnly a && (varOnly b && opt c)
  | LiteralExpression _ _ => true
  | MemberExpression _ a _ => varOnly a
  | ObjectLiteralExpression _ l => all l
  | ParenExpression _ a => varOnly a
  | PropertyMethodAssignment _ _ _ a b => varOnly a && varOnly b
  | PropertyNameAssignment _ _ a => varOnly a
  | RestParameter _ _ => true
  | ReturnStatement _ a => opt a
  | SetAccessor _ _ _ body => varOnly body
  | SpreadExpression _ a => varOnly a
  | SuperExpression _ => true
  | ThisExpression _ => true
  | TryStatement _ a b c => varOnly a && (opt b && opt c)
  | VariableDeclaration _ _ a => opt a
  | VariableDeclarationList _ declarationType l =>
      match declarationType with
      | VAR =>
          forallb (fun d => match d with
                            | VariableDeclaration _ _ initializer
                            | BindingElement _ _ initializer => opt initializer
                            | _ => true
                            end) l
      | _ => false
      end
  | VariableStatement _ a => varOnly a
  end.

(** A visit in a chain of scopes that returns. *)
Definition returns (m : V unit) : Prop :=
  forall scope parents reporter,
    exists c', m (mkChecker (scope :: parents) reporter) = (Ok tt, c').

(** The same for the rest of a visit that pushed the scope [handle]. *)
Definition returnsInside (handle : nat) (m : V unit) : Prop :=
  forall inner scope parents reporter,
    handle = List.length (inner :: scope :: parents) ->
    exists c',
      m (mkChecker (inner :: scope :: parents) reporter) = (Ok tt, c').

(** A visit in a chain of scopes that throws. *)
Definition throwsSome (m : V unit) : Prop :=
  forall scope parents reporter,
    exists e c', m (mkChecker (scope :: parents) reporter) = (Throw e, c').

(** ** Examples *)

(** The declaration [var x;] *)
Definition varStatement (x : string) : ParseTree :=
  VariableStatement None
    (VariableDeclarationList None VAR
       [VariableDeclaration None (mkBindingIdentifier None x) None]).

(** [let x;], which the checker expects to be rewritten before it runs. *)
Definition letProgram : Program :=
  mkProgram None
    [VariableStatement None
       (VariableDeclarationList None LET
          [VariableDeclaration None (mkBindingIdentifier None "x") None])].

(** [Object; y;] *)
Definition globalReference : Program :=
  mkProgram None [reference 0 6 "Object"; reference 8 9 "y"].

(** [x; var x;] *)
Definition varAfterUse : Program :=
  mkProgram None [reference 0 1 "x"; varStatement "x"].

(** [function f() { arguments; f; }] *)
Definition usesArguments : ParseTree :=
  function "f" [reference 15 24 "arguments"; reference 26 27 "f"].

(** [var x; { let y; }] *)
Definition letInBlock : Program :=
  mkProgram None
    [varStatement "x";
     Block None
       [VariableStatement None
          (VariableDeclarationList None LET
             [VariableDeclaration None (mkBindingIdentifier None "y") None])]].

(** A [var] list that holds, as a tree built by hand can, the binding
    element [a = function f() { let y; }] where a variable declaration is
    expected. *)
Definition letInElement : Program :=
  mkProgram None
    [VariableStatement None
       (VariableDeclarationList None VAR
          [BindingElement None (mkBindingIdentifier None "a")
             (Some
                (function "f"
                   [VariableStatement None
                      (VariableDeclarationList None LET
                         [VariableDeclaration None
                            (mkBindingIdentifier None "y") None])]))])].

(** [catch (e) { e; }] *)
Definition catchClause : ParseTree :=
  Catch None (BindingIdentifierTree (mkBindingIdentifier None "e"))
    (Block None [reference 12 13 "e"]).

End ScopeFacts.

(** * The names the checker reports, read off the program *)

Module FreeNames.
Import FreeVariableChecker CheckerFacts.

(** A name is none of the names of a list. *)
Definition outside (names : list string) (name : string) : bool :=
  negb (existsb (String.eqb name) names).

(** The names the visit of a tree declares in the scope the tree is visited
    in: the names of the bindings met outside of the functions, accessors
    and catch clauses of the tree, and the names of the function
    declarations among the statements of a statement list.  Of an element
    of a declaration list, the visit declares the variable, if the element
    is a variable declaration, and visits the initializer.  The empty name
    is never declared. *)
Fixpoint binds (t : ParseTree) : list string :=
  let all := flat_map binds in
  let opt o := match o with Some x => binds x | None => [] end in
  match t with
  | ArgumentList _ args => all args
  | ArrayLiteralExpression _ elements => all elements
  | ArrowFunctionExpression _ _ _ => []
  | BinaryOperator _ a _ b => binds a ++ binds b
  | BindingElement _ binding initializer =>
      ownName (Some binding) ++ opt initializer
  | BindingIdentifierTree b => ownName (Some b)
  | Block _ statements =>
      flat_map (fun s => ownName (hoistedName s) ++ binds s) statements
  | CallExpression _ a b => binds a ++ binds b
  | Catch _ _ _ => []
  | ClassDeclaration _ _ superClass elements => opt superClass ++ all elements
  | ClassExpression _ _ superClass elements => opt superClass ++ all elements
  | ExpressionStatement _ a => binds a
  | FormalParameterList _ parameters => all parameters
  | FunctionDeclaration _ _ _ _ _ => []
  | GetAccessor _ _ _ => []
  | IdentifierExpression _ _ => []
  | IfStatement _ a b c => binds a ++ binds b ++ opt c
  | LiteralExpression _ _ => []
  | MemberExpression _ a _ => binds a
  | ObjectLiteralExpression _ l => all l
  | ParenExpression _ a => binds a
  | PropertyMethodAssignment _ _ _ a b => binds a ++ binds b
  | PropertyNameAssignment _ _ a => binds a
  | RestParameter _ b => ownName (Some b)
  | ReturnStatement _ a => opt a
  | SetAccessor _ _ _ _ => []
  | SpreadExpression _ a => binds a
  | SuperExpression _ => []
  | ThisExpression _ => []
  | TryStatement _ a b c => binds a ++ opt b ++ opt c
  | VariableDeclaration _ lvalue initializer =>
      ownName (Some lvalue) ++ opt initializer
  | VariableDeclarationList _ _ l =>
      flat_map (fun d => ownName (lvalueOf d) ++
                         match d with
                         | VariableDeclaration _ _ initializer
                         | BindingElement _ _ initializer => opt initializer
                         | _ => []
                         end) l
  | VariableStatement _ a => binds a
  end.


(** The name the parameter of a set accessor declares. *)
Definition parameterName (parameter : ParseTree) : list string :=
  match parameter with
  | BindingElement _ binding _ => ownName (Some binding)
  | _ => []
  end.

(** The references a tree leaves pending in the scope it is visited in,
    each by its name and its location, in the order the visit meets them:
    its identifier expressions, but for those inside a function, an accessor
    or a catch clause that the scope of that function, accessor or catch
    clause declares. *)
Fixpoint pending (t : ParseTree) : list (string * Location) :=
  let all := flat_map pending in
  let opt o := match o with Some x => pending x | None => [] end in
  let undeclared names := filter (fun e => outside names (fst e)) in
  match t with
  | ArgumentList _ args => all args
  | ArrayLiteralExpression _ elements => all elements
  | ArrowFunctionExpression _ p body =>
      undeclared (ARGUMENTS :: binds p ++ binds body)
        (pending p ++ pending body)
  | BinaryOperator _ a _ b => pending a ++ pending b
  | BindingElement _ _ initializer => opt initializer
  | BindingIdentifierTree _ => []
  | Block _ statements => all statements
  | CallExpression _ a b => pending a ++ pending b
  | Catch _ b body =>
      undeclared (binds b ++ binds body) (pending b ++ pending body)
  | ClassDeclaration _ _ superClass elements => opt superClass ++ all elements
  | ClassExpression _ _ superClass elements => opt superClass ++ all elements
  | ExpressionStatement _ a => pending a
  | FormalParameterList _ parameters => all parameters
  | FunctionDeclaration _ name _ p body =>
      undeclared (ownName name ++ ARGUMENTS :: binds p ++ binds body)
        (pending p ++ pending body)
  | GetAccessor _ _ body => undeclared (binds body) (pending body)
  | IdentifierExpression location name => [(name, location)]
  | IfStatement _ a b c => pending a ++ pending b ++ opt c
  | LiteralExpression _ _ => []
  | MemberExpression _ a _ => pending a
  | ObjectLiteralExpression _ l => all l
  | ParenExpression _ a => pending a
  | PropertyMethodAssignment _ _ _ a b => pending a ++ pending b
  | PropertyNameAssignment _ _ a => pending a
  | RestParameter _ _ => []
  | ReturnStatement _ a => opt a
  | SetAccessor _ _ parameter body =>
      undeclared (parameterName parameter ++ binds body) (pending body)
  | SpreadExpression _ a => pending a
  | SuperExpression _ => []
  | ThisExpression _ => []
  | TryStatement _ a b c => pending a ++ opt b ++ opt c
  | VariableDeclaration _ _ initializer => opt initializer
  | VariableDeclarationList _ _ l =>
      flat_map (fun d => match d with
                         | VariableDeclaration _ _ initializer
                         | BindingElement _ _ initializer => opt initializer
                         | _ => []
                         end) l
  | VariableStatement _ a => pending a
  end.

(** The reference mapping [references] once the references of a list were
    recorded in it one after the other, as [visitIdentifierExpression]
    does: a name that has a pending reference keeps it. *)
Fixpoint record (references occurrences : NameMap Location)
  : NameMap Location :=
  match occurrences with
  | [] => references
  | (name, location) :: rest =>
      record
        (if inMap name references then references
         else addKey name location references)
        rest
  end.

(** The references the statements of a program leave pending in the top
    level scope. *)
Definition occurrences (tree : Program) : list (string * Location) :=
  flat_map pending (programElements tree).




(** ** Examples *)




End FreeNames.
(** * Facts about the class transformer *)

Section ClassTransformerFacts.
Import ClassTransformer ClassFacts ParseTreeFactory.

Lemma bind_eq {St E A B} (m : M St E A) (k : A -> M St E B) s :
  bind m k s =
  match m s with
  | (Ok a, s') => k a s'
  | (Throw e, s') => (Throw e, s')
  end.
Proof. reflexivity. Qed.

Lemma bind_ok {St E A B} (m : M St E A) (k : A -> M St E B) s b s' :
  bind m k s = (Ok b, s') ->
  exists a s1, m s = (Ok a, s1) /\ k a s1 = (Ok b, s').
Proof.
  rewrite bind_eq. destruct (m s) as [[a|e] s1]; intros H.
  - exists a, s1. auto.
  - discriminate.
Qed.

Lemma bind_throw {St E A B} (m : M St E A) (k : A -> M St E B) s e s' :
  bind m k s = (Throw e, s') ->
  m s = (Throw e, s') \/
  exists a s1, m s = (Ok a, s1) /\ k a s1 = (Throw e, s').
Proof.
  rewrite bind_eq. destruct (m s) as [[a|e0] s1]; intros H.
  - right. exists a, s1. auto.
  - left. inversion H. reflexivity.
Qed.

Lemma keepsContexts_same P s s' : heap s' = heap s -> keepsContexts P s s'.
Proof. intros E i o H. exists o. rewrite E. auto. Qed.

Lemma keepsContexts_refl P s : keepsContexts P s s.
Proof. apply keepsContexts_same. reflexivity. Qed.

Lemma keepsContexts_trans P s1 s2 s3 :
  keepsContexts P s1 s2 -> keepsContexts P s2 s3 -> keepsContexts P s1 s3.
Proof.
  intros H12 H23 i o Hi.
  destruct (H12 i o Hi) as (o2 & Hi2 & Ht2 & Hn2 & Hs2 & Hp2).
  destruct (H23 i o2 Hi2) as (o3 & Hi3 & Ht3 & Hn3 & Hs3 & Hp3).
  exists o3. repeat split; try congruence; auto.
  intros HP. rewrite (Hp3 HP). auto.
Qed.

Lemma keepsContexts_weaken (P Q : nat -> Prop) s s' :
  (forall i, P i -> Q i) -> keepsContexts P s s' -> keepsContexts Q s s'.
Proof.
  intros HPQ H i o Hi. destruct (H i o Hi) as (o' & ? & ? & ? & ? & Hp).
  exists o'. repeat split; auto.
Qed.

Lemma keepsContexts_length P s s' :
  keepsContexts P s s' -> List.length (heap s) <= List.length (heap s').
Proof.
  intros H. destruct (le_lt_dec (List.length (heap s)) (List.length (heap s')))
    as [|Hlt]; auto.
  destruct (nth_error (heap s) (List.length (heap s'))) as [o|] eqn:E.
  - destruct (H _ _ E) as (o' & E' & _).
    apply nth_error_Some in Hlt. 
    assert (nth_error (heap s') (List.length (heap s')) <> None) by congruence.
    apply nth_error_Some in H0. lia.
  - apply nth_error_None in E. lia.
Qed.

Lemma keepsTemps_same s s' :
  tempVars s' = tempVars s -> identifierGenerator s' = identifierGenerator s ->
  keepsTemps s s'.
Proof. intros E1 E2. split; [lia|]. rewrite E1. auto. Qed.

Lemma keepsTemps_refl s : keepsTemps s s.
Proof. apply keepsTemps_same; reflexivity. Qed.

Lemma keepsTemps_trans s1 s2 s3 :
  keepsTemps s1 s2 -> keepsTemps s2 s3 -> keepsTemps s1 s3.
Proof.
  intros [L12 K12] [L23 K23]. split; [lia|].
  intros v Hv Hfresh. apply K23.
  - apply K12; auto.
  - intros k Hk. apply Hfresh. lia.
Qed.

Lemma related_refl P s : related P s s.
Proof. split; [apply keepsContexts_refl | apply keepsTemps_refl]. Qed.

Lemma related_trans P s1 s2 s3 :
  related P s1 s2 -> related P s2 s3 -> related P s1 s3.
Proof.
  intros [C12 T12] [C23 T23]. split.
  - eapply keepsContexts_trans; eauto.
  - eapply keepsTemps_trans; eauto.
Qed.

Lemma related_weaken (P Q : nat -> Prop) s s' :
  (forall i, P i -> Q i) -> related P s s' -> related Q s s'.
Proof.
  intros HPQ [C K]. split; auto. eapply keepsContexts_weaken; eauto.
Qed.

(** ** Composition of outcomes *)

Lemma outcome_ret {A} P strict s (a : A) : outcome P strict s (ret a s).
Proof. split; [apply related_refl | reflexivity]. Qed.

Lemma outcome_bind {A B} P strict (m : T A) (k : A -> T B) s :
  outcome P strict s (m s) ->
  (forall a s1, m s = (Ok a, s1) -> related P s s1 -> stack s1 = stack s ->
                outcome P strict s1 (k a s1)) ->
  outcome P strict s (bind m k s).
Proof.
  intros Hm Hk. rewrite bind_eq.
  destruct (m s) as [[a|e] s1] eqn:E.
  - destruct Hm as [Rm Sm]. simpl in Rm, Sm.
    specialize (Hk a s1 eq_refl Rm Sm).
    destruct Hk as [Rk Sk]. split.
    + eapply related_trans; eauto.
    + destruct (fst (k a s1)) as [b|[msg|]]; auto.
      * congruence.
      * destruct Sk as (U & extra & Hne & Hst).
        split; auto. exists extra. split; auto. congruence.
  - exact Hm.
Qed.

Lemma outcome_weaken {A} (P : nat -> Prop) s (rs : Result Failure A *
    Transformer) :
  outcome (fun _ => False) true s rs -> outcome P false s rs.
Proof.
  intros [R S]. split.
  - eapply related_weaken; [|eassumption]. intros i [].
  - destruct (fst rs) as [b|[msg|]]; auto.
    destruct S as (U & extra & Hne & Hst). split; auto.
    exists extra. split; auto; discriminate.
Qed.

Lemma soundAny_ret {A} (a : A) : soundAny (ret a).
Proof. intros s. apply outcome_ret. Qed.

Lemma soundAny_bind {A B} (m : T A) (k : A -> T B) :
  soundAny m -> (forall a, soundAny (k a)) -> soundAny (bind m k).
Proof.
  intros Hm Hk s. apply outcome_bind; auto.
  intros a s1 _ _ _. apply Hk.
Qed.

Lemma soundAny_mapM {A B} (f : A -> T B) (l : list A) :
  (forall x, soundAny (f x)) -> soundAny (mapM f l).
Proof.
  intros Hf. induction l as [|x l IH]; simpl.
  - apply soundAny_ret.
  - apply soundAny_bind; auto. intros y.
    apply soundAny_bind; auto. intros ys. apply soundAny_ret.
Qed.

Lemma member_pre s s1 a rest (P : nat -> Prop) :
  stack s = a :: rest -> a < List.length (heap s) ->
  related P s s1 -> stack s1 = stack s ->
  stack s1 = a :: rest /\ a < List.length (heap s1).
Proof.
  intros Hs Ha [C _] Hst. split; [congruence|].
  apply keepsContexts_length in C. lia.
Qed.

Lemma soundMember_ret {A} (a : A) : soundMember (ret a).
Proof. intros s a0 rest _ _. apply outcome_ret. Qed.

Lemma soundMember_bind {A B} (m : T A) (k : A -> T B) :
  soundMember m -> (forall a, soundMember (k a)) -> soundMember (bind m k).
Proof.
  intros Hm Hk s a rest Hs Ha. apply outcome_bind; auto.
  - eapply Hm; eauto.
  - intros x s1 _ R1 S1.
    destruct (member_pre Hs Ha R1 S1) as [Hs1 Ha1].
    eapply Hk; eauto.
Qed.

Lemma soundMember_any {A} (m : T A) : soundAny m -> soundMember m.
Proof. intros H s a rest _ _. apply outcome_weaken. apply H. Qed.

Lemma soundMember_mapM {A B} (f : A -> T B) (l : list A) :
  (forall x, soundMember (f x)) -> soundMember (mapM f l).
Proof.
  intros Hf. induction l as [|x l IH]; simpl.
  - apply soundMember_ret.
  - apply soundMember_bind; auto. intros y.
    apply soundMember_bind; auto. intros ys. apply soundMember_ret.
Qed.

End ClassTransformerFacts.

Section ClassTransformerSound.
Import ClassTransformer ClassFacts ParseTreeFactory.
Variable superTransformer :
  option ParseTree -> ParseTree -> ParseTree -> ParseTree * bool.
Variable blockBinding : bool.

Lemma nth_error_update (h : list State) a o i :
  nth_error (update h a o) i =
  if Nat.eqb i a then
    match nth_error h i with Some _ => Some o | None => None end
  else nth_error h i.
Proof.
  revert a i. induction h as [|x h IH]; intros a i.
  - simpl. destruct i, a; simpl; auto. destruct (Nat.eqb i a); auto.
  - destruct a, i; simpl; auto.
Qed.

Lemma update_last (h : list State) o o' :
  update (h ++ [o]) (List.length h) o' = h ++ [o'].
Proof. induction h as [|x h IH]; simpl; congruence. Qed.

Lemma nth_error_last (h : list State) o :
  nth_error (h ++ [o]) (List.length h) = Some o.
Proof. induction h as [|x h IH]; simpl; auto. Qed.

Lemma soundAny_addTempVar : soundAny addTempVar.
Proof.
  intros s. split; simpl.
  - split.
    + apply keepsContexts_same. reflexivity.
    + split; simpl; [lia|]. intros v Hv _. apply in_or_app. auto.
  - reflexivity.
Qed.

Lemma soundMember_setHasSuper a :
  forall s rest, stack s = a :: rest -> a < List.length (heap s) ->
            outcome (eq a) false s (setHasSuper a s).
Proof.
  intros s rest Hs Ha. unfold setHasSuper, deref, assign. rewrite bind_eq.
  destruct (nth_error (heap s) a) as [o|] eqn:E.
  2:{ apply nth_error_None in E. lia. }
  simpl. split; [|reflexivity]. split; [|apply keepsTemps_same; reflexivity].
  intros i o0 Hi. simpl. rewrite nth_error_update.
  destruct (Nat.eqb_spec i a) as [->|Hne].
  - rewrite Hi. rewrite E in Hi. inversion Hi; subst o0.
    eexists. split; [reflexivity|]. simpl. repeat split; auto.
    intros Hp. exfalso. apply Hp. reflexivity.
  - exists o0. repeat split; auto.
Qed.

Section Open.
Variable tAny : ParseTree -> T ParseTree.
Hypothesis tAny_sound : forall t, soundAny (tAny t).

Lemma soundAny_transformAnyOpt o : soundAny (transformAnyOpt tAny o).
Proof.
  destruct o as [t|]; simpl.
  - apply soundAny_bind; auto. intros. apply soundAny_ret.
  - apply soundAny_ret.
Qed.

Lemma soundMember_transformSuperInBlock_ methodTree t :
  soundMember (transformSuperInBlock_ superTransformer tAny methodTree t).
Proof.
  intros s a rest Hs Ha. unfold transformSuperInBlock_.
  rewrite bind_eq. unfold peekState. rewrite Hs. simpl.
  rewrite bind_eq. unfold deref.
  destruct (nth_error (heap s) a) as [o|] eqn:E.
  2:{ apply nth_error_None in E. lia. }
  apply outcome_bind.
  - apply outcome_weaken. apply tAny_sound.
  - intros t' s1 _ R1 S1.
    destruct (member_pre Hs Ha R1 S1) as [Hs1 Ha1].
    destruct (superTransformer (name o) methodTree t') as [tt' found].
    apply outcome_bind.
    + destruct found.
      * eapply soundMember_setHasSuper; eauto.
      * apply outcome_ret.
    + intros; apply outcome_ret.
Qed.

Create HintDb sound.
#[local] Hint Resolve soundMember_transformSuperInBlock_ soundMember_any
  soundMember_ret soundAny_ret : sound.

Lemma soundMember_transformConstructor_ l n g p b :
  soundMember (transformConstructor_ superTransformer tAny l n g p b).
Proof.
  unfold transformConstructor_.
  apply soundMember_bind; auto with sound. intros.
  apply soundMember_bind; auto with sound.
Qed.

Lemma soundMember_transformPropertyMethodAssignment_ l n g p b :
  soundMember
    (transformPropertyMethodAssignment_ superTransformer tAny l n g p b).
Proof.
  unfold transformPropertyMethodAssignment_.
  apply soundMember_bind; auto with sound. intros.
  apply soundMember_bind; auto with sound. intros.
  destruct (_ && _); auto with sound.
Qed.

Lemma soundMember_transformGetAccessor_ l n b :
  soundMember (transformGetAccessor_ superTransformer tAny l n b).
Proof.
  unfold transformGetAccessor_.
  apply soundMember_bind; auto with sound. intros.
  destruct (ParseTree_eqb _ _); auto with sound.
Qed.

Lemma soundMember_transformSetAccessor_ l n p b :
  soundMember (transformSetAccessor_ superTransformer tAny l n p b).
Proof.
  unfold transformSetAccessor_.
  apply soundMember_bind; auto with sound. intros.
  apply soundMember_bind; auto with sound. intros.
  destruct (ParseTree_eqb _ _); auto with sound.
Qed.

Lemma soundMember_throw_unexpected {A} t :
  soundMember
    (throw (JsError ("Unexpected class element: " ++ type t)) : T A).
Proof.
  intros s a rest _ _. split; [apply related_refl|]. simpl.
  split; [exists t; reflexivity|]. exists []. split; [discriminate|reflexivity].
Qed.

Lemma soundMember_transformElement t :
  soundMember (transformElement superTransformer tAny t).
Proof.
  destruct t; cbv beta iota delta [transformElement];
    try apply soundMember_throw_unexpected.
  - apply soundMember_bind; [apply soundMember_transformGetAccessor_|].
    intros; apply soundMember_ret.
  - destruct (String.eqb _ CONSTRUCTOR).
    + apply soundMember_bind; [apply soundMember_transformConstructor_|].
      intros; apply soundMember_ret.
    + apply soundMember_bind;
        [apply soundMember_transformPropertyMethodAssignment_|].
      intros; apply soundMember_ret.
  - apply soundMember_bind; [apply soundMember_transformSetAccessor_|].
    intros; apply soundMember_ret.
Qed.

Lemma transformClassShared_eq tree superClass elements name s :
  transformClassShared_ superTransformer tAny tree superClass elements name s =
  match transformAnyOpt tAny superClass s with
  | (Throw e, s1) => (Throw e, s1)
  | (Ok superClass', s1) =>
      match members superTransformer tAny tree elements (entered tree name s1)
          with
      | (Throw e, s2) => (Throw e, s2)
      | (Ok (elements', hasConstructor), s2) =>
          match nth_error (heap s2) (List.length (heap s1)) with
          | None =>
              (Throw typeError,
               mkTransformer (heap s2) (tl (stack s2)) (tempVars s2)
                 (identifierGenerator s2))
          | Some o =>
              (Ok (createClassCall elements'
                     match superClass' with
                     | Some c => c
                     | None => createNullLiteral
                     end
                     hasConstructor
                     match superClass' with
                     | Some _ => true
                     | None => false
                     end,
                   hasSuper o),
               mkTransformer (heap s2) (tl (stack s2)) (tempVars s2)
                 (identifierGenerator s2))
          end
      end
  end.
Proof.
  unfold transformClassShared_. rewrite bind_eq.
  destruct (transformAnyOpt tAny superClass s) as [[sc'|e] s1]; [|reflexivity].
  rewrite bind_eq. unfold newState at 1. cbv beta iota.
  rewrite bind_eq. unfold push at 1. cbv beta iota.
  rewrite bind_eq. unfold setName, deref, assign. rewrite bind_eq.
  cbn [heap stack tempVars identifierGenerator].
  rewrite nth_error_last.
  cbn [heap stack tempVars identifierGenerator ClassTransformer.tree
       ClassTransformer.hasSuper].
  rewrite update_last. fold (entered tree name s1).
  unfold members. rewrite !bind_eq.
  destruct (mapM _ elements (entered tree name s1)) as [[results|e] s2];
    [|reflexivity].
  destruct (lastConstructor results) as [c|].
  - cbv [ret pop deref bind]. cbn [heap].
    destruct (nth_error (heap s2) (List.length (heap s1))); reflexivity.
  - rewrite !bind_eq.
    destruct (getDefaultConstructor_ _ _ tree s2) as [[c|e] s3]; [|reflexivity].
    cbv [ret pop deref bind]. cbn [heap].
    destruct (nth_error (heap s3) (List.length (heap s1))); reflexivity.
Qed.

Lemma transformClassShared_ok tree superClass elements name s call flag s' :
  transformClassShared_ superTransformer tAny tree superClass elements name s
  = (Ok (call, flag), s') ->
  exists superClass' s1 elements' hasConstructor s2 o,
    transformAnyOpt tAny superClass s = (Ok superClass', s1) /\
    members superTransformer tAny tree elements (entered tree name s1)
    = (Ok (elements', hasConstructor), s2) /\
    nth_error (heap s2) (List.length (heap s1)) = Some o /\
    call = createClassCall elements'
             match superClass' with
             | Some c => c
             | None => createNullLiteral
             end
             hasConstructor
             match superClass' with
             | Some _ => true
             | None => false
             end /\
    flag = hasSuper o /\
    s' = mkTransformer (heap s2) (tl (stack s2)) (tempVars s2)
           (identifierGenerator s2).
Proof.
  rewrite transformClassShared_eq.
  destruct (transformAnyOpt tAny superClass s) as [[sc'|e] s1] eqn:E1;
    [|discriminate].
  destruct (members _ _ tree elements (entered tree name s1))
    as [[[elements' hasConstructor]|e] s2] eqn:E2; [|discriminate].
  destruct (nth_error (heap s2) (List.length (heap s1))) as [o|] eqn:E;
    [|discriminate].
  intros H. inversion H; subst.
  exists sc', s1, elements', hasConstructor, s2, o.
  split; [reflexivity|]. split; [exact E2|]. split; [exact E|].
  split; [reflexivity|]. split; reflexivity.
Qed.

Lemma soundMember_members tree elements :
  soundMember (members superTransformer tAny tree elements).
Proof.
  unfold members. apply soundMember_bind.
  - apply soundMember_mapM. apply soundMember_transformElement.
  - intros results. destruct (lastConstructor results).
    + apply soundMember_ret.
    + apply soundMember_bind; [apply soundMember_transformConstructor_|].
      intros; apply soundMember_ret.
Qed.

Lemma related_entered tree name s1 s2 :
  related (eq (List.length (heap s1))) (entered tree name s1) s2 ->
  related (fun _ => False) s1 s2.
Proof.
  intros [C K]. split; [|exact K].
  intros i o Hi.
  assert (Hlt : i < List.length (heap s1)).
  { apply nth_error_Some. congruence. }
  destruct (C i o) as (o' & E & Ht & Hn & Hs & Hp).
  { unfold entered. cbn [heap]. rewrite nth_error_app1; auto. }
  exists o'. repeat split; auto. intros _. apply Hp. lia.
Qed.

Lemma outcome_members tree name elements s1 :
  outcome (eq (List.length (heap s1))) false (entered tree name s1)
    (members superTransformer tAny tree elements (entered tree name s1)).
Proof.
  eapply soundMember_members.
  - reflexivity.
  - unfold entered. cbn [heap]. rewrite length_app. simpl. lia.
Qed.

Lemma soundAny_transformClassShared_ tree superClass elements name :
  soundAny
    (transformClassShared_ superTransformer tAny tree superClass elements name).
Proof.
  intros s. rewrite transformClassShared_eq.
  pose proof (soundAny_transformAnyOpt superClass s) as H1.
  destruct (transformAnyOpt tAny superClass s) as [[sc'|e] s1]; [|exact H1].
  destruct H1 as [R1 S1]. simpl in R1, S1.
  pose proof (outcome_members tree name elements s1) as H2.
  destruct (members _ _ tree elements (entered tree name s1))
    as [[[elements' hasConstructor]|e] s2].
  - destruct H2 as [R2 S2]. simpl in R2, S2.
    assert (R12 : related (fun _ => False) s s2).
    { eapply related_trans; [exact R1|]. eapply related_entered; eauto. }
    assert (R' : related (fun _ => False) s
                   (mkTransformer (heap s2) (tl (stack s2)) (tempVars s2)
                      (identifierGenerator s2))).
    { eapply related_trans; [exact R12|]. split.
      - apply keepsContexts_same. reflexivity.
      - apply keepsTemps_same; reflexivity. }
    destruct (nth_error (heap s2) (List.length (heap s1))) as [o|] eqn:E.
    + split; [exact R'|]. simpl. rewrite S2. simpl. exact S1.
    + exfalso. destruct R2 as [C2 _].
      destruct (C2 (List.length (heap s1))
                  (mkState tree (Some (createIdentifierExpression name)) false))
        as (o' & E' & _).
      { unfold entered. cbn [heap]. apply nth_error_last. }
      congruence.
  - destruct H2 as [R2 S2]. simpl in R2, S2. split.
    + simpl. eapply related_trans; [exact R1|]. eapply related_entered; eauto.
    + simpl. destruct e as [msg|]; auto.
      destruct S2 as (U & extra & _ & Hst). split; auto.
      exists (extra ++ [List.length (heap s1)]). split.
      * intros _ Hnil. apply app_eq_nil in Hnil. destruct Hnil; discriminate.
      * rewrite Hst. unfold entered. cbn [stack]. rewrite S1.
        rewrite <- app_assoc. reflexivity.
Qed.

Lemma soundAny_transformClassDeclaration l n superClass elements :
  soundAny
    (transformClassDeclaration superTransformer blockBinding tAny l n
       superClass elements).
Proof.
  unfold transformClassDeclaration. apply soundAny_bind.
  - apply soundAny_transformClassShared_.
  - intros; apply soundAny_ret.
Qed.

Lemma related_removeTempVar (P : nat -> Prop) s s2 k :
  related P s s2 -> identifierGenerator s <= k ->
  related P s
    (mkTransformer (heap s2) (stack s2)
       (filter (fun v => negb (String.eqb v (uniqueIdentifier k)))
          (tempVars s2))
       (identifierGenerator s2)).
Proof.
  intros [C [L K]] Hk. split.
  - eapply keepsContexts_trans; [exact C|]. apply keepsContexts_same.
    reflexivity.
  - split; [exact L|]. cbn [tempVars]. intros v Hv Hfresh.
    apply filter_In. split; [apply K; auto|].
    apply negb_true_iff. apply String.eqb_neq. apply Hfresh. exact Hk.
Qed.

Lemma soundAny_transformClassExpression l n superClass elements :
  soundAny
    (transformClassExpression superTransformer tAny l n superClass elements).
Proof.
  intros s. unfold transformClassExpression.
  rewrite bind_eq. unfold addTempVar at 1. cbv beta iota zeta.
  set (tmp := uniqueIdentifier (identifierGenerator s)).
  set (s0 := mkTransformer _ _ _ _).
  assert (R0 : related (fun _ => False) s s0).
  { apply (soundAny_addTempVar s). }
  rewrite bind_eq.
  pose proof (soundAny_transformClassShared_
                (ClassExpression l n superClass elements) superClass elements
                tmp s0) as H.
  destruct (transformClassShared_ _ _ _ superClass elements tmp s0)
    as [[[classTree flag]|e] s2].
  - destruct H as [R2 S2]. simpl in R2, S2. cbn [fst snd].
    destruct flag.
    + split.
      * simpl. eapply related_trans; eauto.
      * simpl. rewrite S2. reflexivity.
    + cbv [bind removeTempVar ret]. split.
      * cbn [snd]. apply related_removeTempVar; [|apply Nat.le_refl].
        eapply related_trans; eauto.
      * simpl. rewrite S2. reflexivity.
  - destruct H as [R2 S2]. simpl in R2, S2. split.
    + simpl. eapply related_trans; eauto.
    + simpl. destruct e as [msg|]; auto.
Qed.

Lemma soundAny_transformTree t :
  soundAny (transformTree superTransformer blockBinding tAny t).
Proof.
  destruct t; cbv beta iota delta [transformTree];
    try apply soundAny_transformClassDeclaration;
    try apply soundAny_transformClassExpression;
    repeat (apply soundAny_bind;
            [ first [ apply tAny_sound
                    | apply soundAny_mapM; apply tAny_sound
                    | apply soundAny_transformAnyOpt ]
            | intros ]);
    apply soundAny_ret.
Qed.

End Open.
Lemma soundAny_transformAny fuel :
  forall t, soundAny (transformAny superTransformer blockBinding fuel t).
Proof.
  induction fuel as [|fuel IH]; intros t; simpl.
  - intros s. split; [apply related_refl|exact I].
  - apply soundAny_transformTree. exact IH.
Qed.

End ClassTransformerSound.

(** ** Enough recursion budget *)

Section ClassTransformerTotal.
Import ClassTransformer ClassFacts ParseTreeFactory.
Variable superTransformer :
  option ParseTree -> ParseTree -> ParseTree -> ParseTree * bool.
Variable blockBinding : bool.

Lemma total_ret {A} (a : A) : total (ret a).
Proof. intros s. discriminate. Qed.

Lemma total_bind {A B} (m : T A) (k : A -> T B) :
  total m -> (forall a, total (k a)) -> total (bind m k).
Proof.
  intros Hm Hk s. rewrite bind_eq. specialize (Hm s).
  destruct (m s) as [[a|e] s1]; simpl in *.
  - apply Hk.
  - exact Hm.
Qed.

Lemma total_mapM {A B} (f : A -> T B) (l : list A) :
  (forall x, In x l -> total (f x)) -> total (mapM f l).
Proof.
  induction l as [|x l IH]; intros Hf; simpl.
  - apply total_ret.
  - apply total_bind; [apply Hf; left; reflexivity|]. intros y.
    apply total_bind; [apply IH; intros; apply Hf; right; assumption|].
    intros; apply total_ret.
Qed.

Lemma height_in x l : In x l -> height x <= heights l.
Proof.
  induction l as [|y l IH]; intros H; [destruct H|].
  simpl. destruct H as [->|H]; [lia|]. specialize (IH H). lia.
Qed.

Lemma height_pos t : 1 <= height t.
Proof. destruct t; simpl; lia. Qed.

Section Open.
Variable tAny : ParseTree -> T ParseTree.
Variable n : nat.
Hypothesis tAny_total : forall t, height t <= n -> total (tAny t).

Lemma total_list l : heights l <= n -> total (mapM tAny l).
Proof.
  intros H. apply total_mapM. intros x Hx. apply tAny_total.
  apply height_in in Hx. lia.
Qed.

Lemma total_transformAnyOpt o :
  heightOpt o <= n -> total (transformAnyOpt tAny o).
Proof.
  destruct o as [t|]; simpl; intros H.
  - apply total_bind; [apply tAny_total; exact H|]. intros; apply total_ret.
  - apply total_ret.
Qed.

Lemma total_transformSuperInBlock_ methodTree t :
  height t <= n ->
  total (transformSuperInBlock_ superTransformer tAny methodTree t).
Proof.
  intros H s. unfold transformSuperInBlock_, peekState. rewrite bind_eq.
  destruct (hd_error (stack s)) as [a|]; [|discriminate].
  rewrite bind_eq. unfold deref.
  destruct (nth_error (heap s) a) as [o|]; [|discriminate].
  rewrite bind_eq. pose proof (tAny_total t H s) as Ht.
  destruct (tAny t s) as [[t'|e] s1]; [|exact Ht].
  destruct (superTransformer (name o) methodTree t') as [tt' found].
  rewrite bind_eq. destruct found.
  - unfold setHasSuper, deref, assign. rewrite bind_eq.
    destruct (nth_error (heap s1) a); discriminate.
  - discriminate.
Qed.

Lemma total_transformConstructor_ l nm g p b :
  height p <= n -> height b <= n ->
  total (transformConstructor_ superTransformer tAny l nm g p b).
Proof.
  intros Hp Hb. unfold transformConstructor_.
  apply total_bind; [apply tAny_total; exact Hp|]. intros.
  apply total_bind; [apply total_transformSuperInBlock_; exact Hb|].
  intros; apply total_ret.
Qed.

Lemma total_transformElement t :
  height t <= n -> total (transformElement superTransformer tAny t).
Proof.
  intros H. destruct t; cbv beta iota delta [transformElement];
    try (intros s; discriminate); cbn [height] in H.
  - apply total_bind; [|intros; apply total_ret].
    unfold transformGetAccessor_.
    apply total_bind; [apply total_transformSuperInBlock_; lia|].
    intros. destruct (ParseTree_eqb _ _); apply total_ret.
  - destruct (String.eqb _ CONSTRUCTOR).
    + apply total_bind; [|intros; apply total_ret].
      apply total_transformConstructor_; lia.
    + apply total_bind; [|intros; apply total_ret].
      unfold transformPropertyMethodAssignment_.
      apply total_bind; [apply tAny_total; lia|]. intros.
      apply total_bind; [apply total_transformSuperInBlock_; lia|].
      intros. destruct (_ && _); apply total_ret.
  - apply total_bind; [|intros; apply total_ret].
    unfold transformSetAccessor_.
    apply total_bind; [apply tAny_total; lia|]. intros.
    apply total_bind; [apply total_transformSuperInBlock_; lia|].
    intros. destruct (ParseTree_eqb _ _); apply total_ret.
Qed.

Lemma total_members tree elements :
  6 <= n -> heights elements <= n ->
  total (members superTransformer tAny tree elements).
Proof.
  intros H6 He. unfold members. apply total_bind.
  - apply total_mapM. intros x Hx. apply total_transformElement.
    apply height_in in Hx. lia.
  - intros results. destruct (lastConstructor results).
    + apply total_ret.
    + apply total_bind; [|intros; apply total_ret].
      apply total_transformConstructor_; simpl; lia.
Qed.

Lemma total_transformClassShared_ tree superClass elements name :
  classHeight superClass elements <= n ->
  total
    (transformClassShared_ superTransformer tAny tree superClass elements name).
Proof.
  unfold classHeight. intros H s. rewrite transformClassShared_eq.
  pose proof (@total_transformAnyOpt superClass ltac:(lia) s) as H1.
  destruct (transformAnyOpt tAny superClass s) as [[sc'|e] s1]; [|exact H1].
  pose proof (@total_members tree elements ltac:(lia) ltac:(lia)
                (entered tree name s1)) as H2.
  destruct (members _ _ tree elements (entered tree name s1))
    as [[[elements' hasConstructor]|e] s2]; [|exact H2].
  destruct (nth_error (heap s2) (List.length (heap s1))); discriminate.
Qed.

Lemma total_transformTree t :
  height t <= S n ->
  total (transformTree superTransformer blockBinding tAny t).
Proof.
  intros H.
  destruct t; cbv beta iota delta [transformTree]; cbn [height] in H;
    try (unfold transformClassDeclaration;
         apply total_bind; [|intros; apply total_ret];
         apply total_transformClassShared_;
         unfold classHeight, heights, heightOpt; lia);
    try (unfold transformClassExpression;
         apply total_bind; [intros s; discriminate|]; intros;
         apply total_bind;
         [apply total_transformClassShared_;
          unfold classHeight, heights, heightOpt; lia|];
         intros; destruct (snd _);
         [apply total_ret
         |apply total_bind; [intros s; discriminate|intros; apply total_ret]]);
    repeat (apply total_bind;
            [ first [ apply tAny_total; lia
                    | apply total_list; unfold heights; lia
                    | apply total_transformAnyOpt; unfold heightOpt; lia ]
            | intros ]);
    apply total_ret.
Qed.
End Open.

Lemma total_transformAny fuel :
  forall t, height t <= fuel ->
       total (transformAny superTransformer blockBinding fuel t).
Proof.
  induction fuel as [|fuel IH]; intros t H.
  - pose proof (height_pos t). lia.
  - simpl. apply total_transformTree with (n := fuel); auto.
Qed.

End ClassTransformerTotal.

(** ** The members of a class *)

Section ClassTransformerMembers.
Import ClassTransformer ClassFacts ParseTreeFactory.
Variable superTransformer :
  option ParseTree -> ParseTree -> ParseTree -> ParseTree * bool.
Variable blockBinding : bool.

Lemma transformElement_ok tAny e s r s' :
  transformElement superTransformer tAny e s = (Ok r, s') ->
  isClassElement e = true /\
  (if isConstructor e then snd r <> None else snd r = None).
Proof.
  destruct e; cbv beta iota delta [transformElement];
    try (intros H; discriminate); intros H; split; try reflexivity.
  - apply bind_ok in H. destruct H as (x & s1 & _ & H).
    inversion H. reflexivity.
  - simpl. destruct (String.eqb _ CONSTRUCTOR);
      apply bind_ok in H; destruct H as (x & s1 & _ & H); inversion H;
      simpl; congruence.
  - apply bind_ok in H. destruct H as (x & s1 & _ & H).
    inversion H. reflexivity.
Qed.

Lemma mapM_ok_Forall2 {A B} (f : A -> T B) (R : A -> B -> Prop) :
  (forall x s y s', f x s = (Ok y, s') -> R x y) ->
  forall l s ys s', mapM f l s = (Ok ys, s') -> Forall2 R l ys.
Proof.
  intros Hf. induction l as [|x l IH]; simpl; intros s ys s' H.
  - inversion H. constructor.
  - apply bind_ok in H. destruct H as (y & s1 & Hy & H).
    apply bind_ok in H. destruct H as (ys' & s2 & Hys & H).
    inversion H; subst. constructor; eauto.
Qed.

Lemma lastConstructor_spec elements results :
  Forall2 (fun e r => isClassElement e = true /\
                      if isConstructor e then snd r <> None
                      else snd r = None) elements results ->
  List.length results = List.length elements /\
  match lastConstructor results with
  | Some _ => hasUserConstructor elements = true
  | None => hasUserConstructor elements = false
  end.
Proof.
  intros H. split.
  - symmetry. eapply Forall2_length; eauto.
  - unfold lastConstructor, hasUserConstructor.
    assert (G : forall acc,
               match fold_left
                       (fun constructor (r : ParseTree * option ParseTree) =>
                          match snd r with
                          | Some c => Some c
                          | None => constructor
                          end) results acc with
               | Some _ => acc <> None \/ existsb isConstructor elements = true
               | None => acc = None /\ existsb isConstructor elements = false
               end).
    { induction H as [|e r es rs [_ Hr] _ IH]; intros acc; simpl.
      - destruct acc; [left; discriminate|auto].
      - specialize (IH match snd r with Some c => Some c | None => acc end).
        destruct (fold_left _ rs _).
        + destruct (isConstructor e); simpl; auto.
          rewrite Hr in IH. exact IH.
        + destruct IH as [E1 E2]. destruct (isConstructor e); simpl.
          * destruct (snd r); [discriminate|congruence].
          * rewrite Hr in E1. auto. }
    specialize (G None). destruct (fold_left _ results None).
    + destruct G as [G|G]; congruence.
    + tauto.
Qed.

Lemma transformAny_defaultParams fuel s :
  2 <= fuel ->
  transformAny superTransformer blockBinding fuel defaultParams s
  = (Ok defaultParams, s).
Proof.
  intros H. destruct fuel as [|[|fuel]]; try lia. reflexivity.
Qed.

Lemma transformAny_defaultBody fuel s :
  6 <= fuel ->
  transformAny superTransformer blockBinding fuel defaultBody s
  = (Ok defaultBody, s).
Proof.
  intros H. destruct fuel as [|[|[|[|[|[|fuel]]]]]]; try lia. reflexivity.
Qed.

Lemma transformSuperInBlock_eq tAny methodTree t s a rest o :
  stack s = a :: rest -> nth_error (heap s) a = Some o ->
  transformSuperInBlock_ superTransformer tAny methodTree t s =
  match tAny t s with
  | (Ok t', s1) =>
      match nth_error (heap s1) a with
      | None =>
          if snd (superTransformer (name o) methodTree t')
          then (Throw typeError, s1)
          else (Ok (fst (superTransformer (name o) methodTree t')), s1)
      | Some _ =>
          (Ok (fst (superTransformer (name o) methodTree t')),
           flagged (snd (superTransformer (name o) methodTree t')) a s1)
      end
  | (Throw e, s1) => (Throw e, s1)
  end.
Proof.
  intros Hs Ha. unfold transformSuperInBlock_. rewrite bind_eq.
  unfold peekState. rewrite Hs. cbn [hd_error].
  rewrite bind_eq. unfold deref at 1. rewrite Ha. rewrite bind_eq.
  destruct (tAny t s) as [[t'|e] s1]; [|reflexivity].
  destruct (superTransformer (name o) methodTree t') as [body' found].
  unfold flagged, setHasSuper, deref, assign. cbv [bind ret fst snd].
  destruct found; destruct (nth_error (heap s1) a); reflexivity.
Qed.

Lemma getDefaultConstructor_ok fuel tree s a rest o :
  6 <= fuel ->
  stack s = a :: rest -> nth_error (heap s) a = Some o ->
  getDefaultConstructor_ superTransformer
    (transformAny superTransformer blockBinding fuel) tree s
  = (Ok (synthesized superTransformer (name o)),
     flagged (snd (superTransformer (name o) defaultConstructor defaultBody))
       a s).
Proof.
  intros Hf Hs Ha. unfold getDefaultConstructor_, transformConstructor_.
  rewrite bind_eq, transformAny_defaultParams by lia.
  rewrite bind_eq.
  rewrite (@transformSuperInBlock_eq _ _ _ s a rest o Hs Ha).
  rewrite transformAny_defaultBody by lia. rewrite Ha. reflexivity.
Qed.

Lemma flagged_true a s o :
  nth_error (heap s) a = Some o ->
  exists o', nth_error (heap (flagged true a s)) a = Some o' /\
             hasSuper o' = true.
Proof.
  intros Ha. unfold flagged. rewrite Ha. cbn [heap].
  rewrite nth_error_update, Nat.eqb_refl, Ha. eexists. split; reflexivity.
Qed.

End ClassTransformerMembers.

(** ** The shared class transform *)

Section ClassTransformerShared.
Import ClassTransformer ClassFacts ParseTreeFactory.
Variable superTransformer :
  option ParseTree -> ParseTree -> ParseTree -> ParseTree * bool.
Variable blockBinding : bool.

Lemma shared_throw fuel tree superClass elements name s f s' :
  classHeight superClass elements <= fuel ->
  transformClassShared_ superTransformer (transformAny superTransformer
      blockBinding fuel) tree superClass elements
    name s = (Throw f, s') ->
  unexpected f /\ exists extra, extra <> [] /\ stack s' = extra ++ stack s.
Proof.
  intros Hh H.
  pose proof (@soundAny_transformClassShared_ superTransformer (transformAny
      superTransformer blockBinding fuel)
                (soundAny_transformAny superTransformer blockBinding fuel)
                tree superClass elements name s) as [_ S].
  pose proof (@total_transformClassShared_ superTransformer (transformAny
      superTransformer blockBinding fuel) fuel
                (total_transformAny superTransformer blockBinding (fuel :=
                    fuel))
                tree superClass elements name Hh s) as Ht.
  rewrite H in S, Ht. simpl in S, Ht. destruct f as [msg|]; [|congruence].
  destruct S as (U & extra & Hne & Hst). split; auto.
  exists extra. split; auto.
Qed.

Lemma members_entered fuel tree name elements s1 r s2 :
  members superTransformer (transformAny superTransformer blockBinding fuel)
      tree elements (entered tree name s1)
  = (r, s2) ->
  related (eq (List.length (heap s1))) (entered tree name s1) s2 /\
  exists o,
    nth_error (heap s2) (List.length (heap s1)) = Some o /\
    ClassTransformer.tree o = tree /\
    ClassTransformer.name o = Some (createIdentifierExpression name).
Proof.
  intros H.
  pose proof (@outcome_members superTransformer (transformAny superTransformer
      blockBinding fuel)
                (soundAny_transformAny superTransformer blockBinding fuel)
                tree name elements s1) as [R _].
  rewrite H in R. simpl in R. split; [exact R|].
  destruct R as [C _].
  destruct (C (List.length (heap s1))
              (mkState tree (Some (createIdentifierExpression name)) false))
    as (o & E & Ht & Hn & _).
  { unfold entered. cbn [heap]. apply nth_error_last. }
  exists o. auto.
Qed.

Lemma members_ok fuel tree name elements s1 elements' hasConstructor s2 :
  6 <= fuel ->
  members superTransformer (transformAny superTransformer blockBinding fuel)
      tree elements (entered tree name s1)
  = (Ok (elements', hasConstructor), s2) ->
  hasConstructor = hasUserConstructor elements /\
  exists transformed,
    List.length transformed = List.length elements /\
    elements' =
      if hasConstructor then transformed
      else transformed ++
           [synthesized superTransformer
              (Some (createIdentifierExpression name))].
Proof.
  intros Hf H. unfold members in H. apply bind_ok in H.
  destruct H as (results & s4 & Hm & H).
  assert (F : Forall2 (fun e r => isClassElement e = true /\
                                  if isConstructor e then snd r <> None
                                  else snd r = None) elements results).
  { eapply mapM_ok_Forall2; [|exact Hm].
    intros x s y s'. apply transformElement_ok. }
  destruct (lastConstructor_spec F) as [Hlen Hlast].
  destruct (lastConstructor results) as [c|].
  - inversion H; subst. split; [congruence|].
    exists (map fst results). rewrite length_map. auto.
  - apply bind_ok in H. destruct H as (c & s5 & Hc & H).
    inversion H; subst. split; [congruence|].
    exists (map fst results). rewrite length_map. split; [auto|].
    pose proof (@soundMember_mapM _ _ _ elements
                  (@soundMember_transformElement superTransformer (transformAny
                      superTransformer blockBinding fuel)
                     (soundAny_transformAny superTransformer blockBinding fuel))
                  (entered tree name s1) (List.length (heap s1)) (stack s1)
                  eq_refl) as O.
    destruct O as [[C _] S].
    { unfold entered. cbn [heap]. rewrite length_app. simpl. lia. }
    rewrite Hm in C, S. simpl in C, S.
    destruct (C (List.length (heap s1))
                (mkState tree (Some (createIdentifierExpression name)) false))
      as (o & E & Ht & Hn & _).
    { unfold entered. cbn [heap]. apply nth_error_last. }
    rewrite (@getDefaultConstructor_ok superTransformer blockBinding fuel tree
               s4 _ _ o Hf S E) in Hc.
    inversion Hc. rewrite Hn. reflexivity.
Qed.

End ClassTransformerShared.

(** ** The flag of a class context *)

Section ClassTransformerFlag.
Import ClassTransformer ClassFacts ParseTreeFactory.
Variable superTransformer :
  option ParseTree -> ParseTree -> ParseTree -> ParseTree * bool.
Variable blockBinding : bool.
Variable fuel : nat.

Lemma tAny_keeps t s t' s1 a rest o :
  stack s = a :: rest -> nth_error (heap s) a = Some o ->
  (transformAny superTransformer blockBinding fuel) t s = (Ok t', s1) ->
  stack s1 = a :: rest /\ nth_error (heap s1) a = Some o.
Proof.
  intros Hs Ha E.
  pose proof (soundAny_transformAny superTransformer blockBinding fuel t s)
    as [[C _] S].
  rewrite E in C, S. simpl in C, S. split; [congruence|].
  destruct (C a o Ha) as (o' & Ho' & _ & _ & _ & Heq).
  rewrite Ho'. f_equal. apply Heq. tauto.
Qed.

Lemma block_flag methodTree body s a rest o result s' :
  stack s = a :: rest -> nth_error (heap s) a = Some o ->
  transformSuperInBlock_ superTransformer (transformAny superTransformer
      blockBinding fuel) methodTree body s
  = (Ok result, s') ->
  stack s' = a :: rest /\
  exists o',
    nth_error (heap s') a = Some o' /\ name o' = name o /\
    hasSuper o' =
      hasSuper o ||
      foundIn superTransformer (transformAny superTransformer blockBinding
          fuel) (name o) methodTree body s.
Proof.
  intros Hs Ha E.
  rewrite (@transformSuperInBlock_eq superTransformer _ _ _ s a rest o Hs Ha)
    in E.
  unfold foundIn.
  destruct ((transformAny superTransformer blockBinding fuel) body s) as
      [[body' |e] s1] eqn:Eb; [|discriminate].
  destruct (@tAny_keeps _ _ _ _ _ _ _ Hs Ha Eb) as [Hs1 Ha1].
  rewrite Ha1 in E. inversion E; subst result s'.
  unfold flagged.
  destruct (snd (superTransformer (name o) methodTree body')).
  - rewrite Ha1. cbn [stack heap]. split; [exact Hs1|].
    rewrite nth_error_update, Nat.eqb_refl, Ha1.
    eexists. split; [reflexivity|]. simpl. split; [reflexivity|].
    rewrite orb_true_r. reflexivity.
  - split; [exact Hs1|]. exists o. rewrite orb_false_r. auto.
Qed.

Lemma element_flag e s a rest o r s' :
  stack s = a :: rest -> nth_error (heap s) a = Some o ->
  transformElement superTransformer (transformAny superTransformer blockBinding
      fuel) e s = (Ok r, s') ->
  stack s' = a :: rest /\
  exists o',
    nth_error (heap s') a = Some o' /\ name o' = name o /\
    hasSuper o' =
      hasSuper o || usesSuper superTransformer (transformAny superTransformer
          blockBinding fuel) (name o) e s.
Proof.
  intros Hs Ha E.
  destruct e; cbv beta iota delta [transformElement] in E;
    try discriminate; cbv beta iota delta [usesSuper].
  - apply bind_ok in E. destruct E as (x & s1 & E & Er).
    inversion Er; subst s1. clear Er.
    unfold transformGetAccessor_ in E. apply bind_ok in E.
    destruct E as (b' & s1 & E & Er).
    assert (s1 = s') by (destruct (ParseTree_eqb _ _); inversion Er; auto).
    subst s1. eapply block_flag; eauto.
  - match type of E with
    | context [transformConstructor_ _ _ ?l ?n ?g ?p ?b] =>
        assert (X : exists p' s0 b',
                   (transformAny superTransformer blockBinding fuel) p s = (Ok
                       p', s0) /\
                   transformSuperInBlock_ superTransformer (transformAny
                       superTransformer blockBinding fuel)
                     (PropertyMethodAssignment l n g p b) b s0 = (Ok b', s'))
    end.
    { destruct (String.eqb _ CONSTRUCTOR);
        apply bind_ok in E; destruct E as (x & s1 & E & Er);
        inversion Er; subst s1; clear Er.
      - unfold transformConstructor_ in E. apply bind_ok in E.
        destruct E as (p' & s0 & Ep & E). apply bind_ok in E.
        destruct E as (b' & s1 & Eb & Er). inversion Er; subst s1.
        exists p', s0, b'. auto.
      - unfold transformPropertyMethodAssignment_ in E. apply bind_ok in E.
        destruct E as (p' & s0 & Ep & E). apply bind_ok in E.
        destruct E as (b' & s1 & Eb & Er).
        assert (s1 = s') by (destruct (_ && _); inversion Er; auto).
        subst s1. exists p', s0, b'. auto. }
    destruct X as (p' & s0 & b' & Ep & Eb). rewrite Ep.
    destruct (@tAny_keeps _ _ _ _ _ _ _ Hs Ha Ep) as [Hs0 Ha0].
    eapply block_flag; eauto.
  - apply bind_ok in E. destruct E as (x & s1 & E & Er).
    inversion Er; subst s1. clear Er.
    unfold transformSetAccessor_ in E. apply bind_ok in E.
    destruct E as (p' & s0 & Ep & E). apply bind_ok in E.
    destruct E as (b' & s1 & Eb & Er).
    assert (s1 = s') by (destruct (ParseTree_eqb _ _); inversion Er; auto).
    subst s1. rewrite Ep.
    destruct (@tAny_keeps _ _ _ _ _ _ _ Hs Ha Ep) as [Hs0 Ha0].
    eapply block_flag; eauto.
Qed.




End ClassTransformerFlag.

(** ** The elements of a class, one by one *)

Section ClassElementShapes.
Import ClassTransformer ClassFacts ClassElements ParseTreeFactory.
Variable superTransformer :
  option ParseTree -> ParseTree -> ParseTree -> ParseTree * bool.
Variable blockBinding : bool.

Lemma ParseTree_eqb_eq a b : ParseTree_eqb a b = true -> a = b.
Proof.
  unfold ParseTree_eqb. destruct (ParseTree_eq_dec a b); congruence.
Qed.

Lemma block_result tAny methodTree body s a rest o result s' :
  stack s = a :: rest -> nth_error (heap s) a = Some o ->
  transformSuperInBlock_ superTransformer tAny methodTree body s
  = (Ok result, s') ->
  exists body' s1,
    tAny body s = (Ok body', s1) /\
    result = fst (superTransformer (name o) methodTree body').
Proof.
  intros Hs Ha E.
  rewrite (@transformSuperInBlock_eq superTransformer _ _ _ s a rest o Hs Ha)
    in E.
  destruct (tAny body s) as [[body'|e] s1]; [|discriminate].
  exists body', s1. split; [reflexivity|].
  destruct (nth_error (heap s1) a);
    [|destruct (snd (superTransformer (name o) methodTree body'))];
    inversion E; reflexivity.
Qed.

Section Budget.
Variable fuel : nat.

Lemma transformElement_lowered e s a rest o r s' :
  stack s = a :: rest -> nth_error (heap s) a = Some o ->
  transformElement superTransformer
    (transformAny superTransformer blockBinding fuel) e s = (Ok r, s') ->
  lowered superTransformer (transformAny superTransformer blockBinding fuel)
    (name o) e (fst r) s.
Proof.
  intros Hs Ha H.
  destruct e; cbv beta iota delta [transformElement] in H;
    try discriminate; cbv beta iota delta [lowered].
  - apply bind_ok in H. destruct H as (x & s1 & H & R). inversion R; subst.
    unfold transformGetAccessor_ in H. apply bind_ok in H.
    destruct H as (b' & s2 & Hb & H).
    destruct (@block_result _ _ _ _ _ _ _ _ _ Hs Ha Hb)
      as (body' & s3 & Eb & ->).
    exists body', s3. split; [exact Eb|]. cbn [fst].
    destruct (ParseTree_eqb _ e) eqn:Q; inversion H; [|reflexivity].
    apply ParseTree_eqb_eq in Q. rewrite Q. reflexivity.
  - match type of H with
    | context [transformConstructor_ _ _ ?l ?n ?g ?p ?b] =>
        assert (X : exists p' s0 b',
                   transformAny superTransformer blockBinding fuel p s
                   = (Ok p', s0) /\
                   (exists s3,
                       transformSuperInBlock_ superTransformer
                         (transformAny superTransformer blockBinding fuel)
                         (PropertyMethodAssignment l n g p b) b s0
                       = (Ok b', s3)) /\
                   fst r =
                     if String.eqb n CONSTRUCTOR then
                       PropertyNameAssignment None CONSTRUCTOR
                         (FunctionDeclaration None None false p' b')
                     else PropertyMethodAssignment l n g p' b')
    end.
    { destruct (String.eqb _ CONSTRUCTOR);
        apply bind_ok in H; destruct H as (x & s1 & H & R);
        inversion R; subst; clear R; cbn [fst].
      - unfold transformConstructor_ in H. apply bind_ok in H.
        destruct H as (p' & s0 & Ep & H). apply bind_ok in H.
        destruct H as (b' & s1 & Eb & R). inversion R; subst.
        exists p', s0, b'. eauto.
      - unfold transformPropertyMethodAssignment_ in H. apply bind_ok in H.
        destruct H as (p' & s0 & Ep & H). apply bind_ok in H.
        destruct H as (b' & s1 & Eb & R). exists p', s0, b'.
        split; [exact Ep|]. split; [eauto|].
        destruct (ParseTree_eqb p' e1) eqn:Q1; cbn [andb] in R;
          [destruct (ParseTree_eqb b' e2) eqn:Q2|]; inversion R;
          try reflexivity.
        apply ParseTree_eqb_eq in Q1, Q2. subst. reflexivity. }
    destruct X as (p' & s0 & b' & Ep & [s3 Eb] & Er).
    destruct (@tAny_keeps _ _ _ _ _ _ _ _ _ _ Hs Ha Ep) as [Hs0 Ha0].
    destruct (@block_result _ _ _ _ _ _ _ _ _ Hs0 Ha0 Eb)
      as (body' & s4 & Eb' & ->).
    exists p', s0, body', s4. auto.
  - apply bind_ok in H. destruct H as (x & s1 & H & R). inversion R; subst.
    unfold transformSetAccessor_ in H. apply bind_ok in H.
    destruct H as (p' & s0 & Ep & H). apply bind_ok in H.
    destruct H as (b' & s2 & Eb & H).
    destruct (@tAny_keeps _ _ _ _ _ _ _ _ _ _ Hs Ha Ep) as [Hs0 Ha0].
    destruct (@block_result _ _ _ _ _ _ _ _ _ Hs0 Ha0 Eb)
      as (body' & s4 & Eb' & ->).
    exists p', s0, body', s4. split; [exact Ep|]. split; [exact Eb'|].
    cbn [fst]. destruct (ParseTree_eqb _ e2); inversion H; reflexivity.
Qed.

Lemma elements_lowered elements :
  forall s a rest o results s',
    stack s = a :: rest -> nth_error (heap s) a = Some o ->
    mapM (transformElement superTransformer
            (transformAny superTransformer blockBinding fuel)) elements s
    = (Ok results, s') ->
    loweredFrom superTransformer
      (transformAny superTransformer blockBinding fuel) (name o)
      elements (map fst results) s.
Proof.
  induction elements as [|e elements IH]; intros s a rest o results s' Hs Ha E.
  - inversion E. exact I.
  - simpl in E. apply bind_ok in E. destruct E as (r & s1 & Ee & E).
    apply bind_ok in E. destruct E as (rs & s2 & Em & Er).
    inversion Er; subst. cbn [map loweredFrom]. split.
    + eapply transformElement_lowered; eauto.
    + destruct (@element_flag _ _ _ _ _ _ _ _ _ _ Hs Ha Ee)
        as (Hs1 & o1 & Ha1 & Hn1 & _).
      rewrite Ee. cbn [snd]. rewrite <- Hn1. eapply IH; eauto.
Qed.

Lemma members_lowered tree name elements s1 elements' hasConstructor s' :
  members superTransformer (transformAny superTransformer blockBinding fuel)
    tree elements (entered tree name s1)
  = (Ok (elements', hasConstructor), s') ->
  loweredFrom superTransformer
    (transformAny superTransformer blockBinding fuel)
    (Some (createIdentifierExpression name))
    elements (firstn (List.length elements) elements')
    (entered tree name s1).
Proof.
  intros H. unfold members in H. apply bind_ok in H.
  destruct H as (results & s2 & Hm & H).
  assert (G : loweredFrom superTransformer
                (transformAny superTransformer blockBinding fuel)
                (Some (createIdentifierExpression name))
                elements (map fst results) (entered tree name s1)).
  { apply (@elements_lowered elements (entered tree name s1)
             (List.length (heap s1)) (stack s1)
             (mkState tree (Some (createIdentifierExpression name)) false)
             results s2); [reflexivity| |exact Hm].
    unfold entered. cbn [heap]. apply nth_error_last. }
  assert (L : List.length elements = List.length (map fst results)).
  { rewrite length_map.
    pose proof (@mapM_ok_Forall2 _ _
                  (transformElement superTransformer
                     (transformAny superTransformer blockBinding fuel))
                  (fun _ _ => True) (fun _ _ _ _ _ => I)
                  _ _ _ _ Hm) as F.
    eapply Forall2_length; eauto. }
  destruct (lastConstructor results).
  - inversion H; subst. rewrite L, firstn_all. exact G.
  - apply bind_ok in H. destruct H as (c & s3 & _ & H). inversion H; subst.
    rewrite L, firstn_app, firstn_all, Nat.sub_diag. simpl.
    rewrite app_nil_r. exact G.
Qed.

End Budget.

End ClassElementShapes.

(** ** Which trees the transformer throws on *)

Section ClassTransformerErrors.
Import ClassTransformer ClassFacts ClassElements ParseTreeFactory.
Variable superTransformer :
  option ParseTree -> ParseTree -> ParseTree -> ParseTree * bool.
Variable blockBinding : bool.

Lemma typeError_expected : ~ unexpected typeError.
Proof. intros [t E]. unfold typeError in E. inversion E. Qed.

Lemma OutOfFuel_expected : ~ unexpected OutOfFuel.
Proof. intros [t E]. discriminate. Qed.

Lemma quiet_ret {A} (a : A) : quiet (ret a).
Proof. intros s f H. discriminate. Qed.

Lemma quiet_bind {A B} (m : T A) (k : A -> T B) :
  quiet m -> (forall a, quiet (k a)) -> quiet (bind m k).
Proof.
  intros Hm Hk s f. rewrite bind_eq. specialize (Hm s).
  destruct (m s) as [[a|e] s1]; [apply Hk|]. intros H. apply Hm, H.
Qed.

Lemma quiet_mapM {A B} (f : A -> T B) (l : list A) :
  (forall x, In x l -> quiet (f x)) -> quiet (mapM f l).
Proof.
  induction l as [|x l IH]; intros H; simpl; [apply quiet_ret|].
  apply quiet_bind; [apply H; left; reflexivity|]. intros y.
  apply quiet_bind; [apply IH; intros z Hz; apply H; right; exact Hz|].
  intros ys. apply quiet_ret.
Qed.

Lemma quiet_deref a : quiet (deref a).
Proof.
  intros s f. unfold deref. destruct (nth_error (heap s) a); simpl;
    intros H; inversion H. apply typeError_expected.
Qed.

Lemma quiet_setHasSuper a : quiet (setHasSuper a).
Proof.
  apply quiet_bind; [apply quiet_deref|]. intros o s f H. discriminate.
Qed.

Lemma quiet_setName a n : quiet (setName a n).
Proof.
  apply quiet_bind; [apply quiet_deref|]. intros o s f H. discriminate.
Qed.

Lemma fails_throw {A} (f : Failure) : fails (throw f : T A).
Proof. intros s. exists f. reflexivity. Qed.

Lemma fails_bind_l {A B} (m : T A) (k : A -> T B) :
  fails m -> fails (bind m k).
Proof.
  intros Hm s. rewrite bind_eq. destruct (Hm s) as [f Hf].
  destruct (m s) as [[a|e] s1]; [discriminate|]. exists e. reflexivity.
Qed.

Lemma fails_bind_r {A B} (m : T A) (k : A -> T B) :
  (forall a, fails (k a)) -> fails (bind m k).
Proof.
  intros Hk s. rewrite bind_eq.
  destruct (m s) as [[a|e] s1]; [apply Hk|]. exists e. reflexivity.
Qed.

Lemma fails_mapM {A B} (f : A -> T B) (l : list A) x :
  In x l -> fails (f x) -> fails (mapM f l).
Proof.
  intros Hin Hx. induction l as [|y l IH]; [destruct Hin|]. simpl.
  destruct Hin as [->|Hin].
  - apply fails_bind_l. exact Hx.
  - apply fails_bind_r. intros z. apply fails_bind_l. apply IH. exact Hin.
Qed.

Lemma forallb_false {A} (p : A -> bool) (l : list A) :
  forallb p l = false -> exists x, In x l /\ p x = false.
Proof.
  induction l as [|y l IH]; simpl; [discriminate|]. intros H.
  apply andb_false_iff in H. destruct H as [H|H].
  - exists y. auto.
  - destruct (IH H) as (x & Hin & Hx). exists x. auto.
Qed.

End ClassTransformerErrors.

Section ClassTransformerQuiet.
Import ClassTransformer ClassFacts ClassElements ParseTreeFactory.
Variable superTransformer :
  option ParseTree -> ParseTree -> ParseTree -> ParseTree * bool.
Variable blockBinding : bool.
Variable tAny : ParseTree -> T ParseTree.
Hypothesis tAny_quiet : forall t, classesOk t = true -> quiet (tAny t).
Hypothesis tAny_fails : forall t, classesOk t = false -> fails (tAny t).

Lemma quiet_list l : forallb classesOk l = true -> quiet (mapM tAny l).
Proof.
  intros H. apply quiet_mapM. intros x Hx. apply tAny_quiet.
  rewrite forallb_forall in H. apply H, Hx.
Qed.

Lemma quiet_transformAnyOpt o :
  match o with Some x => classesOk x | None => true end = true ->
  quiet (transformAnyOpt tAny o).
Proof.
  destruct o as [x|]; intros H; simpl; [|apply quiet_ret].
  apply quiet_bind; [apply tAny_quiet, H|]. intros a. apply quiet_ret.
Qed.

Lemma quiet_transformSuperInBlock_ methodTree t :
  classesOk t = true ->
  quiet (transformSuperInBlock_ superTransformer tAny methodTree t).
Proof.
  intros H. unfold transformSuperInBlock_.
  apply quiet_bind; [intros s f E; discriminate|]. intros [a|].
  - apply quiet_bind; [apply quiet_deref|]. intros o.
    apply quiet_bind; [apply tAny_quiet, H|]. intros t'.
    destruct (superTransformer (name o) methodTree t') as [r found].
    apply quiet_bind; [|intros; apply quiet_ret].
    destruct found; [apply quiet_setHasSuper|apply quiet_ret].
  - intros s f E. inversion E. apply typeError_expected.
Qed.

Lemma quiet_transformConstructor_ l n g p b :
  classesOk p = true -> classesOk b = true ->
  quiet (transformConstructor_ superTransformer tAny l n g p b).
Proof.
  intros Hp Hb. unfold transformConstructor_.
  apply quiet_bind; [apply tAny_quiet, Hp|]. intros p'.
  apply quiet_bind; [apply quiet_transformSuperInBlock_, Hb|]. intros b'.
  apply quiet_ret.
Qed.

Lemma quiet_transformElement e :
  isClassElement e = true -> classesOk e = true ->
  quiet (transformElement superTransformer tAny e).
Proof.
  destruct e; try discriminate; intros _ H; cbn [classesOk] in H;
    cbv beta iota delta [transformElement].
  - apply quiet_bind; [|intros; apply quiet_ret].
    unfold transformGetAccessor_.
    apply quiet_bind; [apply quiet_transformSuperInBlock_, H|]. intros b'.
    destruct (ParseTree_eqb b' e); apply quiet_ret.
  - apply andb_prop in H. destruct H as [Hp Hb].
    destruct (String.eqb _ CONSTRUCTOR);
      (apply quiet_bind; [|intros; apply quiet_ret]).
    + apply quiet_transformConstructor_; assumption.
    + unfold transformPropertyMethodAssignment_.
      apply quiet_bind; [apply tAny_quiet, Hp|]. intros p'.
      apply quiet_bind; [apply quiet_transformSuperInBlock_, Hb|]. intros b'.
      destruct (_ && _); apply quiet_ret.
  - apply andb_prop in H. destruct H as [Hp Hb].
    apply quiet_bind; [|intros; apply quiet_ret].
    unfold transformSetAccessor_.
    apply quiet_bind; [apply tAny_quiet, Hp|]. intros p'.
    apply quiet_bind; [apply quiet_transformSuperInBlock_, Hb|]. intros b'.
    destruct (ParseTree_eqb b' e2); apply quiet_ret.
Qed.

Lemma classesOk_defaultParams : classesOk defaultParams = true.
Proof. reflexivity. Qed.

Lemma classesOk_defaultBody : classesOk defaultBody = true.
Proof. reflexivity. Qed.

Lemma quiet_transformClassShared_ tree superClass elements name :
  match superClass with Some x => classesOk x | None => true end = true ->
  forallb isClassElement elements = true ->
  forallb classesOk elements = true ->
  quiet
    (transformClassShared_ superTransformer tAny tree superClass elements name).
Proof.
  intros Hs He Hc. unfold transformClassShared_.
  apply quiet_bind; [apply quiet_transformAnyOpt, Hs|]. intros superClass'.
  apply quiet_bind; [intros s f E; discriminate|]. intros state.
  apply quiet_bind; [intros s f E; discriminate|]. intros _.
  apply quiet_bind; [apply quiet_setName|]. intros _.
  apply quiet_bind.
  { apply quiet_mapM. intros x Hx. rewrite forallb_forall in He, Hc.
    apply quiet_transformElement; auto. }
  intros results. apply quiet_bind.
  { destruct (lastConstructor results); [apply quiet_ret|].
    apply quiet_bind; [|intros; apply quiet_ret].
    apply quiet_transformConstructor_;
      [apply classesOk_defaultParams|apply classesOk_defaultBody]. }
  intros elements''. apply quiet_bind; [intros s f E; discriminate|].
  intros _. apply quiet_bind; [apply quiet_deref|]. intros o.
  apply quiet_ret.
Qed.

Lemma quiet_transformTree t :
  classesOk t = true ->
  quiet (transformTree superTransformer blockBinding tAny t).
Proof.
  destruct t; intros H; cbn [classesOk] in H;
    cbv beta iota delta [transformTree];
    repeat match goal with
           | H : _ && _ = true |- _ => apply andb_prop in H; destruct H
           end;
    try (repeat first
           [ apply quiet_ret
           | apply tAny_quiet; assumption
           | apply quiet_list; assumption
           | apply quiet_transformAnyOpt; assumption
           | apply quiet_bind; [|intro] ]; fail).
  - unfold transformClassDeclaration.
    apply quiet_bind; [|intros; apply quiet_ret].
    apply quiet_transformClassShared_; assumption.
  - unfold transformClassExpression.
    apply quiet_bind; [intros s f E; discriminate|]. intros tempIdent.
    apply quiet_bind; [apply quiet_transformClassShared_; assumption|].
    intros r. destruct (snd r); [apply quiet_ret|].
    apply quiet_bind; [intros s f E; discriminate|]. intros _.
    apply quiet_ret.
Qed.

Lemma fails_list l : forallb classesOk l = false -> fails (mapM tAny l).
Proof.
  intros H. apply forallb_false in H. destruct H as (x & Hin & Hx).
  eapply fails_mapM; [exact Hin|]. apply tAny_fails, Hx.
Qed.

Lemma fails_transformAnyOpt o :
  match o with Some x => classesOk x | None => true end = false ->
  fails (transformAnyOpt tAny o).
Proof.
  destruct o as [x|]; intros H; [|discriminate]. simpl.
  apply fails_bind_l. apply tAny_fails, H.
Qed.

Lemma fails_transformSuperInBlock_ methodTree t :
  classesOk t = false ->
  fails (transformSuperInBlock_ superTransformer tAny methodTree t).
Proof.
  intros H. unfold transformSuperInBlock_. apply fails_bind_r.
  intros [a|]; [|apply fails_throw].
  apply fails_bind_r. intros o. apply fails_bind_l. apply tAny_fails, H.
Qed.

Lemma fails_member {A} p b methodTree (k : ParseTree -> ParseTree -> T A) :
  classesOk p && classesOk b = false ->
  fails (p' <- tAny p ;;
         b' <- transformSuperInBlock_ superTransformer tAny methodTree b ;;
         k p' b').
Proof.
  intros H. apply andb_false_iff in H. destruct H as [H|H].
  - apply fails_bind_l. apply tAny_fails, H.
  - apply fails_bind_r. intros p'. apply fails_bind_l.
    apply fails_transformSuperInBlock_, H.
Qed.

Lemma fails_transformElement e :
  isClassElement e && classesOk e = false ->
  fails (transformElement superTransformer tAny e).
Proof.
  destruct e; cbn [isClassElement andb classesOk];
    cbv beta iota delta [transformElement]; intros H;
    try apply fails_throw.
  - apply fails_bind_l. unfold transformGetAccessor_. apply fails_bind_l.
    apply fails_transformSuperInBlock_, H.
  - destruct (String.eqb _ CONSTRUCTOR); apply fails_bind_l.
    + unfold transformConstructor_. apply fails_member. exact H.
    + unfold transformPropertyMethodAssignment_. apply fails_member. exact H.
  - apply fails_bind_l. unfold transformSetAccessor_. apply fails_member.
    exact H.
Qed.

Lemma fails_transformClassShared_ tree superClass elements name :
  match superClass with Some x => classesOk x | None => true end &&
  forallb isClassElement elements && forallb classesOk elements = false ->
  fails
    (transformClassShared_ superTransformer tAny tree superClass elements name).
Proof.
  intros H. unfold transformClassShared_.
  apply andb_false_iff in H. destruct H as [H|H];
    [apply andb_false_iff in H; destruct H as [H|H]|].
  - apply fails_bind_l. apply fails_transformAnyOpt, H.
  - apply forallb_false in H. destruct H as (x & Hin & Hx).
    do 4 (apply fails_bind_r; intro). apply fails_bind_l.
    eapply fails_mapM; [exact Hin|]. apply fails_transformElement.
    rewrite Hx. reflexivity.
  - apply forallb_false in H. destruct H as (x & Hin & Hx).
    do 4 (apply fails_bind_r; intro). apply fails_bind_l.
    eapply fails_mapM; [exact Hin|]. apply fails_transformElement.
    rewrite Hx. apply andb_false_r.
Qed.

Lemma fails_transformTree t :
  classesOk t = false ->
  fails (transformTree superTransformer blockBinding tAny t).
Proof.
  destruct t; intros H; cbn [classesOk] in H; try discriminate;
    cbv beta iota delta [transformTree];
    try (apply fails_bind_l;
         first [ apply tAny_fails; assumption
               | apply fails_list; assumption
               | apply fails_transformAnyOpt; assumption ]; fail);
    try (repeat match goal with
                | H : _ && _ = false |- _ =>
                    apply andb_false_iff in H; destruct H
                end;
         repeat first
           [ apply fails_bind_l;
             first [ apply tAny_fails; assumption
                   | apply fails_list; assumption
                   | apply fails_transformAnyOpt; assumption ]
           | apply fails_bind_r; intro ]; fail).
  - unfold transformClassDeclaration. apply fails_bind_l.
    apply fails_transformClassShared_, H.
  - unfold transformClassExpression. apply fails_bind_r. intros tempIdent.
    apply fails_bind_l. apply fails_transformClassShared_, H.
Qed.

End ClassTransformerQuiet.

Section ClassTransformerOutcome.
Import ClassTransformer ClassFacts ClassElements ParseTreeFactory.
Variable superTransformer :
  option ParseTree -> ParseTree -> ParseTree -> ParseTree * bool.
Variable blockBinding : bool.

Lemma quiet_transformAny fuel :
  forall t, classesOk t = true ->
       quiet (transformAny superTransformer blockBinding fuel t).
Proof.
  induction fuel as [|fuel IH]; intros t H; simpl.
  - intros s f E. inversion E. apply OutOfFuel_expected.
  - apply quiet_transformTree; assumption.
Qed.

Lemma fails_transformAny fuel :
  forall t, classesOk t = false ->
       fails (transformAny superTransformer blockBinding fuel t).
Proof.
  induction fuel as [|fuel IH]; intros t H; simpl.
  - apply fails_throw.
  - apply fails_transformTree; assumption.
Qed.

Lemma sound_total_outcome {A} (m : T A) s :
  soundAny m -> total m ->
  match m s with
  | (Ok _, s') => stack s' = stack s
  | (Throw f, _) => unexpected f
  end.
Proof.
  intros Hs Ht. specialize (Hs s). specialize (Ht s).
  destruct Hs as [_ Hs]. destruct (m s) as [[a|f] s']; simpl in *.
  - exact Hs.
  - destruct f as [msg|]; [apply Hs|congruence].
Qed.

Lemma transformClassShared_decides fuel tree superClass elements name s :
  classHeight superClass elements <= fuel ->
  if classOk superClass elements then
    exists call flag s',
      transformClassShared_ superTransformer
        (transformAny superTransformer blockBinding fuel)
        tree superClass elements name s = (Ok (call, flag), s')
  else
    exists f s',
      transformClassShared_ superTransformer
        (transformAny superTransformer blockBinding fuel)
        tree superClass elements name s = (Throw f, s') /\
      unexpected f.
Proof.
  intros Hh. unfold classOk.
  destruct (match superClass with Some x => classesOk x | None => true end &&
            forallb isClassElement elements && forallb classesOk elements)
    eqn:C.
  - apply andb_prop in C. destruct C as [C C3].
    apply andb_prop in C. destruct C as [C1 C2].
    assert (Q : quiet
                  (transformClassShared_ superTransformer
                     (transformAny superTransformer blockBinding fuel)
                     tree superClass elements name)).
    { apply quiet_transformClassShared_; try assumption.
      apply quiet_transformAny. }
    specialize (Q s).
    destruct (transformClassShared_ superTransformer
                (transformAny superTransformer blockBinding fuel)
                tree superClass elements name s)
      as [[[call flag]|f] s'] eqn:E; [eauto|].
    exfalso. apply (Q f); [reflexivity|].
    eapply shared_throw; eauto.
  - assert (F : fails
                  (transformClassShared_ superTransformer
                     (transformAny superTransformer blockBinding fuel)
                     tree superClass elements name)).
    { apply fails_transformClassShared_; [|exact C].
      apply fails_transformAny. }
    destruct (F s) as [f Hf].
    destruct (transformClassShared_ superTransformer
                (transformAny superTransformer blockBinding fuel)
                tree superClass elements name s)
      as [[r|f'] s'] eqn:E; [discriminate|].
    exists f', s'. split; [reflexivity|]. eapply shared_throw; eauto.
Qed.

End ClassTransformerOutcome.

(** ** What is on the stack when a transformation starts *)

Section ClassTransformerFrame.
Import ClassTransformer ClassFacts ClassElements ParseTreeFactory.
Variable superTransformer :
  option ParseTree -> ParseTree -> ParseTree -> ParseTree * bool.
Variable blockBinding : bool.

Lemma framed_ret {A} (a : A) : framed (ret a).
Proof. intros stale s. reflexivity. Qed.

Lemma framed_throw {A} f : framed (throw f : T A).
Proof. intros stale s. reflexivity. Qed.

Lemma framed_bind {A B} (m : T A) (k : A -> T B) :
  framed m -> (forall a, framed (k a)) -> framed (bind m k).
Proof.
  intros Hm Hk stale s. rewrite !bind_eq, Hm.
  destruct (m s) as [[a|e] s1]; cbn [fst snd]; [apply Hk|reflexivity].
Qed.

Lemma framed_mapM {A B} (f : A -> T B) (l : list A) :
  (forall x, framed (f x)) -> framed (mapM f l).
Proof.
  intros Hf. induction l as [|x l IH]; simpl; [apply framed_ret|].
  apply framed_bind; [apply Hf|]. intros y.
  apply framed_bind; [exact IH|]. intros ys. apply framed_ret.
Qed.

Lemma framedMember_any {A} (m : T A) : framed m -> framedMember m.
Proof. intros Hm stale s a rest _ _. apply Hm. Qed.

Lemma framedMember_ret {A} (a : A) : framedMember (ret a).
Proof. apply framedMember_any, framed_ret. Qed.

Lemma framedMember_bind {A B} (m : T A) (k : A -> T B) :
  framedMember m -> soundMember m -> (forall a, framedMember (k a)) ->
  framedMember (bind m k).
Proof.
  intros Hm Sm Hk stale s a rest Hs Ha.
  rewrite !bind_eq, (Hm stale s a rest Hs Ha).
  specialize (Sm s a rest Hs Ha).
  destruct (m s) as [[x|e] s1]; cbn [fst snd] in *; [|reflexivity].
  destruct Sm as [R S]. simpl in R, S.
  destruct (member_pre Hs Ha R S) as [Hs1 Ha1].
  apply (Hk x stale s1 a rest Hs1 Ha1).
Qed.

Lemma framedMember_mapM {A B} (f : A -> T B) (l : list A) :
  (forall x, framedMember (f x)) -> (forall x, soundMember (f x)) ->
  framedMember (mapM f l).
Proof.
  intros Hf Sf. induction l as [|x l IH]; simpl; [apply framedMember_ret|].
  apply framedMember_bind; [apply Hf|apply Sf|]. intros y.
  apply framedMember_bind;
    [exact IH|apply soundMember_mapM; exact Sf|].
  intros ys. apply framedMember_ret.
Qed.

Lemma framed_addTempVar : framed addTempVar.
Proof. intros stale s. reflexivity. Qed.

Lemma framed_removeTempVar v : framed (removeTempVar v).
Proof. intros stale s. reflexivity. Qed.

Section Open.
Variable tAny : ParseTree -> T ParseTree.
Hypothesis tAny_sound : forall t, soundAny (tAny t).
Hypothesis tAny_framed : forall t, framed (tAny t).

Lemma framed_transformAnyOpt o : framed (transformAnyOpt tAny o).
Proof.
  destruct o as [t|]; simpl; [|apply framed_ret].
  apply framed_bind; [apply tAny_framed|]. intros. apply framed_ret.
Qed.

Lemma framedMember_transformSuperInBlock_ methodTree t :
  framedMember (transformSuperInBlock_ superTransformer tAny methodTree t).
Proof.
  intros stale s a rest Hs Ha.
  destruct (nth_error (heap s) a) as [o|] eqn:E;
    [|apply nth_error_None in E; lia].
  rewrite (@transformSuperInBlock_eq superTransformer tAny methodTree t s a
             rest o Hs E).
  rewrite (@transformSuperInBlock_eq superTransformer tAny methodTree t
             (below stale s) a (rest ++ stale) o);
    [|unfold below; cbn [stack]; rewrite Hs; reflexivity|exact E].
  rewrite tAny_framed.
  destruct (tAny t s) as [[t'|e] s1]; cbn [fst snd]; [|reflexivity].
  unfold flagged, below. cbn [heap stack tempVars identifierGenerator].
  destruct (nth_error (heap s1) a) eqn:E1;
    destruct (snd (superTransformer (name o) methodTree t'));
    cbn [fst snd heap stack tempVars identifierGenerator];
    rewrite ?E1; reflexivity.
Qed.

Ltac member_steps :=
  repeat first
    [ apply framedMember_ret
    | apply framedMember_bind;
      [ first [ apply framedMember_transformSuperInBlock_
              | apply framedMember_any, tAny_framed ]
      | first [ apply soundMember_transformSuperInBlock_; exact tAny_sound
              | apply soundMember_any, tAny_sound ]
      | intros ] ].

Lemma framedMember_transformConstructor_ l n g p b :
  framedMember (transformConstructor_ superTransformer tAny l n g p b).
Proof. unfold transformConstructor_. member_steps. Qed.

Lemma framedMember_transformElement e :
  framedMember (transformElement superTransformer tAny e).
Proof.
  destruct e; cbv beta iota delta [transformElement];
    try (apply framedMember_any, framed_throw).
  - apply framedMember_bind;
      [|apply soundMember_transformGetAccessor_; exact tAny_sound
       |intros; apply framedMember_ret].
    unfold transformGetAccessor_. member_steps.
    destruct (ParseTree_eqb _ _); apply framedMember_ret.
  - destruct (String.eqb _ CONSTRUCTOR).
    + apply framedMember_bind;
        [apply framedMember_transformConstructor_
        |apply soundMember_transformConstructor_; exact tAny_sound
        |intros; apply framedMember_ret].
    + apply framedMember_bind;
        [|apply soundMember_transformPropertyMethodAssignment_;
          exact tAny_sound
         |intros; apply framedMember_ret].
      unfold transformPropertyMethodAssignment_. member_steps.
      destruct (_ && _); apply framedMember_ret.
  - apply framedMember_bind;
      [|apply soundMember_transformSetAccessor_; exact tAny_sound
       |intros; apply framedMember_ret].
    unfold transformSetAccessor_. member_steps.
    destruct (ParseTree_eqb _ _); apply framedMember_ret.
Qed.

Lemma framedMember_members tree elements :
  framedMember (members superTransformer tAny tree elements).
Proof.
  unfold members. apply framedMember_bind.
  - apply framedMember_mapM.
    + apply framedMember_transformElement.
    + apply soundMember_transformElement. exact tAny_sound.
  - apply soundMember_mapM. apply soundMember_transformElement.
    exact tAny_sound.
  - intros results. destruct (lastConstructor results).
    + apply framedMember_ret.
    + apply framedMember_bind;
        [apply framedMember_transformConstructor_
        |apply soundMember_transformConstructor_; exact tAny_sound
        |intros; apply framedMember_ret].
Qed.

Lemma framed_transformClassShared_ tree superClass elements name :
  framed
    (transformClassShared_ superTransformer tAny tree superClass elements name).
Proof.
  intros stale s. rewrite !transformClassShared_eq.
  rewrite (framed_transformAnyOpt superClass stale s).
  destruct (transformAnyOpt tAny superClass s) as [[sc'|e] s1];
    cbn [fst snd]; [|reflexivity].
  change (entered tree name (below stale s1))
    with (below stale (entered tree name s1)).
  rewrite (@framedMember_members tree elements stale (entered tree name s1)
             (List.length (heap s1)) (stack s1));
    [|reflexivity|unfold entered; cbn [heap]; rewrite length_app; simpl; lia].
  pose proof (@outcome_members superTransformer tAny tAny_sound tree name
                elements s1) as [_ S2].
  destruct (members superTransformer tAny tree elements
              (entered tree name s1)) as [[[elements' hc]|e] s2];
    cbn [fst snd] in *; [|reflexivity].
  cbn [below heap stack tempVars identifierGenerator].
  rewrite S2. cbn [entered stack app tl].
  destruct (nth_error (heap s2) (List.length (heap s1))); reflexivity.
Qed.

Lemma framed_transformClassDeclaration l n superClass elements :
  framed
    (transformClassDeclaration superTransformer blockBinding tAny l n
       superClass elements).
Proof.
  unfold transformClassDeclaration.
  apply framed_bind; [apply framed_transformClassShared_|].
  intros. apply framed_ret.
Qed.

Lemma framed_transformClassExpression l n superClass elements :
  framed
    (transformClassExpression superTransformer tAny l n superClass elements).
Proof.
  unfold transformClassExpression.
  apply framed_bind; [apply framed_addTempVar|]. intros tempIdent.
  apply framed_bind; [apply framed_transformClassShared_|].
  intros [call flag]. cbn [fst snd]. destruct flag; [apply framed_ret|].
  apply framed_bind; [apply framed_removeTempVar|]. intros.
  apply framed_ret.
Qed.

Lemma framed_transformTree t :
  framed (transformTree superTransformer blockBinding tAny t).
Proof.
  destruct t; cbv beta iota delta [transformTree];
    try apply framed_transformClassDeclaration;
    try apply framed_transformClassExpression;
    repeat first
      [ apply framed_ret
      | apply tAny_framed
      | apply framed_transformAnyOpt
      | apply framed_mapM; intros
      | apply framed_bind; [|intros] ].
Qed.

End Open.

Lemma framed_transformAny fuel :
  forall t, framed (transformAny superTransformer blockBinding fuel t).
Proof.
  induction fuel as [|fuel IH]; intros t; simpl; [apply framed_throw|].
  apply framed_transformTree; [apply soundAny_transformAny|exact IH].
Qed.

(** A transformation that starts with entries on the stack returns what it
    returns with other entries there, and leaves the entries and the class
    contexts it found as they are. *)
Lemma transformAny_over fuel t s entries :
  fst (transformAny superTransformer blockBinding fuel t s)
  = fst (transformAny superTransformer blockBinding fuel t
           (withStack entries s)) /\
  forall t' s',
    transformAny superTransformer blockBinding fuel t s = (Ok t', s') ->
    stack s' = stack s /\
    (forall i o, nth_error (heap s) i = Some o ->
            nth_error (heap s') i = Some o) /\
    transformAny superTransformer blockBinding fuel t (withStack entries s)
    = (Ok t', withStack entries s').
Proof.
  assert (Es : forall entries0,
             withStack entries0 s = below entries0 (withStack [] s)).
  { intros entries0. reflexivity. }
  assert (E0 : s = below (stack s) (withStack [] s)).
  { destruct s; reflexivity. }
  pose proof (framed_transformAny fuel t (stack s) (withStack [] s)) as F.
  rewrite <- E0 in F.
  pose proof (framed_transformAny fuel t entries (withStack [] s)) as G.
  rewrite <- Es in G.
  pose proof (soundAny_transformAny superTransformer blockBinding fuel t
                (withStack [] s)) as [_ S0].
  pose proof (soundAny_transformAny superTransformer blockBinding fuel t s)
    as [[C _] S].
  split; [rewrite F, G; reflexivity|].
  intros t' s' E. rewrite E in C, S. simpl in C, S.
  split; [exact S|]. split.
  - intros i o Hi. destruct (C i o Hi) as (o' & Hi' & _ & _ & _ & Heq).
    rewrite Hi'. f_equal. apply Heq. tauto.
  - rewrite G. rewrite F in E.
    destruct (transformAny superTransformer blockBinding fuel t
                (withStack [] s)) as [[x|e] s0]; [|discriminate].
    simpl in S0. cbn [fst snd] in *. inversion E; subst. f_equal.
    unfold withStack, below. cbn [heap stack tempVars identifierGenerator].
    destruct s0 as [h st tv ig]. simpl in S0. subst st. reflexivity.
Qed.

End ClassTransformerFrame.

(** * The properties of the class transformer *)

Section ClassClaims.
Import ClassTransformer ClassFacts ClassElements ParseTreeFactory.

(** C5.  With the recursion budget of the class, [transformClassShared_]
    returns the call of the runtime for a class whose elements are
    accessors and methods, and it throws the error of an unexpected class
    element for another class.  The call it generates for a class without
    a superclass expression passes the null literal as the superclass and
    [false] as the has-superclass flag; for a class with a superclass
    expression it passes the transformed expression and [true]. *)
Theorem C5_superclass_arguments :
  forall superTransformer blockBinding fuel tree superClass elements name s,
    classHeight superClass elements <= fuel ->
    if classOk superClass elements then
      exists call flag s',
        transformClassShared_ superTransformer
          (transformAny superTransformer blockBinding fuel)
          tree superClass elements name s = (Ok (call, flag), s') /\
        match superClass with
        | None =>
            exists elements' hasConstructor,
              call = createClassCall elements' createNullLiteral
                       hasConstructor false
        | Some c =>
            exists c' s1 elements' hasConstructor,
              transformAny superTransformer blockBinding fuel c s
              = (Ok c', s1) /\
              call = createClassCall elements' c' hasConstructor true
        end
    else
      exists f s',
        transformClassShared_ superTransformer
          (transformAny superTransformer blockBinding fuel)
          tree superClass elements name s = (Throw f, s') /\
        unexpected f.
Proof.
  intros st bb fuel tree superClass elements name s Hh.
  pose proof (@transformClassShared_decides st bb fuel tree superClass
                elements name s Hh) as D.
  destruct (classOk superClass elements); [|exact D].
  destruct D as (call & flag & s' & E).
  exists call, flag, s'. split; [exact E|].
  apply transformClassShared_ok in E.
  destruct E as (sc' & s1 & elements' & hc & s2 & o & E1 & _ & _ & Ec & _).
  destruct superClass as [c|]; simpl in E1.
  - apply bind_ok in E1. destruct E1 as (c' & s1' & Hc & E1).
    inversion E1; subst. exists c', s1, elements', hc. auto.
  - inversion E1; subst. exists elements', hc. reflexivity.
Qed.

(** C1, as amended.  With the recursion budget of the class,
    [transformClassShared_] returns the call of the runtime for a class
    whose elements are accessors and methods, and it throws the error of an
    unexpected class element for another class.  For a class without a
    constructor of the user, whether or not it has a superclass expression,
    the object literal of the call ends with a synthesized constructor,
    [constructor(...args) { super(...args); }] after the constructor
    transform, and the has-user-constructor flag is [false]; for a class
    with a constructor of the user nothing is appended and the flag is
    [true]. *)
Theorem C1_default_constructor :
  forall superTransformer blockBinding fuel tree superClass elements name s,
    classHeight superClass elements <= fuel ->
    if classOk superClass elements then
      exists call flag s' transformed superClass',
        transformClassShared_ superTransformer
          (transformAny superTransformer blockBinding fuel)
          tree superClass elements name s = (Ok (call, flag), s') /\
        List.length transformed = List.length elements /\
        call =
          if hasUserConstructor elements then
            createClassCall transformed superClass' true
              match superClass with Some _ => true | None => false end
          else
            createClassCall
              (transformed ++
               [synthesized superTransformer
                  (Some (createIdentifierExpression name))])
              superClass' false
              match superClass with Some _ => true | None => false end
    else
      exists f s',
        transformClassShared_ superTransformer
          (transformAny superTransformer blockBinding fuel)
          tree superClass elements name s = (Throw f, s') /\
        unexpected f.
Proof.
  intros st bb fuel tree superClass elements name s Hh.
  pose proof (@transformClassShared_decides st bb fuel tree superClass
                elements name s Hh) as D.
  destruct (classOk superClass elements); [|exact D].
  destruct D as (call & flag & s' & E). pose proof E as E0.
  apply transformClassShared_ok in E.
  destruct E as (sc' & s1 & elements' & hc & s2 & o & E1 & E2 & _ & Ec & _).
  apply members_ok in E2; [|unfold classHeight in Hh; lia].
  destruct E2 as (Hhc & transformed & Hlen & He).
  exists call, flag, s', transformed,
    (match sc' with Some c => c | None => createNullLiteral end).
  split; [exact E0|]. split; [exact Hlen|].
  subst call elements'. rewrite <- Hhc.
  assert (Hsc : match sc' with Some _ => true | None => false end
                = match superClass with Some _ => true | None => false end).
  { destruct superClass as [c|]; simpl in E1.
    - apply bind_ok in E1. destruct E1 as (c' & s1' & _ & E1).
      inversion E1; reflexivity.
    - inversion E1; reflexivity. }
  rewrite Hsc. destruct hc; reflexivity.
Qed.

(** C8.  When the super rewrite returns the body of a set accessor as it
    was, [transformSetAccessor_] returns the set accessor it was given,
    whatever the transformation of the parameter produced. *)
Theorem C8_set_accessor_unchanged :
  forall superTransformer transformAny location propertyName parameter body
         s parameter' s1 s2,
    transformAny parameter s = (Ok parameter', s1) ->
    transformSuperInBlock_ superTransformer transformAny
      (SetAccessor location propertyName parameter body) body s1
    = (Ok body, s2) ->
    transformSetAccessor_ superTransformer transformAny location propertyName
      parameter body s
    = (Ok (SetAccessor location propertyName parameter body), s2).
Proof.
  intros st tAny l pn p b s p' s1 s2 Hp Hb.
  unfold transformSetAccessor_. rewrite bind_eq, Hp, bind_eq, Hb.
  unfold ParseTree_eqb. destruct (ParseTree_eq_dec b b); [reflexivity|].
  congruence.
Qed.

(** C9, as amended.  When a member of the class is of a kind
    [transformClassShared_] has no case for, the transform throws the error
    of an unexpected class element with the stack longer than it found it:
    the class context pushed for the class is still on it when the
    superclass expression was transformed.  A later [transformAny] does not
    look at these entries: it returns what it returns from the stack the
    failing transform had found, and it leaves the entries on the stack and
    the class contexts as they are. *)
Theorem C9_unexpected_element_leaves_context :
  forall superTransformer blockBinding fuel tree superClass elements name s,
    classHeight superClass elements <= fuel ->
    existsb (fun e => negb (isClassElement e)) elements = true ->
    exists f s',
      transformClassShared_ superTransformer
        (transformAny superTransformer blockBinding fuel)
        tree superClass elements name s = (Throw f, s') /\
      unexpected f /\
      (exists extra, extra <> [] /\ stack s' = extra ++ stack s) /\
      (forall superClass' s1,
          transformAnyOpt (transformAny superTransformer blockBinding fuel)
            superClass s = (Ok superClass', s1) ->
          exists extra o,
            stack s' = extra ++ List.length (heap s1) :: stack s /\
            nth_error (heap s') (List.length (heap s1)) = Some o /\
            ClassTransformer.tree o = tree) /\
      (forall fuel' later,
          fst (transformAny superTransformer blockBinding fuel' later s')
          = fst (transformAny superTransformer blockBinding fuel' later
                   (withStack (stack s) s')) /\
          forall later' s'',
            transformAny superTransformer blockBinding fuel' later s'
            = (Ok later', s'') ->
            stack s'' = stack s' /\
            (forall i o, nth_error (heap s') i = Some o ->
                    nth_error (heap s'') i = Some o) /\
            transformAny superTransformer blockBinding fuel' later
              (withStack (stack s) s')
            = (Ok later', withStack (stack s) s'')).
Proof.
  intros st bb fuel tree superClass elements name s Hh Hex.
  destruct (transformClassShared_ _ _ tree superClass elements name s)
    as [[[call flag]|f] s'] eqn:E.
  { exfalso. apply transformClassShared_ok in E.
    destruct E as (sc' & s1 & elements' & hc & s2 & o & _ & E2 & _).
    unfold members in E2. apply bind_ok in E2.
    destruct E2 as (results & s4 & Hm & _).
    assert (F : Forall2 (fun e (r : ParseTree * option ParseTree) =>
                           isClassElement e = true) elements results).
    { eapply mapM_ok_Forall2; [|exact Hm].
      intros x s0 y s0' Hx. apply transformElement_ok in Hx. tauto. }
    apply existsb_exists in Hex. destruct Hex as (e & Hin & He).
    clear - F Hin He. induction F as [|x r xs rs Hx _ IH]; [destruct Hin|].
    destruct Hin as [->|Hin]; [|auto].
    rewrite Hx in He. discriminate. }
  exists f, s'. split; [reflexivity|].
  pose proof E as X0. eapply shared_throw in X0; [|exact Hh].
  destruct X0 as [U X].
  split; [exact U|]. split; [exact X|]. split.
  - intros sc' s1 E1. rewrite transformClassShared_eq, E1 in E.
    pose proof (@soundAny_transformAnyOpt (transformAny st bb fuel)
                  (soundAny_transformAny st bb fuel) superClass s)
      as [_ S1].
    rewrite E1 in S1. simpl in S1.
    destruct (members st (transformAny st bb fuel) tree elements
                (entered tree name s1)) as [[[elements' hc]|e] s2] eqn:E2.
    + pose proof E2 as X2. apply members_entered in X2.
      destruct X2 as (_ & o & Ho & _). rewrite Ho in E. discriminate.
    + inversion E; subst e s2.
      pose proof E2 as X2. apply members_entered in X2.
      destruct X2 as (_ & o & Ho & Ht & _).
      pose proof (@outcome_members st (transformAny st bb fuel)
                    (soundAny_transformAny st bb fuel) tree name elements s1)
        as [_ S2].
      rewrite E2 in S2. simpl in S2. destruct U as [t ->].
      destruct S2 as (_ & extra & _ & Hst).
      exists extra, o. split; [|auto].
      rewrite Hst. unfold entered. cbn [stack]. rewrite S1. reflexivity.
  - intros fuel' later. apply transformAny_over.
Qed.


End ClassClaims.
Section ClassClaims2.
Import ClassTransformer ClassFacts ClassElements ParseTreeFactory.


End ClassClaims2.

(** * More properties of the class transformer *)

Section ClassCoverage.
Import ClassTransformer ClassFacts ClassElements ParseTreeFactory.

(** X1.  With the recursion budget of the tree, [transformAny] returns,
    with the stack as it found it, when every class of the tree, at
    whatever depth, has accessors and methods only as elements; it throws
    the error of an unexpected class element when some class has an element
    of another kind. *)
Theorem transform_returns_iff_classes_are_well_formed :
  forall superTransformer blockBinding fuel t s,
    height t <= fuel ->
    match transformAny superTransformer blockBinding fuel t s with
    | (Ok _, s') => classesOk t = true /\ stack s' = stack s
    | (Throw f, _) => classesOk t = false /\ unexpected f
    end.
Proof.
  intros superTransformer blockBinding fuel t s Hh.
  pose proof (@sound_total_outcome _
                (transformAny superTransformer blockBinding fuel t) s
                (soundAny_transformAny superTransformer blockBinding fuel t)
                (@total_transformAny superTransformer blockBinding fuel t Hh))
    as O.
  destruct (classesOk t) eqn:C.
  - pose proof (@quiet_transformAny superTransformer blockBinding fuel t C s)
      as Q.
    destruct (transformAny superTransformer blockBinding fuel t s)
      as [[a|f] s']; [auto|]. exfalso. apply (Q f); [reflexivity|exact O].
  - destruct (@fails_transformAny superTransformer blockBinding fuel t C s)
      as [f F].
    destruct (transformAny superTransformer blockBinding fuel t s)
      as [[a|f'] s']; [discriminate|]. auto.
Qed.

End ClassCoverage.

(** ** The object literal of a class *)

Section ClassCoverageShapes.
Import ClassTransformer ClassFacts ClassElements ParseTreeFactory.

(** X2.  With the recursion budget of the class, [transformClassShared_]
    returns the call of the runtime for a class whose elements are
    accessors and methods, and the object literal of the call holds the
    elements of the class in their order, each transformed from the state
    the element before it left, the first one from the state the class
    context of the class was pushed in.  The parameters and the body of an
    element went through [transformAny], and the body then through the
    super rewrite, which was given the identifier expression of the name
    the class is transformed under and the element itself; an accessor or a
    method is an accessor or a method of the same kind, location and name,
    and each constructor of the user is a property [constructor] that holds
    a function expression.  For another class the transform throws the
    error of an unexpected class element. *)
Theorem class_elements_keep_their_order :
  forall superTransformer blockBinding fuel tree superClass elements name s,
    classHeight superClass elements <= fuel ->
    if classOk superClass elements then
      exists call flag s' superClass' s1 properties c hasConstructor
             hasExtendsExpression,
        transformClassShared_ superTransformer
          (transformAny superTransformer blockBinding fuel)
          tree superClass elements name s = (Ok (call, flag), s') /\
        transformAnyOpt (transformAny superTransformer blockBinding fuel)
          superClass s = (Ok superClass', s1) /\
        call = createClassCall properties c hasConstructor
                 hasExtendsExpression /\
        loweredFrom superTransformer
          (transformAny superTransformer blockBinding fuel)
          (Some (createIdentifierExpression name))
          elements (firstn (List.length elements) properties)
          (entered tree name s1)
    else
      exists f s',
        transformClassShared_ superTransformer
          (transformAny superTransformer blockBinding fuel)
          tree superClass elements name s = (Throw f, s') /\
        unexpected f.
Proof.
  intros superTransformer blockBinding fuel tree superClass elements name s
    Hh.
  pose proof (@transformClassShared_decides superTransformer blockBinding
                fuel tree superClass elements name s Hh) as D.
  destruct (classOk superClass elements); [|exact D].
  destruct D as (call & flag & s' & E). pose proof E as E0.
  apply transformClassShared_ok in E.
  destruct E as (superClass' & s1 & elements' & hasConstructor & s2 & o &
                 E1 & Hm & _ & -> & _).
  eexists. exists flag, s', superClass', s1. do 4 eexists.
  split; [exact E0|]. split; [exact E1|]. split; [reflexivity|].
  eapply members_lowered. exact Hm.
Qed.

End ClassCoverageShapes.

(** ** The class transformer on examples

    The examples are run with the super rewrite [SuperTransformer.transformAny]
    and function-scoped bindings, from the state [fresh] of a transformer
    that has transformed nothing yet. *)

Section ClassExamples.
Import ClassTransformer ClassFacts ClassElements ParseTreeFactory.

(** C5, at [class C extends B {}] and at [class C { constructor() {} }]. *)
Lemma C5_witness :
  (exists call flag s',
      transformClassShared_ SuperTransformer.transformAny (run 7)
        (ClassDeclaration None (mkBindingIdentifier None "C") (Some identB)
           [])
        (Some identB) [] "C" fresh = (Ok (call, flag), s') /\
      exists c' s1 elements' hasConstructor,
        run 7 identB fresh = (Ok c', s1) /\
        call = createClassCall elements' c' hasConstructor true) /\
  (exists call flag s',
      transformClassShared_ SuperTransformer.transformAny (run 7)
        (ClassDeclaration None (mkBindingIdentifier None "C") None
           [emptyConstructor])
        None [emptyConstructor] "C" fresh = (Ok (call, flag), s') /\
      exists elements' hasConstructor,
        call = createClassCall elements' createNullLiteral hasConstructor
                 false).
Proof.
  split.
  - apply (@C5_superclass_arguments SuperTransformer.transformAny false 7
             (ClassDeclaration None (mkBindingIdentifier None "C")
                (Some identB) [])
             (Some identB) [] "C" fresh).
    vm_compute; lia.
  - apply (@C5_superclass_arguments SuperTransformer.transformAny false 7
             (ClassDeclaration None (mkBindingIdentifier None "C") None
                [emptyConstructor])
             None [emptyConstructor] "C" fresh).
    vm_compute; lia.
Defined.

(** C1, as stated, fails at [class C {}]: the class has no superclass
    expression, the call passes the null literal and [false] for it, and
    the object literal holds the synthesized constructor all the same. *)
Lemma C1_counterexample :
  transformClassShared_ SuperTransformer.transformAny (run 7)
    (ClassDeclaration None (mkBindingIdentifier None "C") None [])
    None [] "C" fresh
  = (Ok (createClassCall
           [synthesized SuperTransformer.transformAny
              (Some (createIdentifierExpression "C"))]
           createNullLiteral false false,
         true),
     mkTransformer
       [mkState (ClassDeclaration None (mkBindingIdentifier None "C") None [])
          (Some (createIdentifierExpression "C")) true]
       [] [] 0).
Proof. vm_compute. reflexivity. Qed.

(** C1, as amended, at [class C {}], where the synthesized constructor is
    appended, and at [class C { constructor() {} }], where nothing is. *)
Lemma C1_witness :
  (exists call flag s' transformed superClass',
      transformClassShared_ SuperTransformer.transformAny (run 7)
        (ClassDeclaration None (mkBindingIdentifier None "C") None [])
        None [] "C" fresh = (Ok (call, flag), s') /\
      List.length transformed = 0 /\
      call =
        createClassCall
          (transformed ++
           [synthesized SuperTransformer.transformAny
              (Some (createIdentifierExpression "C"))])
          superClass' false false) /\
  (exists call flag s' transformed superClass',
      transformClassShared_ SuperTransformer.transformAny (run 7)
        (ClassDeclaration None (mkBindingIdentifier None "C") None
           [emptyConstructor])
        None [emptyConstructor] "C" fresh = (Ok (call, flag), s') /\
      List.length transformed = 1 /\
      call = createClassCall transformed superClass' true false) /\
  fst (transformClassShared_ SuperTransformer.transformAny (run 7)
         (ClassDeclaration None (mkBindingIdentifier None "C") None
            [emptyConstructor])
         None [emptyConstructor] "C" fresh)
  = Ok (createClassCall
          [PropertyNameAssignment None CONSTRUCTOR
             (FunctionDeclaration None None false
                (FormalParameterList None []) (Block None []))]
          createNullLiteral true false,
        false).
Proof.
  split; [|split].
  - apply (@C1_default_constructor SuperTransformer.transformAny false 7
             (ClassDeclaration None (mkBindingIdentifier None "C") None [])
             None [] "C" fresh).
    vm_compute; lia.
  - apply (@C1_default_constructor SuperTransformer.transformAny false 7
             (ClassDeclaration None (mkBindingIdentifier None "C") None
                [emptyConstructor])
             None [emptyConstructor] "C" fresh).
    vm_compute; lia.
  - vm_compute. reflexivity.
Defined.



(** C8, at [set x(v = class { constructor() {} }) {}] in a class named [C],
    where the transformation of the parameter produces another node. *)
Lemma C8_witness :
  exists parameter' s1 s2,
    run 9 classParameter inClassC = (Ok parameter', s1) /\
    parameter' <> classParameter /\
    transformSetAccessor_ SuperTransformer.transformAny (run 9) None "x"
      classParameter (Block None []) inClassC
    = (Ok (SetAccessor None "x" classParameter (Block None [])), s2).
Proof.
  eexists. eexists. eexists.
  split; [vm_compute; reflexivity|]. split; [discriminate|].
  eapply C8_set_accessor_unchanged; vm_compute; reflexivity.
Defined.

(** C9, as stated, fails at [class C { constructor() {} this }] followed
    by [class { constructor() { super(); } }]: the first transform throws
    and leaves its class context, the object 0, on the stack; the second
    returns, and returns what it returns without that entry; it sets the
    flag of its own class context, the object 1, and leaves the object 0
    and the stack as they were. *)
Lemma C9_counterexample :
  fst (transformClassShared_ SuperTransformer.transformAny (run 7)
         (ThisExpression None) None [emptyConstructor; ThisExpression None]
         "C" fresh)
  = Throw (JsError "Unexpected class element: THIS_EXPRESSION") /\
  stack afterFailure = [0] /\
  nth_error (heap afterFailure) 0
  = Some (mkState (ThisExpression None)
            (Some (createIdentifierExpression "C")) false) /\
  thrown (fst (run 9 superClassExpression afterFailure)) = None /\
  fst (run 9 superClassExpression afterFailure)
  = fst (run 9 superClassExpression (withStack [] afterFailure)) /\
  snd (run 9 superClassExpression (withStack [] afterFailure))
  = withStack [] (snd (run 9 superClassExpression afterFailure)) /\
  stack (snd (run 9 superClassExpression afterFailure)) = [0] /\
  nth_error (heap (snd (run 9 superClassExpression afterFailure))) 0
  = nth_error (heap afterFailure) 0 /\
  option_map hasSuper
    (nth_error (heap (snd (run 9 superClassExpression afterFailure))) 1)
  = Some true.
Proof. vm_compute. repeat split; reflexivity. Qed.

(** C9, as amended, at [class C { constructor() {} this }], the second
    member being an expression the parser should not have put there, with
    [class { constructor() { super(); } }] transformed next. *)
Lemma C9_witness :
  exists f s',
    transformClassShared_ SuperTransformer.transformAny (run 7)
      (ThisExpression None) None [emptyConstructor; ThisExpression None] "C"
      fresh = (Throw f, s') /\
    unexpected f /\ stack s' = [0] /\
    fst (run 9 superClassExpression s')
    = fst (run 9 superClassExpression (withStack [] s')) /\
    exists later' s'',
      run 9 superClassExpression s' = (Ok later', s'') /\
      stack s'' = [0] /\
      run 9 superClassExpression (withStack [] s')
      = (Ok later', withStack [] s'').
Proof.
  destruct (@C9_unexpected_element_leaves_context
              SuperTransformer.transformAny false 7 (ThisExpression None) None
              [emptyConstructor; ThisExpression None] "C" fresh)
    as (f & s' & E & U & _ & _ & L); [vm_compute; lia|reflexivity|].
  exists f, s'. split; [exact E|]. split; [exact U|].
  destruct (L 9 superClassExpression) as [L1 L2].
  assert (S : stack s' = [0]).
  { vm_compute in E. inversion E. reflexivity. }
  split; [exact S|]. split; [exact L1|].
  assert (R : exists later' s'',
             run 9 superClassExpression s' = (Ok later', s'')).
  { vm_compute in E. inversion E. vm_compute. eexists. eexists.
    reflexivity. }
  destruct R as (later' & s'' & R). exists later', s''.
  destruct (L2 later' s'' R) as (S'' & _ & R0).
  split; [exact R|]. split; [congruence|exact R0].
Defined.


End ClassExamples.

(** ** More examples of the class transformer *)

Section ClassCoverageExamples.
Import ClassTransformer ClassFacts ClassElements ParseTreeFactory.

(** X1, at [class { constructor() {} }] and at a class expression with a
    statement among its elements. *)
Lemma transform_returns_iff_classes_are_well_formed_witness :
  (height plainClass <= 8 /\
   match transformAny SuperTransformer.transformAny false 8 plainClass fresh
   with
   | (Ok _, s') => classesOk plainClass = true /\ stack s' = stack fresh
   | (Throw f, _) => classesOk plainClass = false /\ unexpected f
   end) /\
  (height brokenClass <= 8 /\
   match transformAny SuperTransformer.transformAny false 8 brokenClass fresh
   with
   | (Ok _, s') => classesOk brokenClass = true /\ stack s' = stack fresh
   | (Throw f, _) => classesOk brokenClass = false /\ unexpected f
   end) /\
  thrown (fst (transformAny SuperTransformer.transformAny false 8 plainClass
                 fresh)) = None.
Proof.
  split; [|split]; [split; [vm_compute; lia|]|split; [vm_compute; lia|]|].
  - apply (@transform_returns_iff_classes_are_well_formed
             SuperTransformer.transformAny false 8 plainClass fresh).
    vm_compute; lia.
  - apply (@transform_returns_iff_classes_are_well_formed
             SuperTransformer.transformAny false 8 brokenClass fresh).
    vm_compute; lia.
  - vm_compute. reflexivity.
Defined.

(** X2, at [class { get x() {} constructor() {} }]. *)
Lemma class_elements_keep_their_order_witness :
  exists call flag s' superClass' s1 properties c hasConstructor
         hasExtendsExpression,
    transformClassShared_ SuperTransformer.transformAny (run 7)
      (ClassExpression None None None accessorElements) None accessorElements
      "C" fresh = (Ok (call, flag), s') /\
    transformAnyOpt (run 7) None fresh = (Ok superClass', s1) /\
    call = createClassCall properties c hasConstructor
             hasExtendsExpression /\
    loweredFrom SuperTransformer.transformAny (run 7)
      (Some (createIdentifierExpression "C"))
      accessorElements (firstn (List.length accessorElements) properties)
      (entered (ClassExpression None None None accessorElements) "C" s1).
Proof.
  apply (@class_elements_keep_their_order SuperTransformer.transformAny false
           7 (ClassExpression None None None accessorElements) None
           accessorElements "C" fresh).
  vm_compute; lia.
Defined.

End ClassCoverageExamples.

(** * Facts about the free variable checker *)

Section CheckerLoops.
Import FreeVariableChecker CheckerFacts.

(** ** Name maps *)

Lemma inMap_app {V} name (m1 m2 : NameMap V) :
  inMap name (m1 ++ m2) = inMap name m1 || inMap name m2.
Proof.
  induction m1 as [|[k v] m1 IH]; simpl; auto.
  destruct (String.eqb name k); auto.
Qed.

Lemma inMap_In {V} name (m : NameMap V) :
  inMap name m = true <-> In name (keys m).
Proof.
  induction m as [|[k v] m IH]; simpl.
  - split; [discriminate|tauto].
  - destruct (String.eqb_spec name k) as [->|Hne].
    + split; auto.
    + rewrite IH. split; [auto|]. intros [E|H]; [congruence|auto].
Qed.

Lemma lookup_app {V} name (m1 m2 : NameMap V) :
  lookup name (m1 ++ m2) =
  match lookup name m1 with
  | Some v => Some v
  | None => lookup name m2
  end.
Proof.
  induction m1 as [|[k v] m1 IH]; simpl; auto.
  destruct (String.eqb name k); auto.
Qed.

Lemma lookup_inMap {V} name (m : NameMap V) :
  inMap name m = match lookup name m with Some _ => true | None => false end.
Proof.
  induction m as [|[k v] m IH]; simpl; auto.
  destruct (String.eqb name k); auto.
Qed.

Lemma keys_app {V} (m1 m2 : NameMap V) : keys (m1 ++ m2) = keys m1 ++ keys m2.
Proof. apply map_app. Qed.

Lemma uniqueKeys_addKey {V} name (v : V) m :
  uniqueKeys m -> inMap name m = false -> uniqueKeys (addKey name v m).
Proof.
  unfold uniqueKeys, addKey. intros U H. rewrite keys_app. simpl.
  apply NoDup_app; [exact U| |].
  - constructor; [simpl; tauto|constructor].
  - intros k Hk [E|[]]. subst k. apply inMap_In in Hk. congruence.
Qed.

(** ** The sort of the diagnostics *)

Lemma insertError_perm e l : Permutation (insertError e l) (e :: l).
Proof.
  induction l as [|x l IH]; simpl; auto.
  destruct (compareErrors e x <? 0)%Z; auto.
  eapply perm_trans; [apply perm_skip; exact IH|]. apply perm_swap.
Qed.

Lemma insertError_sorted e l :
  Sorted byOffset l -> Sorted byOffset (insertError e l).
Proof.
  induction l as [|x l IH]; simpl; intros S.
  - repeat constructor.
  - destruct (Z.ltb_spec (compareErrors e x) 0) as [Hlt|Hge].
    + constructor; [exact S|]. constructor.
      unfold byOffset, compareErrors in *. lia.
    + apply Sorted_inv in S. destruct S as [S H].
      constructor; [auto|].
      destruct l as [|y l]; simpl.
      * constructor. unfold byOffset, compareErrors in *. lia.
      * destruct (compareErrors e y <? 0)%Z.
        -- constructor. unfold byOffset, compareErrors in *. lia.
        -- constructor. inversion H. assumption.
Qed.

Lemma sortErrors_perm l : Permutation (sortErrors l) l.
Proof.
  unfold sortErrors.
  assert (G : forall acc,
             Permutation (fold_left (fun sorted e => insertError e sorted) l
                 acc)
               (acc ++ l)).
  { induction l as [|e l IH]; intros acc; simpl.
    - rewrite app_nil_r. apply Permutation_refl.
    - eapply perm_trans; [apply IH|].
      eapply perm_trans;
        [apply Permutation_app_tail; apply insertError_perm|].
      simpl. apply Permutation_middle. }
  apply (G []).
Qed.

Lemma sortErrors_sorted l : Sorted byOffset (sortErrors l).
Proof.
  unfold sortErrors.
  assert (G : forall acc,
             Sorted byOffset acc ->
             Sorted byOffset
               (fold_left (fun sorted e => insertError e sorted) l acc)).
  { induction l as [|e l IH]; intros acc S; simpl; auto.
    apply IH. apply insertError_sorted. exact S. }
  apply G. constructor.
Qed.

(** ** The loop of [validateScope_] *)

Lemma validateLoop_root declarations names errors :
  validateLoop declarations names None errors =
  match firstGenerated (unresolved declarations names) with
  | Some name => Throw (notDefined name)
  | None => Ok (None, errors ++ diagnostics (unresolved declarations names))
  end.
Proof.
  revert errors. induction names as [|[name location] names IH];
    intros errors; simpl.
  - rewrite app_nil_r. reflexivity.
  - destruct (inMap name declarations); simpl; [apply IH|].
    destruct location as [range|]; [|reflexivity].
    rewrite IH. destruct (firstGenerated _); [reflexivity|].
    rewrite <- app_assoc. reflexivity.
Qed.

Lemma validateLoop_parent declarations names p errors :
  validateLoop declarations names (Some p) errors =
  Ok (Some (mkScope (promote declarations names (references p))
                    (FreeVariableChecker.declarations p)),
      errors).
Proof.
  revert p. induction names as [|[name location] names IH]; intros p; simpl.
  - destruct p; reflexivity.
  - destruct (inMap name declarations); simpl; [apply IH|].
    destruct (inMap name (references p)); [apply IH|].
    rewrite IH. reflexivity.
Qed.

Lemma promote_spec declarations names :
  forall parent,
    (exists r,
        promote declarations names parent = parent ++ r /\
        forall name, inMap name declarations = true -> inMap name r = false) /\
    (uniqueKeys parent -> uniqueKeys (promote declarations names parent)) /\
    forall name,
      lookup name (promote declarations names parent) =
      match lookup name parent with
      | Some location => Some location
      | None =>
          if inMap name declarations then None else lookup name names
      end.
Proof.
  induction names as [|[n l] names IH]; intros parent; simpl.
  - split; [exists []; rewrite app_nil_r; auto|]. split; [auto|].
    intros name. destruct (lookup name parent); auto.
    destruct (inMap name declarations); auto.
  - destruct (inMap n declarations) eqn:Ed; simpl.
    + destruct (IH parent) as (Hr & Hu & Hl). split; [exact Hr|].
      split; [exact Hu|]. intros name. rewrite Hl.
      destruct (lookup name parent); auto.
      destruct (inMap name declarations) eqn:En; auto.
      destruct (String.eqb_spec name n) as [->|_]; [congruence|auto].
    + destruct (inMap n parent) eqn:Ep.
      * destruct (IH parent) as (Hr & Hu & Hl). split; [exact Hr|].
        split; [exact Hu|]. intros name. rewrite Hl.
        destruct (lookup name parent) eqn:El; auto.
        destruct (inMap name declarations); auto.
        destruct (String.eqb_spec name n) as [->|_]; auto.
        rewrite lookup_inMap, El in Ep. discriminate.
      * destruct (IH (addKey n l parent)) as ((r & Hr & Hd) & Hu & Hl).
        split; [|split].
        -- exists ((n, l) :: r). split.
           ++ rewrite Hr. unfold addKey. rewrite <- app_assoc. reflexivity.
           ++ intros name Hn. simpl.
              destruct (String.eqb_spec name n) as [->|_]; [congruence|auto].
        -- intros U. apply Hu. apply uniqueKeys_addKey; auto.
        -- intros name. rewrite Hl. unfold addKey. rewrite lookup_app. simpl.
           destruct (lookup name parent) eqn:El; auto.
           destruct (String.eqb_spec name n) as [->|_].
           ++ rewrite Ed. reflexivity.
           ++ reflexivity.
Qed.

Lemma forEach_reportError_ errors c :
  forEach reportError_ errors c
  = (Ok tt, mkChecker (scope_ c) (reporter_ c ++ errors)).
Proof.
  revert c. induction errors as [|e errors IH]; intros c; simpl.
  - rewrite app_nil_r. destruct c; reflexivity.
  - rewrite bind_eq. unfold reportError_ at 1. rewrite IH. simpl.
    rewrite <- app_assoc. reflexivity.
Qed.

End CheckerLoops.

(** ** Visits *)

Section CheckerVisits.
Import FreeVariableChecker CheckerFacts.

Lemma grows_refl a : grows a a.
Proof. split; exists []; rewrite app_nil_r; reflexivity. Qed.

Lemma grows_trans a b c : grows a b -> grows b c -> grows a c.
Proof.
  intros [[r1 R1] [d1 D1]] [[r2 R2] [d2 D2]]. split.
  - exists (r1 ++ r2). rewrite R2, R1, app_assoc. reflexivity.
  - exists (d1 ++ d2). rewrite D2, D1, app_assoc. reflexivity.
Qed.

Lemma growsReferences_grows hidden a b : growsReferences hidden a b -> grows a
    b.
Proof.
  intros [D (r & R & _)]. split; [exists r; exact R|].
  exists []. rewrite app_nil_r. exact D.
Qed.

Lemma visits_ret : visits (ret tt).
Proof.
  intros scope parents reporter. simpl. exists scope.
  split; [reflexivity|]. split; [apply grows_refl|auto].
Qed.

Lemma visits_throw e : visits (throw e).
Proof. intros scope parents reporter. reflexivity. Qed.

Lemma visits_bind (m k : V unit) :
  visits m -> visits k -> visits (m ;; k).
Proof.
  intros Hm Hk scope parents reporter. rewrite bind_eq.
  specialize (Hm scope parents reporter).
  destruct (m (mkChecker (scope :: parents) reporter)) as [[[]|e] c1].
  - destruct Hm as (scope1 & -> & G1 & U1).
    specialize (Hk scope1 parents reporter).
    destruct (k (mkChecker (scope1 :: parents) reporter)) as [[[]|e] c2].
    + destruct Hk as (scope2 & -> & G2 & U2). exists scope2.
      split; [reflexivity|]. split; [eapply grows_trans; eauto|auto].
    + exact Hk.
  - exact Hm.
Qed.

Lemma visits_forEach {A} (f : A -> V unit) (l : list A) :
  (forall x, In x l -> visits (f x)) -> visits (forEach f l).
Proof.
  induction l as [|x l IH]; intros H; simpl.
  - apply visits_ret.
  - apply visits_bind; [apply H; left; reflexivity|].
    apply IH. intros y Hy. apply H. right. exact Hy.
Qed.

Lemma list_all_In {A} (P : A -> Prop) (l : list A) :
  list_all P l -> forall x, In x l -> P x.
Proof.
  intros X. induction X as [|a Ha l X IH]; intros x Hx; [destruct Hx|].
  destruct Hx as [->|Hx]; auto.
Qed.

Lemma list_all_fst {A} (P Q : A -> Prop) (l : list A) :
  list_all (fun x => P x /\ Q x) l -> list_all P l.
Proof.
  intros X. induction X as [|a [Ha _] l X IH]; constructor; assumption.
Qed.

Lemma option_all_fst {A} (P Q : A -> Prop) (o : option A) :
  option_all (fun x => P x /\ Q x) o -> option_all P o.
Proof. intros X. destruct X as [a [Ha _]|]; constructor; assumption. Qed.

(** What [visitVariableDeclarationList] does on an element of the list. *)
Lemma visitDeclaration_eq (d : ParseTree) :
  (declareVariableOpt_ (lvalueOf d) ;;
   match d with
   | VariableDeclaration _ _ initializer
   | BindingElement _ _ initializer => visitAnyOpt visitAny initializer
   | _ => ret tt
   end)
  = (declareVariableOpt_ (lvalueOf d) ;;
     visitAnyOpt visitAny (initializerOf d)).
Proof. destruct d; reflexivity. Qed.

Lemma visits_declareVariable_ name : visits (declareVariable_ name).
Proof.
  intros scope parents reporter. unfold declareVariable_. cbn [scope_].
  destruct (String.eqb (getVariableName name) "").
  - exists scope. split; [reflexivity|]. split; [apply grows_refl|auto].
  - destruct (inMap (getVariableName name) (declarations scope)).
    + exists scope. split; [reflexivity|]. split; [apply grows_refl|auto].
    + eexists. split; [reflexivity|]. split; [|auto].
      split; simpl; [exists []; rewrite app_nil_r; reflexivity|].
      eexists. reflexivity.
Qed.

Lemma visits_declareVariableOpt_ name : visits (declareVariableOpt_ name).
Proof.
  destruct name; simpl; [apply visits_declareVariable_|apply visits_ret].
Qed.

Lemma visits_visitIdentifierExpression location name :
  visits (visitIdentifierExpression location name).
Proof.
  intros scope parents reporter. unfold visitIdentifierExpression.
  cbn [scope_]. destruct (inMap name (references scope)) eqn:E.
  - exists scope. split; [reflexivity|]. split; [apply grows_refl|auto].
  - eexists. split; [reflexivity|]. split.
    + split; simpl; [eexists; reflexivity|].
      exists []. rewrite app_nil_r. reflexivity.
    + simpl. intros U. apply uniqueKeys_addKey; auto.
Qed.

Lemma visitsScoped_visits hidden m : visitsScoped hidden m -> visits m.
Proof.
  intros H scope parents reporter. specialize (H scope parents reporter).
  destruct (m (mkChecker (scope :: parents) reporter)) as [[[]|e] c1]; auto.
  destruct H as (scope' & E & G & U). exists scope'.
  split; [exact E|]. split; [eapply growsReferences_grows; eauto|exact U].
Qed.

Lemma visits_ok (m : V unit) scope parents reporter c' :
  visits m ->
  m (mkChecker (scope :: parents) reporter) = (Ok tt, c') ->
  exists scope',
    c' = mkChecker (scope' :: parents) reporter /\
    grows scope scope' /\
    (uniqueKeys (references scope) -> uniqueKeys (references scope')).
Proof.
  intros Hm E. specialize (Hm scope parents reporter). rewrite E in Hm.
  exact Hm.
Qed.

Lemma visitsScoped_ok hidden (m : V unit) scope parents reporter c' :
  visitsScoped hidden m ->
  m (mkChecker (scope :: parents) reporter) = (Ok tt, c') ->
  exists scope',
    c' = mkChecker (scope' :: parents) reporter /\
    growsReferences hidden scope scope' /\
    (uniqueKeys (references scope) -> uniqueKeys (references scope')).
Proof.
  intros Hm E. specialize (Hm scope parents reporter). rewrite E in Hm.
  exact Hm.
Qed.

(** ** Scopes *)

Lemma pop_eq inner scope parents reporter :
  pop_ (List.length (inner :: scope :: parents))
    (mkChecker (inner :: scope :: parents) reporter)
  = (Ok tt,
     mkChecker
       (mkScope
          (promote (declarations inner) (references inner)
             (references scope))
          (declarations scope) :: parents)
       reporter).
Proof.
  unfold pop_. rewrite bind_eq. unfold get. cbn [scope_].
  rewrite Nat.eqb_refl. cbn [negb]. rewrite bind_eq.
  unfold validateScope_. cbn [scope_]. rewrite validateLoop_parent.
  rewrite forEach_reportError_. cbn [sortErrors fold_left scope_ reporter_ tl].
  rewrite app_nil_r. reflexivity.
Qed.

Lemma leaves_pop_ handle hidden : leaves handle hidden hidden (pop_ handle).
Proof.
  intros inner scope parents reporter -> Hk. rewrite pop_eq.
  eexists. split; [reflexivity|].
  destruct (promote_spec (declarations inner) (references inner)
              (references scope)) as ((r & Hr & Hd) & Hu & _).
  split.
  - split; [reflexivity|]. exists r. split; [exact Hr|].
    intros name Hn. apply Hd. apply Hk. exact Hn.
  - exact Hu.
Qed.

Lemma leaves_bind handle known hidden (m k : V unit) :
  visits m -> leaves handle known hidden k ->
  leaves handle known hidden (m ;; k).
Proof.
  intros Hm Hk inner scope parents reporter Hh Hn. rewrite bind_eq.
  specialize (Hm inner (scope :: parents) reporter).
  destruct (m (mkChecker (inner :: scope :: parents) reporter))
    as [[[]|e] c1]; [|exact Hm].
  destruct Hm as (inner1 & -> & [_ [d D]] & _).
  apply Hk; [simpl in *; exact Hh|].
  intros name Hin. rewrite D, inMap_app, (Hn name Hin). reflexivity.
Qed.

Lemma leaves_declare handle known hidden name (k : V unit) :
  getVariableName name <> "" ->
  leaves handle (getVariableName name :: known) hidden k ->
  leaves handle known hidden (declareVariable_ name ;; k).
Proof.
  intros Hne Hk inner scope parents reporter Hh Hn. rewrite bind_eq.
  unfold declareVariable_ at 1. cbn [scope_].
  apply String.eqb_neq in Hne. rewrite Hne.
  destruct (inMap (getVariableName name) (declarations inner)) eqn:E.
  - apply Hk; [exact Hh|]. intros n [<-|Hin]; auto.
  - apply Hk; [simpl in *; exact Hh|]. cbn [declarations].
    intros n Hin. unfold addKey. rewrite inMap_app.
    destruct Hin as [<-|Hin].
    + simpl. rewrite String.eqb_refl. apply orb_true_r.
    + rewrite (Hn n Hin). reflexivity.
Qed.

Lemma visitsScoped_push hidden (k : nat -> V unit) :
  (forall handle, leaves handle [] hidden (k handle)) ->
  visitsScoped hidden (bind pushScope_ k).
Proof.
  intros Hk scope parents reporter. rewrite bind_eq.
  unfold pushScope_. cbn [scope_ reporter_].
  apply Hk; [reflexivity|]. intros name [].
Qed.

End CheckerVisits.

(** An induction on trees reaches the initializer of an element of a
    declaration list through the second component. *)
Ltac unpack :=
  repeat match goal with
         | H : _ /\ _ |- _ => destruct H
         | H : list_all (fun t => @?P t /\ @?Q t) _ |- _ =>
             pose proof (@list_all_fst _ P Q _ H);
             pose proof (list_all_In H); clear H
         | H : option_all (fun t => @?P t /\ @?Q t) _ |- _ =>
             apply (@option_all_fst _ P Q) in H
         end.

Section CheckerTrees.
Import FreeVariableChecker CheckerFacts.

Lemma visitsScoped_visitFunction_ name formalParameterList body :
  visits (visitAny formalParameterList) -> visits (visitAny body) ->
  visitsScoped (ownName name)
    (visitFunction_ visitAny name formalParameterList body).
Proof.
  intros Hp Hb. unfold visitFunction_. apply visitsScoped_push.
  intros handle.
  destruct name as [b|]; cbn [declareVariableOpt_ ownName].
  - destruct (String.eqb_spec (identifierToken b) "") as [E|Hne].
    + apply leaves_bind; [apply visits_declareVariable_|].
      apply leaves_bind; [apply visits_declareVariable_|].
      apply leaves_bind; [exact Hp|]. apply leaves_bind; [exact Hb|].
      apply leaves_pop_.
    + apply (@leaves_declare handle [] _ (OfBinding b)); [exact Hne|].
      apply leaves_bind; [apply visits_declareVariable_|].
      apply leaves_bind; [exact Hp|]. apply leaves_bind; [exact Hb|].
      intros inner scope parents reporter Hh Hk.
      apply (@leaves_pop_ handle [identifierToken b]); auto.
  - apply leaves_bind; [apply visits_ret|].
    apply leaves_bind; [apply visits_declareVariable_|].
    apply leaves_bind; [exact Hp|]. apply leaves_bind; [exact Hb|].
    apply leaves_pop_.
Qed.

Lemma visits_visitAnyOpt o :
  option_all (fun t => visits (visitAny t)) o ->
  visits (visitAnyOpt visitAny o).
Proof. intros X. destruct X; simpl; [assumption|apply visits_ret]. Qed.

Lemma visits_visitStatements_ statements :
  (forall s, In s statements -> visits (visitAny s)) ->
  visits (visitStatements_ visitAny statements).
Proof.
  intros H. unfold visitStatements_. apply visits_forEach. intros s Hs.
  apply visits_bind; [|apply H; exact Hs].
  destruct s; try apply visits_ret. apply visits_declareVariableOpt_.
Qed.

Lemma visits_visitAny_both t :
  visits (visitAny t) /\ visits (visitAnyOpt visitAny (initializerOf t)).
Proof.
  induction t; unpack;
    (split;
     [|cbn [initializerOf visitAnyOpt];
       first [apply visits_visitAnyOpt; assumption|apply visits_ret]]);
    cbn [visitAny];
    try (apply visits_forEach; apply list_all_In; assumption);
    try (repeat first
           [ assumption
           | apply visits_ret
           | apply visits_declareVariable_
           | apply visits_visitIdentifierExpression
           | apply visits_visitAnyOpt; assumption
           | apply visits_forEach; apply list_all_In; assumption
           | apply visits_bind ]; fail).
  - (* arrow function *)
    eapply visitsScoped_visits.
    apply (@visitsScoped_visitFunction_ None); assumption.
  - (* block *)
    apply visits_visitStatements_. apply list_all_In. assumption.
  - (* catch *)
    eapply visitsScoped_visits with (hidden := []).
    unfold visitCatch. apply visitsScoped_push. intros handle.
    apply leaves_bind; [assumption|]. apply leaves_bind; [assumption|].
    apply leaves_pop_.
  - (* function declaration *)
    eapply visitsScoped_visits.
    apply visitsScoped_visitFunction_; assumption.
  - (* get accessor *)
    eapply visitsScoped_visits with (hidden := []).
    unfold visitGetAccessor. apply visitsScoped_push. intros handle.
    apply leaves_bind; [assumption|]. apply leaves_pop_.
  - (* set accessor *)
    eapply visitsScoped_visits with (hidden := []).
    unfold visitSetAccessor. apply visitsScoped_push. intros handle.
    apply leaves_bind.
    { destruct t1; try apply visits_ret. apply visits_declareVariable_. }
    apply leaves_bind; [assumption|]. apply leaves_pop_.
  - (* variable declaration list *)
    unfold visitVariableDeclarationList.
    destruct declarationType; try apply visits_throw.
    apply visits_forEach. intros d Hd. rewrite visitDeclaration_eq.
    apply visits_bind; [apply visits_declareVariableOpt_|].
    match goal with
    | H : forall x, In x _ -> _ |- _ => exact (proj2 (H d Hd))
    end.
Qed.

Lemma visits_visitAny t : visits (visitAny t).
Proof. apply visits_visitAny_both. Qed.

End CheckerTrees.

(** ** The top level scope *)

Section CheckerRoot.
Import FreeVariableChecker CheckerFacts.

Lemma firstGenerated_Some names name :
  firstGenerated names = Some name -> In (name, None) names.
Proof.
  induction names as [|[n [r|]] names IH]; simpl; intros H.
  - discriminate.
  - right. auto.
  - inversion H. left. reflexivity.
Qed.

Lemma firstGenerated_None names :
  firstGenerated names = None <->
  forall name location, In (name, location) names -> location <> None.
Proof.
  induction names as [|[n [r|]] names IH]; simpl.
  - split; [intros _ name location []|reflexivity].
  - rewrite IH. split.
    + intros H name location [E|Hin]; [inversion E; discriminate|eauto].
    + intros H name location Hin. eauto.
  - split; [discriminate|]. intros H. exfalso.
    apply (H n None); auto.
Qed.

Lemma diagnostics_In names d :
  In d (diagnostics names) <->
  exists name range, In (name, Some range) names /\ d = diagnosticOf name range.
Proof.
  induction names as [|[n [r|]] names IH]; simpl.
  - split; [intros []|intros (? & ? & [] & _)].
  - rewrite IH. split.
    + intros [<-|(name & range & Hin & E)]; eauto 6.
    + intros (name & range & [E|Hin] & Ed).
      * inversion E; subst. auto.
      * right. eauto.
  - rewrite IH. split.
    + intros (name & range & Hin & E). eauto 6.
    + intros (name & range & [E|Hin] & Ed); [discriminate|eauto].
Qed.

Lemma uniqueKeys_filter {V} (f : string * V -> bool) (m : NameMap V) :
  uniqueKeys m -> uniqueKeys (filter f m).
Proof.
  unfold uniqueKeys, keys. induction m as [|[k v] m IH]; simpl; intros U.
  - constructor.
  - inversion U as [|? ? Hn U']; subst.
    destruct (f (k, v)); simpl; auto. constructor; auto.
    intros Hin. apply Hn. apply in_map_iff in Hin.
    destruct Hin as ([k' v'] & E & Hin). simpl in E. subst k'.
    apply filter_In in Hin. apply in_map_iff. exists (k, v'). tauto.
Qed.

Lemma uniqueKeys_diagnostics names :
  uniqueKeys names -> NoDup (map argument (diagnostics names)).
Proof.
  unfold uniqueKeys, keys. induction names as [|[n [r|]] names IH]; simpl;
    intros U.
  - constructor.
  - inversion U as [|? ? Hn U']; subst.
    constructor; auto. intros Hin. apply Hn.
    apply in_map_iff in Hin. destruct Hin as (d & E & Hin).
    apply diagnostics_In in Hin. destruct Hin as (name & range & Hin & ->).
    simpl in E. subst name. apply in_map_iff. exists (n, Some range). auto.
  - inversion U; auto.
Qed.

Lemma uniqueKeys_In {V} (m : NameMap V) k v v' :
  uniqueKeys m -> In (k, v) m -> In (k, v') m -> v = v'.
Proof.
  unfold uniqueKeys, keys. induction m as [|[k0 v0] m IH]; simpl;
    intros U H1 H2; [destruct H1|].
  inversion U as [|? ? Hn U']; subst.
  destruct H1 as [E1|H1], H2 as [E2|H2].
  - congruence.
  - inversion E1; subst. exfalso. apply Hn. apply in_map_iff.
    exists (k, v'). auto.
  - inversion E2; subst. exfalso. apply Hn. apply in_map_iff.
    exists (k, v). auto.
  - eauto.
Qed.

(** [validateScope_] on the top level scope. *)
Lemma validateScope_root scope reporter :
  validateScope_ (mkChecker [scope] reporter) =
  match
    firstGenerated (unresolved (declarations scope) (references scope))
  with
  | Some name => (Throw (notDefined name), mkChecker [scope] reporter)
  | None =>
      (Ok tt,
       mkChecker [scope]
         (reporter ++
          sortErrors
            (diagnostics
               (unresolved (declarations scope) (references scope)))))
  end.
Proof.
  unfold validateScope_. cbn [scope_]. rewrite validateLoop_root.
  destruct (firstGenerated _); [reflexivity|].
  rewrite forEach_reportError_. reflexivity.
Qed.

(** C7.  On the top level scope, [validateScope_] throws the error of a
    generated variable, and reports nothing, when an unresolved reference has
    no location; when every unresolved reference has one, it reports their
    diagnostics, and those only, in ascending order of their offsets. *)
Theorem C7_root_validation :
  forall scope reporter,
    let c := mkChecker [scope] reporter in
    let pending := unresolved (declarations scope) (references scope) in
    (forall name,
        In (name, None) pending ->
        exists name',
          In (name', None) pending /\
          validateScope_ c = (Throw (notDefined name'), c)) /\
    ((forall name location, In (name, location) pending -> location <> None) ->
     exists reported,
       validateScope_ c = (Ok tt, mkChecker [scope] (reporter ++ reported)) /\
       Permutation reported (diagnostics pending) /\
       Sorted byOffset reported).
Proof.
  intros scope reporter c pending. unfold c. rewrite validateScope_root.
  fold pending. split.
  - intros name Hin. destruct (firstGenerated pending) as [name'|] eqn:E.
    + exists name'. split; [apply firstGenerated_Some; exact E|reflexivity].
    + exfalso. rewrite firstGenerated_None in E.
      apply (E name None Hin). reflexivity.
  - intros H. apply firstGenerated_None in H. rewrite H.
    eexists. split; [reflexivity|]. split.
    + apply sortErrors_perm.
    + apply sortErrors_sorted.
Qed.

End CheckerRoot.

(** ** Programs *)

Section CheckerPrograms.
Import FreeVariableChecker CheckerFacts.

Lemma declares_globals global :
  forall scope parents reporter,
  exists scope',
    forEach (fun object =>
               forEach (fun name => declareVariable_ (OfString name)) object)
      global (mkChecker (scope :: parents) reporter)
    = (Ok tt, mkChecker (scope' :: parents) reporter) /\
    references scope' = references scope /\
    forall name,
      inMap name (declarations scope') = true ->
      inMap name (declarations scope) = true \/
      exists object, In object global /\ In name object.
Proof.
  assert (D : forall object scope parents reporter,
             exists scope',
               forEach (fun name => declareVariable_ (OfString name)) object
                 (mkChecker (scope :: parents) reporter)
               = (Ok tt, mkChecker (scope' :: parents) reporter) /\
               references scope' = references scope /\
               forall name,
                 inMap name (declarations scope') = true ->
                 inMap name (declarations scope) = true \/ In name object).
  { induction object as [|n object IH]; intros scope parents reporter.
    - exists scope. simpl. auto.
    - simpl forEach. rewrite bind_eq. unfold declareVariable_ at 1.
      cbn [scope_ getVariableName].
      destruct (String.eqb n "");
        [|destruct (inMap n (declarations scope)) eqn:E].
      + destruct (IH scope parents reporter) as (s' & E' & R & Dn).
        exists s'. split; [exact E'|]. split; [exact R|].
        intros name Hn. destruct (Dn name Hn); simpl; auto.
      + destruct (IH scope parents reporter) as (s' & E' & R & Dn).
        exists s'. split; [exact E'|]. split; [exact R|].
        intros name Hn. destruct (Dn name Hn); simpl; auto.
      + destruct (IH (mkScope (references scope)
                        (addKey n (locationOf (OfString n))
                           (declarations scope))) parents reporter)
          as (s' & E' & R & Dn).
        exists s'. split; [exact E'|]. split; [exact R|].
        intros name Hn. destruct (Dn name Hn) as [H|H]; [|simpl; auto].
        cbn [declarations] in H. unfold addKey in H.
        rewrite inMap_app in H. apply orb_true_iff in H.
        destruct H as [H|H]; [auto|]. simpl in H.
        destruct (String.eqb_spec name n) as [->|_]; [|discriminate].
        right. left. reflexivity. }
  induction global as [|object global IH]; intros scope parents reporter.
  - exists scope. simpl. auto.
  - simpl forEach. rewrite bind_eq.
    destruct (D object scope parents reporter) as (s1 & E1 & R1 & D1).
    rewrite E1. destruct (IH s1 parents reporter) as (s2 & E2 & R2 & D2).
    exists s2. split; [exact E2|]. split; [congruence|].
    intros name Hn. destruct (D2 name Hn) as [H|(o & Ho & Hin)].
    + destruct (D1 name H) as [H'|H']; [auto|].
      right. exists object. simpl. auto.
    + right. exists o. simpl. auto.
Qed.

Lemma checkProgram_eq reporter tree global :
  checkProgram reporter tree global =
  match visitProgramBody tree global (mkChecker [] reporter) with
  | (Ok _, c1) => pop_ 1 c1
  | (Throw e, c1) => (Throw e, c1)
  end.
Proof.
  unfold checkProgram, visitProgram, visitProgramBody.
  rewrite !bind_eq. unfold pushScope_ at 1 2. cbn [scope_ reporter_
      List.length].
  rewrite !bind_eq.
  destruct (forEach _ global _) as [[[]|e] c0]; [|reflexivity].
  rewrite bind_eq.
  destruct (visitStatements_ visitAny (programElements tree) c0)
    as [[[]|e] c1]; reflexivity.
Qed.

Lemma pop_root root reporter :
  pop_ 1 (mkChecker [root] reporter) =
  match
    firstGenerated (unresolved (declarations root) (references root))
  with
  | Some name => (Throw (notDefined name), mkChecker [root] reporter)
  | None =>
      (Ok tt,
       mkChecker []
         (reporter ++
          sortErrors
            (diagnostics (unresolved (declarations root) (references root)))))
  end.
Proof.
  unfold pop_. rewrite bind_eq. unfold get. cbn [scope_ List.length Nat.eqb
      negb].
  rewrite bind_eq, validateScope_root.
  destruct (firstGenerated _); reflexivity.
Qed.

(** The top level scope of a program once its statements were visited. *)
Lemma visitProgramBody_ok reporter tree global c1 :
  visitProgramBody tree global (mkChecker [] reporter) = (Ok tt, c1) ->
  exists root0 root,
    forEach (fun object =>
               forEach (fun name => declareVariable_ (OfString name)) object)
      global (mkChecker [mkScope [] []] reporter)
    = (Ok tt, mkChecker [root0] reporter) /\
    references root0 = [] /\
    (forall name, inMap name (declarations root0) = true ->
             exists object, In object global /\ In name object) /\
    visitStatements_ visitAny (programElements tree)
      (mkChecker [root0] reporter) = (Ok tt, mkChecker [root] reporter) /\
    c1 = mkChecker [root] reporter /\
    grows root0 root /\ uniqueKeys (references root).
Proof.
  unfold visitProgramBody. rewrite bind_eq. unfold pushScope_ at 1.
  cbn [scope_ reporter_]. rewrite bind_eq.
  destruct (declares_globals global (mkScope [] []) [] reporter)
    as (root0 & E0 & R0 & D0).
  rewrite E0. intros E.
  pose proof (@visits_visitStatements_ (programElements tree)
                (fun s _ => visits_visitAny s) root0 [] reporter) as H.
  rewrite E in H. destruct H as (root & -> & G & U).
  exists root0, root. split; [reflexivity|]. split; [exact R0|]. split.
  - intros name Hn. destruct (D0 name Hn) as [H|H]; [discriminate|exact H].
  - split; [exact E|]. split; [reflexivity|]. split; [exact G|].
    apply U. rewrite R0. constructor.
Qed.

Lemma checkProgram_ok reporter tree global c' :
  checkProgram reporter tree global = (Ok tt, c') ->
  exists root,
    visitProgramBody tree global (mkChecker [] reporter)
    = (Ok tt, mkChecker [root] reporter) /\
    uniqueKeys (references root) /\
    firstGenerated (unresolved (declarations root) (references root)) = None /\
    c' = mkChecker []
           (reporter ++
            sortErrors
              (diagnostics
                 (unresolved (declarations root) (references root)))).
Proof.
  rewrite checkProgram_eq.
  destruct (visitProgramBody tree global (mkChecker [] reporter))
    as [[[]|e] c1] eqn:E; [|discriminate].
  destruct (visitProgramBody_ok _ _ _ E)
    as (root0 & root & _ & _ & _ & _ & -> & _ & U).
  rewrite pop_root.
  destruct (firstGenerated _) eqn:F; [discriminate|].
  intros H. inversion H. exists root. auto.
Qed.

Lemma reported_In declarations names d :
  In d (sortErrors (diagnostics (unresolved declarations names))) <->
  exists name range,
    In (name, Some range) names /\ inMap name declarations = false /\
    d = diagnosticOf name range.
Proof.
  split.
  - intros H. apply (Permutation_in _ (sortErrors_perm _)) in H.
    apply diagnostics_In in H. destruct H as (name & range & Hin & E).
    apply filter_In in Hin. destruct Hin as [Hin Hd]. simpl in Hd.
    apply negb_true_iff in Hd. eauto 6.
  - intros (name & range & Hin & Hd & E).
    apply (Permutation_in _ (Permutation_sym (sortErrors_perm _))).
    apply diagnostics_In. exists name, range. split; [|exact E].
    apply filter_In. split; [exact Hin|]. simpl. rewrite Hd. reflexivity.
Qed.

End CheckerPrograms.

(** ** Statement lists *)

Section CheckerStatements.
Import FreeVariableChecker CheckerFacts.

Lemma forEach_app {A} (f : A -> V unit) (l1 l2 : list A) c :
  forEach f (l1 ++ l2) c =
  match forEach f l1 c with
  | (Ok _, c1) => forEach f l2 c1
  | (Throw e, c1) => (Throw e, c1)
  end.
Proof.
  revert c. induction l1 as [|x l1 IH]; intros c; simpl.
  - reflexivity.
  - rewrite !bind_eq. destruct (f x c) as [[[]|e] c1]; [apply IH|reflexivity].
Qed.

Lemma declared_declareVariable_ b scope parents reporter :
  identifierToken b <> "" ->
  exists scope',
    declareVariable_ (OfBinding b) (mkChecker (scope :: parents) reporter)
    = (Ok tt, mkChecker (scope' :: parents) reporter) /\
    inMap (identifierToken b) (declarations scope') = true /\
    grows scope scope'.
Proof.
  intros Hne. unfold declareVariable_. cbn [scope_ getVariableName].
  apply String.eqb_neq in Hne. rewrite Hne.
  destruct (inMap (identifierToken b) (declarations scope)) eqn:E.
  - exists scope. split; [reflexivity|]. split; [exact E|apply grows_refl].
  - eexists. split; [reflexivity|]. cbn [declarations]. split.
    + unfold addKey. rewrite inMap_app. simpl. rewrite String.eqb_refl.
      apply orb_true_r.
    + split; simpl; [exists []; rewrite app_nil_r; reflexivity|].
      eexists. reflexivity.
Qed.

Lemma visits_declared (m : V unit) name scope parents reporter c' :
  visits m ->
  m (mkChecker (scope :: parents) reporter) = (Ok tt, c') ->
  inMap name (declarations scope) = true ->
  declared name c' = true.
Proof.
  intros Hm E Hn. specialize (Hm scope parents reporter). rewrite E in Hm.
  destruct Hm as (scope' & -> & [_ [d D]] & _). unfold declared.
  cbn [scope_]. rewrite D, inMap_app, Hn. reflexivity.
Qed.

Lemma visits_statement s :
  visits (match s with
          | FunctionDeclaration _ name _ _ _ => declareVariableOpt_ name
          | _ => ret tt
          end ;; visitAny s).
Proof.
  apply visits_bind; [|apply visits_visitAny].
  destruct s; try apply visits_ret. apply visits_declareVariableOpt_.
Qed.

Lemma visits_statements statements :
  visits (visitStatements_ visitAny statements).
Proof.
  apply visits_visitStatements_. intros s _. apply visits_visitAny.
Qed.

(** Once a statement list is visited, the name of each of its function
    declarations is declared in the current scope. *)
Lemma statements_declared statements :
  forall scope parents reporter c' l b g p body,
    visitStatements_ visitAny statements (mkChecker (scope :: parents) reporter)
    = (Ok tt, c') ->
    In (FunctionDeclaration l (Some b) g p body) statements ->
    identifierToken b <> "" ->
    declared (identifierToken b) c' = true.
Proof.
  induction statements as [|s statements IH];
    intros scope parents reporter c' l b g p body E Hin Hne; [destruct Hin|].
  unfold visitStatements_ in E. simpl forEach in E.
  fold (visitStatements_ visitAny statements) in E.
  rewrite bind_eq in E.
  pose proof (visits_statement s scope parents reporter) as Hs.
  destruct Hin as [->|Hin].
  - rewrite bind_eq in E, Hs. cbn [declareVariableOpt_] in E, Hs.
    destruct (declared_declareVariable_ b scope parents reporter Hne)
      as (scope1 & E1 & D1 & _).
    rewrite E1 in E, Hs.
    pose proof (visits_visitAny (FunctionDeclaration l (Some b) g p body)
                  scope1 parents reporter) as Hv.
    destruct (visitAny (FunctionDeclaration l (Some b) g p body)
                (mkChecker (scope1 :: parents) reporter))
      as [[[]|e] c2]; [|discriminate].
    destruct Hv as (scope2 & -> & [_ [d D]] & _).
    eapply visits_declared; [apply visits_statements|exact E|].
    rewrite D, inMap_app, D1. reflexivity.
  - destruct ((_ ;; visitAny s) (mkChecker (scope :: parents) reporter))
      as [[[]|e] c1]; [|discriminate].
    destruct Hs as (scope1 & -> & _). eapply IH; eauto.
Qed.

End CheckerStatements.

(** ** The errors of the checker *)

Section CheckerErrors.
Import FreeVariableChecker CheckerFacts ScopeFacts.

Lemma rejectsOnly_ret : rejectsOnly (ret tt).
Proof. intros scope parents reporter e c' H. discriminate. Qed.

Lemma rejectsOnly_throw : rejectsOnly (throw notRewritten).
Proof.
  intros scope parents reporter e c' H. unfold throw in H.
  inversion H. reflexivity.
Qed.

Lemma rejectsOnly_bind (m k : V unit) :
  visits m -> rejectsOnly m -> rejectsOnly k -> rejectsOnly (m ;; k).
Proof.
  intros Vm Hm Hk scope parents reporter e c'. rewrite bind_eq.
  specialize (Vm scope parents reporter).
  specialize (Hm scope parents reporter).
  destruct (m (mkChecker (scope :: parents) reporter)) as [[[]|e1] c1].
  - destruct Vm as (scope' & -> & _). apply Hk.
  - intros H. inversion H; subst. eapply Hm. reflexivity.
Qed.

Lemma rejectsOnly_forEach {A} (f : A -> V unit) (l : list A) :
  (forall x, In x l -> visits (f x)) ->
  (forall x, In x l -> rejectsOnly (f x)) ->
  rejectsOnly (forEach f l).
Proof.
  induction l as [|x l IH]; intros Hv Hr; simpl; [apply rejectsOnly_ret|].
  apply rejectsOnly_bind.
  - apply Hv. left. reflexivity.
  - apply Hr. left. reflexivity.
  - apply IH; intros y Hy; [apply Hv|apply Hr]; right; exact Hy.
Qed.

Lemma rejectsOnly_declareVariable_ name : rejectsOnly (declareVariable_ name).
Proof.
  intros scope parents reporter e c'. unfold declareVariable_. cbn [scope_].
  destruct (String.eqb _ ""); [discriminate|].
  destruct (inMap _ _); discriminate.
Qed.

Lemma rejectsOnly_declareVariableOpt_ name :
  rejectsOnly (declareVariableOpt_ name).
Proof.
  destruct name; [apply rejectsOnly_declareVariable_|apply rejectsOnly_ret].
Qed.

Lemma rejectsOnly_visitIdentifierExpression location name :
  rejectsOnly (visitIdentifierExpression location name).
Proof.
  intros scope parents reporter e c'. unfold visitIdentifierExpression.
  cbn [scope_]. destruct (inMap _ _); discriminate.
Qed.

Lemma rejectsOnlyInside_pop_ handle : rejectsOnlyInside handle (pop_ handle).
Proof.
  intros inner scope parents reporter e c' ->. rewrite pop_eq. discriminate.
Qed.

Lemma rejectsOnlyInside_bind handle (m k : V unit) :
  visits m -> rejectsOnly m -> rejectsOnlyInside handle k ->
  rejectsOnlyInside handle (m ;; k).
Proof.
  intros Vm Hm Hk inner scope parents reporter e c' Hh. rewrite bind_eq.
  specialize (Vm inner (scope :: parents) reporter).
  specialize (Hm inner (scope :: parents) reporter).
  destruct (m (mkChecker (inner :: scope :: parents) reporter))
    as [[[]|e1] c1].
  - destruct Vm as (inner' & -> & _). apply Hk. simpl in *. exact Hh.
  - intros H. inversion H; subst. eapply Hm. reflexivity.
Qed.

Lemma rejectsOnly_push (k : nat -> V unit) :
  (forall handle, rejectsOnlyInside handle (k handle)) ->
  rejectsOnly (bind pushScope_ k).
Proof.
  intros Hk scope parents reporter e c'. rewrite bind_eq.
  unfold pushScope_. cbn [scope_ reporter_]. apply Hk. reflexivity.
Qed.

Lemma rejectsOnly_visitFunction_ name formalParameterList body :
  rejectsOnly (visitAny formalParameterList) -> rejectsOnly (visitAny body) ->
  rejectsOnly (visitFunction_ visitAny name formalParameterList body).
Proof.
  intros Hp Hb. unfold visitFunction_. apply rejectsOnly_push. intros handle.
  apply rejectsOnlyInside_bind;
    [apply visits_declareVariableOpt_|apply rejectsOnly_declareVariableOpt_|].
  apply rejectsOnlyInside_bind;
    [apply visits_declareVariable_|apply rejectsOnly_declareVariable_|].
  apply rejectsOnlyInside_bind; [apply visits_visitAny|exact Hp|].
  apply rejectsOnlyInside_bind; [apply visits_visitAny|exact Hb|].
  apply rejectsOnlyInside_pop_.
Qed.

Lemma rejectsOnly_visitAnyOpt o :
  option_all (fun t => rejectsOnly (visitAny t)) o ->
  rejectsOnly (visitAnyOpt visitAny o).
Proof. intros X. destruct X; simpl; [assumption|apply rejectsOnly_ret]. Qed.

Lemma visits_visitAnyOpt' o : visits (visitAnyOpt visitAny o).
Proof. destruct o; simpl; [apply visits_visitAny|apply visits_ret]. Qed.

Lemma rejectsOnly_list l :
  list_all (fun t => rejectsOnly (visitAny t)) l ->
  rejectsOnly (forEach visitAny l).
Proof.
  intros H. apply rejectsOnly_forEach.
  - intros x _. apply visits_visitAny.
  - apply list_all_In. exact H.
Qed.

Lemma visits_declaration (d : ParseTree) :
  visits (declareVariableOpt_ (lvalueOf d) ;;
          match d with
          | VariableDeclaration _ _ initializer
          | BindingElement _ _ initializer => visitAnyOpt visitAny initializer
          | _ => ret tt
          end).
Proof.
  rewrite visitDeclaration_eq.
  apply visits_bind; [apply visits_declareVariableOpt_|].
  apply visits_visitAnyOpt'.
Qed.

Lemma rejectsOnly_visitAny_both t :
  rejectsOnly (visitAny t) /\
  rejectsOnly (visitAnyOpt visitAny (initializerOf t)).
Proof.
  induction t; unpack;
    (split;
     [|cbn [initializerOf visitAnyOpt];
       first [apply rejectsOnly_visitAnyOpt; assumption
             |apply rejectsOnly_ret]]);
    cbn [visitAny];
    try (apply rejectsOnly_list; assumption);
    try (repeat first
           [ assumption
           | apply rejectsOnly_ret
           | apply rejectsOnly_declareVariable_
           | apply rejectsOnly_visitIdentifierExpression
           | apply rejectsOnly_visitAnyOpt; assumption
           | apply rejectsOnly_list; assumption
           | apply visits_visitAny
           | apply visits_visitAnyOpt'
           | apply visits_declareVariable_
           | apply rejectsOnly_bind ]; fail).
  - (* arrow function *)
    apply (@rejectsOnly_visitFunction_ None); assumption.
  - (* block *)
    unfold visitBlock, visitStatements_. apply rejectsOnly_forEach.
    + intros s _. apply visits_statement.
    + intros s Hs. apply rejectsOnly_bind.
      * destruct s; try apply visits_ret. apply visits_declareVariableOpt_.
      * destruct s; try apply rejectsOnly_ret.
        apply rejectsOnly_declareVariableOpt_.
      * match goal with
        | H : list_all _ _ |- _ => exact (list_all_In H s Hs)
        end.
  - (* catch *)
    unfold visitCatch. apply rejectsOnly_push. intros handle.
    apply rejectsOnlyInside_bind; [apply visits_visitAny|assumption|].
    apply rejectsOnlyInside_bind; [apply visits_visitAny|assumption|].
    apply rejectsOnlyInside_pop_.
  - (* function declaration *)
    apply rejectsOnly_visitFunction_; assumption.
  - (* get accessor *)
    unfold visitGetAccessor. apply rejectsOnly_push. intros handle.
    apply rejectsOnlyInside_bind; [apply visits_visitAny|assumption|].
    apply rejectsOnlyInside_pop_.
  - (* set accessor *)
    unfold visitSetAccessor. apply rejectsOnly_push. intros handle.
    apply rejectsOnlyInside_bind.
    { destruct t1; try apply visits_ret. apply visits_declareVariable_. }
    { destruct t1; try apply rejectsOnly_ret.
      apply rejectsOnly_declareVariable_. }
    apply rejectsOnlyInside_bind; [apply visits_visitAny|assumption|].
    apply rejectsOnlyInside_pop_.
  - (* variable declaration list *)
    unfold visitVariableDeclarationList.
    destruct declarationType;
      try apply rejectsOnly_throw.
    apply rejectsOnly_forEach.
    + intros d _. apply visits_declaration.
    + intros d Hd. rewrite visitDeclaration_eq.
      apply rejectsOnly_bind;
        [apply visits_declareVariableOpt_
        |apply rejectsOnly_declareVariableOpt_|].
      match goal with
      | H : forall x, In x _ -> _ |- _ => exact (proj2 (H d Hd))
      end.
Qed.

Lemma rejectsOnly_visitAny t : rejectsOnly (visitAny t).
Proof. apply rejectsOnly_visitAny_both. Qed.

End CheckerErrors.

(** ** What the visit of a list leaves in the current scope *)

Section CheckerReaches.
Import FreeVariableChecker CheckerFacts ScopeFacts.

Lemma forEach_reaches {A} (f : A -> V unit) (P : Scope -> Prop) x :
  (forall y, visits (f y)) ->
  (forall a b, grows a b -> P a -> P b) ->
  (forall scope parents reporter c',
      f x (mkChecker (scope :: parents) reporter) = (Ok tt, c') ->
      exists scope', c' = mkChecker (scope' :: parents) reporter /\ P scope') ->
  forall l scope parents reporter c',
    In x l ->
    forEach f l (mkChecker (scope :: parents) reporter) = (Ok tt, c') ->
    exists scope', c' = mkChecker (scope' :: parents) reporter /\ P scope'.
Proof.
  intros Hv Hmono Hx. induction l as [|y l IH];
    intros scope parents reporter c' Hin E; [destruct Hin|].
  simpl in E. rewrite bind_eq in E.
  destruct (f y (mkChecker (scope :: parents) reporter)) as [[[]|e] c1] eqn:Ey;
    [|discriminate].
  destruct Hin as [->|Hin].
  - destruct (Hx _ _ _ _ Ey) as (scope1 & -> & P1).
    eapply visits_ok in E; [|apply visits_forEach; intros; apply Hv].
    destruct E as (scope' & -> & G & _). exists scope'.
    split; [reflexivity|]. eapply Hmono; eauto.
  - eapply visits_ok in Ey; [|apply Hv].
    destruct Ey as (scope1 & -> & _). eapply IH; eauto.
Qed.

Lemma grows_declared name a b :
  grows a b -> inMap name (declarations a) = true ->
  inMap name (declarations b) = true.
Proof.
  intros [_ [d D]] H. rewrite D, inMap_app, H. reflexivity.
Qed.

Lemma grows_referenced name a b :
  grows a b -> inMap name (references a) = true ->
  inMap name (references b) = true.
Proof.
  intros [[r R] _] H. rewrite R, inMap_app, H. reflexivity.
Qed.

Lemma declareVariable_declares name scope parents reporter :
  getVariableName name <> "" ->
  exists scope',
    declareVariable_ name (mkChecker (scope :: parents) reporter)
    = (Ok tt, mkChecker (scope' :: parents) reporter) /\
    inMap (getVariableName name) (declarations scope') = true.
Proof.
  intros Hne. unfold declareVariable_. cbn [scope_ reporter_].
  apply String.eqb_neq in Hne. rewrite Hne.
  destruct (inMap (getVariableName name) (declarations scope)) eqn:E.
  - exists scope. auto.
  - eexists. split; [reflexivity|]. cbn [declarations]. unfold addKey.
    rewrite inMap_app. simpl. rewrite String.eqb_refl. apply orb_true_r.
Qed.

Lemma globals_declared global object name :
  In object global -> In name object -> name <> "" ->
  forall scope parents reporter c',
    forEach (fun object =>
               forEach (fun name => declareVariable_ (OfString name)) object)
      global (mkChecker (scope :: parents) reporter) = (Ok tt, c') ->
    exists scope',
      c' = mkChecker (scope' :: parents) reporter /\
      inMap name (declarations scope') = true.
Proof.
  intros Ho Hn Hne scope parents reporter c' E.
  eapply (@forEach_reaches _ _
            (fun sc => inMap name (declarations sc) = true) object);
    [| |
     |exact Ho|exact E].
  - intros y. apply visits_forEach. intros; apply visits_declareVariable_.
  - intros a b. apply grows_declared.
  - intros scope0 parents0 reporter0 c0 E0.
    eapply (@forEach_reaches _ _
              (fun sc => inMap name (declarations sc) = true) name);
      [| |
       |exact Hn|exact E0].
    + intros y. apply visits_declareVariable_.
    + intros a b. apply grows_declared.
    + intros scope1 parents1 reporter1 c1 E1.
      destruct (@declareVariable_declares (OfString name) scope1 parents1
                  reporter1 Hne) as (scope' & E' & D).
      cbv beta in E1. rewrite E' in E1. inversion E1. exists scope'. auto.
Qed.

Lemma var_declared ds l b init :
  In (VariableDeclaration l b init) ds -> identifierToken b <> "" ->
  forall sl dl scope parents reporter c',
    visitAny (VariableStatement sl (VariableDeclarationList dl VAR ds))
      (mkChecker (scope :: parents) reporter) = (Ok tt, c') ->
    exists scope',
      c' = mkChecker (scope' :: parents) reporter /\
      inMap (identifierToken b) (declarations scope') = true.
Proof.
  intros Hin Hne sl dl scope parents reporter c' E.
  cbn [visitAny visitVariableDeclarationList] in E.
  eapply (@forEach_reaches _ _
            (fun sc => inMap (identifierToken b) (declarations sc) = true)
            (VariableDeclaration l b init));
    [| |
     |exact Hin|exact E].
  - intros d. apply visits_declaration.
  - intros x y. apply grows_declared.
  - intros scope0 parents0 reporter0 c0 E0.
    cbv beta iota in E0. cbn [lvalueOf declareVariableOpt_] in E0.
    rewrite bind_eq in E0.
    destruct (@declareVariable_declares (OfBinding b) scope0 parents0
                reporter0 Hne) as (scope1 & E1 & D).
    rewrite E1 in E0. eapply visits_ok in E0; [|apply visits_visitAnyOpt'].
    destruct E0 as (scope' & -> & G & _). exists scope'.
    split; [reflexivity|]. eapply grows_declared; eauto.
Qed.

Lemma statements_reach (P : Scope -> Prop) s :
  (forall a b, grows a b -> P a -> P b) ->
  (forall scope parents reporter c',
      visitAny s (mkChecker (scope :: parents) reporter) = (Ok tt, c') ->
      exists scope', c' = mkChecker (scope' :: parents) reporter /\ P scope') ->
  forall statements scope parents reporter c',
    In s statements ->
    visitStatements_ visitAny statements
      (mkChecker (scope :: parents) reporter) = (Ok tt, c') ->
    exists scope', c' = mkChecker (scope' :: parents) reporter /\ P scope'.
Proof.
  intros Hmono Hs statements scope parents reporter c' Hin E.
  unfold visitStatements_ in E.
  eapply (@forEach_reaches _ _ P s); [| | |exact Hin|exact E].
  - intros y. apply visits_statement.
  - exact Hmono.
  - intros scope0 parents0 reporter0 c0 E0. cbv beta in E0.
    rewrite bind_eq in E0.
    destruct (match s with
              | FunctionDeclaration _ name _ _ _ => declareVariableOpt_ name
              | _ => ret tt
              end (mkChecker (scope0 :: parents0) reporter0))
      as [[[]|e] c1] eqn:E1; [|discriminate].
    eapply visits_ok in E1.
    2:{ destruct s; try apply visits_ret. apply visits_declareVariableOpt_. }
    destruct E1 as (scope1 & -> & _). eapply Hs. exact E0.
Qed.

End CheckerReaches.

(** ** Where the pending references come from *)

Section CheckerCites.
Import FreeVariableChecker CheckerFacts ScopeFacts.

Lemma promote_incl declarations names :
  forall parent,
  exists r,
    promote declarations names parent = parent ++ r /\
    forall e, In e r -> In e names.
Proof.
  induction names as [|[name location] names IH]; intros parent; simpl.
  - exists []. rewrite app_nil_r. split; [reflexivity|]. intros e [].
  - destruct (inMap name declarations || inMap name parent).
    + destruct (IH parent) as (r & E & Hr). exists r. split; [exact E|].
      intros e He. right. apply Hr, He.
    + destruct (IH (addKey name location parent)) as (r & E & Hr).
      exists ((name, location) :: r). split.
      * rewrite E. unfold addKey. rewrite <- app_assoc. reflexivity.
      * intros e [<-|He]; [left; reflexivity|right; apply Hr, He].
Qed.

Lemma cites_ret P : cites P (ret tt).
Proof.
  intros scope parents reporter c' E. inversion E. exists scope, [].
  rewrite app_nil_r. auto.
Qed.

Lemma cites_throw P e : cites P (throw e).
Proof. intros scope parents reporter c' E. discriminate. Qed.

Lemma cites_weaken (P Q : string * Location -> Prop) m :
  cites P m -> (forall e, P e -> Q e) -> cites Q m.
Proof.
  intros Hm HPQ scope parents reporter c' E.
  destruct (Hm _ _ _ _ E) as (scope' & r & -> & R & F).
  exists scope', r. split; [reflexivity|]. split; [exact R|].
  eapply Forall_impl; [|exact F]. exact HPQ.
Qed.

Lemma cites_bind P (m k : V unit) :
  cites P m -> cites P k -> cites P (m ;; k).
Proof.
  intros Hm Hk scope parents reporter c' E. rewrite bind_eq in E.
  destruct (m (mkChecker (scope :: parents) reporter)) as [[[]|e] c1] eqn:Em;
    [|discriminate].
  destruct (Hm _ _ _ _ Em) as (scope1 & r1 & -> & R1 & F1).
  destruct (Hk _ _ _ _ E) as (scope2 & r2 & -> & R2 & F2).
  exists scope2, (r1 ++ r2). split; [reflexivity|]. split.
  - rewrite R2, R1, app_assoc. reflexivity.
  - apply Forall_app. auto.
Qed.

Lemma cites_forEach {A} P (f : A -> V unit) (l : list A) :
  (forall x, In x l -> cites P (f x)) -> cites P (forEach f l).
Proof.
  induction l as [|x l IH]; intros H; simpl; [apply cites_ret|].
  apply cites_bind; [apply H; left; reflexivity|].
  apply IH. intros y Hy. apply H. right. exact Hy.
Qed.

Lemma cites_declareVariable_ P name : cites P (declareVariable_ name).
Proof.
  intros scope parents reporter c'. unfold declareVariable_.
  cbn [scope_ reporter_].
  destruct (String.eqb _ ""); [|destruct (inMap _ _)];
    intros E; inversion E; eexists; exists []; cbn [references];
    rewrite app_nil_r; auto.
Qed.

Lemma cites_declareVariableOpt_ P name : cites P (declareVariableOpt_ name).
Proof.
  destruct name; [apply cites_declareVariable_|apply cites_ret].
Qed.

Lemma cites_visitIdentifierExpression (P : string * Location -> Prop)
    location name :
  P (name, location) -> cites P (visitIdentifierExpression location name).
Proof.
  intros HP scope parents reporter c'. unfold visitIdentifierExpression.
  cbn [scope_ reporter_]. destruct (inMap _ _); intros E; inversion E.
  - exists scope, []. rewrite app_nil_r. auto.
  - eexists. exists [(name, location)]. cbn [references]. auto.
Qed.

Lemma citesInside_pop_ handle P : citesInside handle P (pop_ handle).
Proof.
  intros inner scope parents reporter c' -> F. rewrite pop_eq.
  intros E. inversion E.
  destruct (promote_incl (declarations inner) (references inner)
              (references scope)) as (r & R & Hr).
  eexists. exists r. split; [reflexivity|]. split; [exact R|].
  rewrite Forall_forall in *. intros e He. apply F, Hr, He.
Qed.

Lemma citesInside_bind handle P (m k : V unit) :
  cites P m -> citesInside handle P k -> citesInside handle P (m ;; k).
Proof.
  intros Hm Hk inner scope parents reporter c' Hh F E. rewrite bind_eq in E.
  destruct (m (mkChecker (inner :: scope :: parents) reporter))
    as [[[]|e] c1] eqn:Em; [|discriminate].
  destruct (Hm _ _ _ _ Em) as (inner1 & r1 & -> & R1 & F1).
  eapply Hk; [simpl in *; exact Hh| |exact E].
  rewrite R1. apply Forall_app. auto.
Qed.

Lemma cites_push P (k : nat -> V unit) :
  (forall handle, citesInside handle P (k handle)) ->
  cites P (bind pushScope_ k).
Proof.
  intros Hk scope parents reporter c' E. rewrite bind_eq in E.
  unfold pushScope_ in E. cbn [scope_ reporter_] in E.
  eapply Hk; [reflexivity| |exact E]. constructor.
Qed.

Lemma cites_visitFunction_ P name formalParameterList body :
  cites P (visitAny formalParameterList) -> cites P (visitAny body) ->
  cites P (visitFunction_ visitAny name formalParameterList body).
Proof.
  intros Hp Hb. unfold visitFunction_. apply cites_push. intros handle.
  apply citesInside_bind; [apply cites_declareVariableOpt_|].
  apply citesInside_bind; [apply cites_declareVariable_|].
  apply citesInside_bind; [exact Hp|].
  apply citesInside_bind; [exact Hb|]. apply citesInside_pop_.
Qed.

Lemma cites_list l :
  list_all (fun t => cites (fun e => In e (identifiers t)) (visitAny t)) l ->
  cites (fun e => In e (flat_map identifiers l)) (forEach visitAny l).
Proof.
  intros H. apply cites_forEach. intros x Hx.
  eapply cites_weaken; [exact (list_all_In H x Hx)|].
  intros e He. apply in_flat_map. exists x. auto.
Qed.

Lemma cites_opt o :
  option_all (fun t => cites (fun e => In e (identifiers t)) (visitAny t)) o ->
  cites
    (fun e => In e match o with Some x => identifiers x | None => [] end)
    (visitAnyOpt visitAny o).
Proof. intros X. destruct X; simpl; [assumption|apply cites_ret]. Qed.

End CheckerCites.

Section CheckerCitesTrees.
Import FreeVariableChecker CheckerFacts ScopeFacts.

Ltac weaken_to H :=
  eapply cites_weaken;
  [exact H|intros ? ?; cbn beta; rewrite ?in_app_iff; tauto].

Ltac cite :=
  match goal with
  | |- cites _ (ret tt) => apply cites_ret
  | |- cites _ (declareVariable_ _) => apply cites_declareVariable_
  | |- cites _ (visitBindingIdentifier _) => apply cites_declareVariable_
  | |- cites _ (bind _ _) => apply cites_bind
  | H : cites _ (visitAny ?t) |- cites _ (visitAny ?t) => weaken_to H
  | H : list_all _ ?l |- cites _ (forEach visitAny ?l) =>
      weaken_to (cites_list H)
  | H : option_all _ ?o |- cites _ (visitAnyOpt visitAny ?o) =>
      weaken_to (cites_opt H)
  end.

Lemma cites_visitAny_both t :
  cites (fun e => In e (identifiers t)) (visitAny t) /\
  cites (fun e => In e (identifiers t))
    (visitAnyOpt visitAny (initializerOf t)).
Proof.
  induction t; unpack;
    (split;
     [|cbn [initializerOf visitAnyOpt identifiers];
       first [apply cites_opt; assumption|apply cites_ret]]);
    cbn [visitAny identifiers]; try (repeat cite; fail).
  - (* arrow function *)
    apply cites_visitFunction_; cite.
  - (* block *)
    unfold visitBlock, visitStatements_. apply cites_forEach. intros s Hs.
    apply cites_bind.
    + destruct s; try apply cites_ret. apply cites_declareVariableOpt_.
    + match goal with
      | H : list_all _ _ |- _ =>
          eapply cites_weaken; [exact (list_all_In H s Hs)|]
      end.
      intros e He. apply in_flat_map. exists s. auto.
  - (* catch *)
    unfold visitCatch. apply cites_push. intros handle.
    apply citesInside_bind; [cite|].
    apply citesInside_bind; [cite|]. apply citesInside_pop_.
  - (* function declaration *)
    apply cites_visitFunction_; cite.
  - (* get accessor *)
    unfold visitGetAccessor. apply cites_push. intros handle.
    apply citesInside_bind; [cite|]. apply citesInside_pop_.
  - (* identifier expression *)
    apply cites_visitIdentifierExpression. left. reflexivity.
  - (* set accessor *)
    unfold visitSetAccessor. apply cites_push. intros handle.
    apply citesInside_bind.
    { destruct t1; try apply cites_ret. apply cites_declareVariable_. }
    apply citesInside_bind; [cite|]. apply citesInside_pop_.
  - (* variable declaration list *)
    unfold visitVariableDeclarationList.
    destruct declarationType; try apply cites_throw.
    apply cites_forEach. intros d Hd. rewrite visitDeclaration_eq.
    apply cites_bind; [apply cites_declareVariableOpt_|].
    match goal with
    | H : forall x, In x _ -> _ |- _ =>
        eapply cites_weaken; [exact (proj2 (H d Hd))|]
    end.
    intros e He. apply in_flat_map. eexists. split; [exact Hd|exact He].
Qed.

Lemma cites_visitAny t :
  cites (fun e => In e (identifiers t)) (visitAny t).
Proof. apply cites_visitAny_both. Qed.

Lemma cites_statements statements :
  cites (fun e => In e (flat_map identifiers statements))
    (visitStatements_ visitAny statements).
Proof. exact (cites_visitAny (Block None statements)). Qed.

End CheckerCitesTrees.
(** ** The names a visit declares and the references it records *)

Section CheckerTracks.
Import FreeVariableChecker CheckerFacts ScopeFacts FreeNames.

Lemma outside_spec names name : outside names name = true <-> ~ In name names.
Proof.
  unfold outside. rewrite negb_true_iff. split.
  - intros H Hin. assert (E : existsb (String.eqb name) names = true).
    { apply existsb_exists. exists name. split; [exact Hin|].
      apply String.eqb_refl. }
    congruence.
  - intros H. destruct (existsb (String.eqb name) names) eqn:E; [|reflexivity].
    exfalso. apply H. apply existsb_exists in E. destruct E as (x & Hx & Ex).
    apply String.eqb_eq in Ex. subst. exact Hx.
Qed.




Lemma In_outside names (l : list (string * Location)) e :
  In e (filter (fun e => outside names (fst e)) l) <->
  In e l /\ ~ In (fst e) names.
Proof. rewrite filter_In, outside_spec. reflexivity. Qed.




Lemma uniqueKeys_record references R :
  uniqueKeys references -> uniqueKeys (record references R).
Proof.
  revert references. induction R as [|[k l] R IH]; intros references U;
    simpl; [exact U|].
  apply IH. destruct (inMap k references) eqn:I; [exact U|].
  apply uniqueKeys_addKey; assumption.
Qed.


















End CheckerTracks.

Section CheckerTracksTrees.
Import FreeVariableChecker CheckerFacts ScopeFacts FreeNames.












End CheckerTracksTrees.

(** ** Which trees the checker throws on *)

Section CheckerReturns.
Import FreeVariableChecker CheckerFacts ScopeFacts.

Lemma returns_ret : returns (ret tt).
Proof. intros scope parents reporter. eexists. reflexivity. Qed.

Lemma returns_bind (m k : V unit) :
  visits m -> returns m -> returns k -> returns (m ;; k).
Proof.
  intros Vm Hm Hk scope parents reporter. rewrite bind_eq.
  destruct (Hm scope parents reporter) as [c1 E]. rewrite E.
  eapply visits_ok in E; [|exact Vm]. destruct E as (scope' & -> & _).
  apply Hk.
Qed.

Lemma returns_forEach {A} (f : A -> V unit) (l : list A) :
  (forall x, In x l -> visits (f x)) ->
  (forall x, In x l -> returns (f x)) ->
  returns (forEach f l).
Proof.
  induction l as [|x l IH]; intros Hv Hr; simpl; [apply returns_ret|].
  apply returns_bind.
  - apply Hv. left. reflexivity.
  - apply Hr. left. reflexivity.
  - apply IH; intros y Hy; [apply Hv|apply Hr]; right; exact Hy.
Qed.

Lemma returns_declareVariable_ name : returns (declareVariable_ name).
Proof.
  intros scope parents reporter. unfold declareVariable_. cbn [scope_].
  destruct (String.eqb _ ""); [|destruct (inMap _ _)]; eexists; reflexivity.
Qed.

Lemma returns_declareVariableOpt_ name : returns (declareVariableOpt_ name).
Proof.
  destruct name; [apply returns_declareVariable_|apply returns_ret].
Qed.

Lemma returns_visitIdentifierExpression location name :
  returns (visitIdentifierExpression location name).
Proof.
  intros scope parents reporter. unfold visitIdentifierExpression.
  cbn [scope_]. destruct (inMap _ _); eexists; reflexivity.
Qed.

Lemma returnsInside_pop_ handle : returnsInside handle (pop_ handle).
Proof.
  intros inner scope parents reporter ->. rewrite pop_eq. eexists.
  reflexivity.
Qed.

Lemma returnsInside_bind handle (m k : V unit) :
  visits m -> returns m -> returnsInside handle k ->
  returnsInside handle (m ;; k).
Proof.
  intros Vm Hm Hk inner scope parents reporter Hh. rewrite bind_eq.
  destruct (Hm inner (scope :: parents) reporter) as [c1 E]. rewrite E.
  eapply visits_ok in E; [|exact Vm]. destruct E as (inner' & -> & _).
  apply Hk. simpl in *. exact Hh.
Qed.

Lemma returns_push (k : nat -> V unit) :
  (forall handle, returnsInside handle (k handle)) ->
  returns (bind pushScope_ k).
Proof.
  intros Hk scope parents reporter. rewrite bind_eq.
  unfold pushScope_. cbn [scope_ reporter_]. apply Hk. reflexivity.
Qed.

Lemma throwsSome_throw e : throwsSome (throw e).
Proof. intros scope parents reporter. eexists. eexists. reflexivity. Qed.

Lemma throwsSome_bind_l (m k : V unit) : throwsSome m -> throwsSome (m ;; k).
Proof.
  intros Hm scope parents reporter. rewrite bind_eq.
  destruct (Hm scope parents reporter) as (e & c1 & E). rewrite E.
  eexists. eexists. reflexivity.
Qed.

Lemma throwsSome_bind_r (m k : V unit) :
  visits m -> throwsSome k -> throwsSome (m ;; k).
Proof.
  intros Vm Hk scope parents reporter. rewrite bind_eq.
  destruct (m (mkChecker (scope :: parents) reporter)) as [[[]|e] c1] eqn:E.
  - eapply visits_ok in E; [|exact Vm]. destruct E as (scope' & -> & _).
    apply Hk.
  - eexists. eexists. reflexivity.
Qed.

Lemma throwsSome_forEach {A} (f : A -> V unit) (l : list A) x :
  (forall y, visits (f y)) -> In x l -> throwsSome (f x) ->
  throwsSome (forEach f l).
Proof.
  intros Hv Hin Hx. induction l as [|y l IH]; [destruct Hin|]. simpl.
  destruct Hin as [->|Hin].
  - apply throwsSome_bind_l. exact Hx.
  - apply throwsSome_bind_r; [apply Hv|]. apply IH. exact Hin.
Qed.

Lemma throwsSome_push (k : nat -> V unit) :
  (forall handle, throwsSome (k handle)) -> throwsSome (bind pushScope_ k).
Proof.
  intros Hk scope parents reporter. rewrite bind_eq.
  unfold pushScope_. cbn [scope_ reporter_]. apply Hk.
Qed.

End CheckerReturns.

Section CheckerReturnsTrees.
Import FreeVariableChecker CheckerFacts ScopeFacts.

Lemma visits_list l : visits (forEach visitAny l).
Proof. apply visits_forEach. intros x _. apply visits_visitAny. Qed.

Lemma returns_list l :
  list_all (fun t => varOnly t = true -> returns (visitAny t)) l ->
  forallb varOnly l = true -> returns (forEach visitAny l).
Proof.
  intros IH H. rewrite forallb_forall in H. apply returns_forEach.
  - intros x _. apply visits_visitAny.
  - intros x Hx. apply (list_all_In IH x Hx). apply H, Hx.
Qed.

Lemma returns_opt o :
  option_all (fun t => varOnly t = true -> returns (visitAny t)) o ->
  match o with Some x => varOnly x | None => true end = true ->
  returns (visitAnyOpt visitAny o).
Proof. intros X H. destruct X; simpl; [auto|apply returns_ret]. Qed.

Lemma returns_visitFunction_ name formalParameterList body :
  returns (visitAny formalParameterList) -> returns (visitAny body) ->
  returns (visitFunction_ visitAny name formalParameterList body).
Proof.
  intros Hp Hb. unfold visitFunction_. apply returns_push. intros handle.
  apply returnsInside_bind;
    [apply visits_declareVariableOpt_|apply returns_declareVariableOpt_|].
  apply returnsInside_bind;
    [apply visits_declareVariable_|apply returns_declareVariable_|].
  apply returnsInside_bind; [apply visits_visitAny|exact Hp|].
  apply returnsInside_bind; [apply visits_visitAny|exact Hb|].
  apply returnsInside_pop_.
Qed.

Ltac split_true :=
  repeat match goal with
         | H : _ && _ = true |- _ => apply andb_prop in H; destruct H
         end.

Ltac child_returns :=
  match goal with
  | IH : _ -> returns (visitAny ?t) |- returns (visitAny ?t) =>
      apply IH; assumption
  end.

Lemma returns_visitAny_both t :
  (varOnly t = true -> returns (visitAny t)) /\
  (match initializerOf t with Some x => varOnly x | None => true end = true ->
   returns (visitAnyOpt visitAny (initializerOf t))).
Proof.
  induction t; unpack;
    (split;
     [|cbn [initializerOf visitAnyOpt];
       first [apply returns_opt; assumption|intros _; apply returns_ret]]);
    intros Hv; cbn [varOnly] in Hv; cbn [visitAny]; split_true;
    try (repeat first
           [ child_returns
           | apply returns_ret
           | apply returns_declareVariable_
           | apply returns_visitIdentifierExpression
           | apply returns_list; assumption
           | apply returns_opt; assumption
           | apply visits_visitAny
           | apply visits_visitAnyOpt'
           | apply visits_declareVariable_
           | apply visits_list
           | apply returns_bind ]; fail).
  - (* arrow function *)
    apply (@returns_visitFunction_ None); child_returns.
  - (* block *)
    unfold visitBlock, visitStatements_. rewrite forallb_forall in Hv.
    apply returns_forEach.
    + intros s _. apply visits_statement.
    + intros s Hs. apply returns_bind.
      * destruct s; try apply visits_ret. apply visits_declareVariableOpt_.
      * destruct s; try apply returns_ret.
        apply returns_declareVariableOpt_.
      * match goal with
        | IH : list_all _ _ |- _ => apply (list_all_In IH s Hs)
        end.
        apply Hv, Hs.
  - (* catch *)
    unfold visitCatch. apply returns_push. intros handle.
    apply returnsInside_bind; [apply visits_visitAny|child_returns|].
    apply returnsInside_bind; [apply visits_visitAny|child_returns|].
    apply returnsInside_pop_.
  - (* function declaration *)
    apply returns_visitFunction_; child_returns.
  - (* get accessor *)
    unfold visitGetAccessor. apply returns_push. intros handle.
    apply returnsInside_bind; [apply visits_visitAny|child_returns|].
    apply returnsInside_pop_.
  - (* set accessor *)
    unfold visitSetAccessor. apply returns_push. intros handle.
    apply returnsInside_bind.
    { destruct t1; try apply visits_ret. apply visits_declareVariable_. }
    { destruct t1; try apply returns_ret. apply returns_declareVariable_. }
    apply returnsInside_bind; [apply visits_visitAny|child_returns|].
    apply returnsInside_pop_.
  - (* variable declaration list *)
    unfold visitVariableDeclarationList.
    destruct declarationType; try discriminate.
    rewrite forallb_forall in Hv. apply returns_forEach.
    + intros d _. apply visits_declaration.
    + intros d Hd. rewrite visitDeclaration_eq.
      apply returns_bind;
        [apply visits_declareVariableOpt_|apply returns_declareVariableOpt_|].
      match goal with
      | H : forall x, In x _ -> _ |- _ => apply (proj2 (H d Hd))
      end.
      specialize (Hv d Hd). destruct d; exact Hv.
Qed.

Lemma returns_visitAny t : varOnly t = true -> returns (visitAny t).
Proof. apply returns_visitAny_both. Qed.

End CheckerReturnsTrees.
(** ** The top level scope of a program *)

Section CheckerProgramScope.
Import FreeVariableChecker CheckerFacts ScopeFacts FreeNames.








End CheckerProgramScope.

Section CheckerThrowsTrees.
Import FreeVariableChecker CheckerFacts ScopeFacts.

Lemma throwsSome_list l :
  list_all (fun t => varOnly t = false -> throwsSome (visitAny t)) l ->
  forallb varOnly l = false -> throwsSome (forEach visitAny l).
Proof.
  intros IH H. apply forallb_false in H. destruct H as (x & Hin & Hx).
  eapply throwsSome_forEach; [intros; apply visits_visitAny|exact Hin|].
  apply (list_all_In IH x Hin). exact Hx.
Qed.

Lemma throwsSome_opt o :
  option_all (fun t => varOnly t = false -> throwsSome (visitAny t)) o ->
  match o with Some x => varOnly x | None => true end = false ->
  throwsSome (visitAnyOpt visitAny o).
Proof. intros X H. destruct X; simpl; [auto|discriminate]. Qed.

Lemma throwsSome_visitFunction_ name p body :
  (varOnly p = false -> throwsSome (visitAny p)) ->
  (varOnly body = false -> throwsSome (visitAny body)) ->
  varOnly p && varOnly body = false ->
  throwsSome (visitFunction_ visitAny name p body).
Proof.
  intros Hp Hb H. unfold visitFunction_. apply throwsSome_push.
  intros handle.
  apply throwsSome_bind_r; [apply visits_declareVariableOpt_|].
  apply throwsSome_bind_r; [apply visits_declareVariable_|].
  apply andb_false_iff in H. destruct H as [H|H].
  - apply throwsSome_bind_l. auto.
  - apply throwsSome_bind_r; [apply visits_visitAny|].
    apply throwsSome_bind_l. auto.
Qed.

Ltac split_false :=
  repeat match goal with
         | H : _ && _ = false |- _ => apply andb_false_iff in H; destruct H
         end.

Ltac child_throws :=
  first
    [ match goal with
      | IH : _ -> throwsSome (visitAny ?t) |- throwsSome (visitAny ?t) =>
          apply IH; assumption
      end
    | apply throwsSome_list; assumption
    | apply throwsSome_opt; assumption ].

Ltac visited :=
  first
    [ apply visits_visitAny
    | apply visits_visitAnyOpt'
    | apply visits_declareVariable_
    | apply visits_list ].

Ltac somewhere :=
  first
    [ child_throws
    | apply throwsSome_bind_l; child_throws
    | apply throwsSome_bind_r; [visited|somewhere] ].

Lemma throwsSome_visitAny_both t :
  (varOnly t = false -> throwsSome (visitAny t)) /\
  (match initializerOf t with Some x => varOnly x | None => true end = false ->
   throwsSome (visitAnyOpt visitAny (initializerOf t))).
Proof.
  induction t; unpack;
    (split;
     [|cbn [initializerOf visitAnyOpt];
       first [apply throwsSome_opt; assumption|discriminate]]);
    intros Hv; cbn [varOnly] in Hv; try discriminate;
    cbn [visitAny]; try (split_false; somewhere; fail).
  - (* arrow function *)
    apply (@throwsSome_visitFunction_ None); assumption.
  - (* block *)
    unfold visitBlock, visitStatements_. apply forallb_false in Hv.
    destruct Hv as (s & Hs & Hx).
    eapply throwsSome_forEach; [intros; apply visits_statement|exact Hs|].
    apply throwsSome_bind_r.
    + destruct s; try apply visits_ret. apply visits_declareVariableOpt_.
    + match goal with
      | IH : list_all _ _ |- _ => apply (list_all_In IH s Hs)
      end.
      exact Hx.
  - (* catch *)
    unfold visitCatch. apply throwsSome_push. intros handle.
    split_false; somewhere.
  - (* function declaration *)
    apply throwsSome_visitFunction_; assumption.
  - (* get accessor *)
    unfold visitGetAccessor. apply throwsSome_push. intros handle.
    apply throwsSome_bind_l. auto.
  - (* set accessor *)
    unfold visitSetAccessor. apply throwsSome_push. intros handle.
    apply throwsSome_bind_r.
    { destruct t1; try apply visits_ret. apply visits_declareVariable_. }
    apply throwsSome_bind_l. auto.
  - (* variable declaration list *)
    unfold visitVariableDeclarationList.
    destruct declarationType; try apply throwsSome_throw.
    apply forallb_false in Hv. destruct Hv as (d & Hd & Hx).
    eapply throwsSome_forEach; [|exact Hd|].
    + intros y. apply visits_declaration.
    + rewrite visitDeclaration_eq.
      apply throwsSome_bind_r; [apply visits_declareVariableOpt_|].
      match goal with
      | H : forall x, In x _ -> _ |- _ => apply (proj2 (H d Hd))
      end.
      destruct d; exact Hx.
Qed.

Lemma throwsSome_visitAny t : varOnly t = false -> throwsSome (visitAny t).
Proof. apply throwsSome_visitAny_both. Qed.

(** X14.  The visit of a tree in a chain of scopes returns when every
    declaration list the visit reaches is of [var], and throws the error of
    [visitVariableDeclarationList] when one is not.  So [checkProgram]
    throws that error when a declaration list of the program that the visit
    reaches is not of [var], and never when all are: it then returns, or
    throws the error of a generated variable that is not defined. *)
Theorem let_and_const_are_rejected :
  (forall t scope parents reporter,
      match visitAny t (mkChecker (scope :: parents) reporter) with
      | (Ok _, _) => varOnly t = true
      | (Throw e, _) => varOnly t = false /\ e = notRewritten
      end) /\
  (forall reporter tree global,
      match checkProgram reporter tree global with
      | (Ok _, _) => forallb varOnly (programElements tree) = true
      | (Throw e, _) =>
          if forallb varOnly (programElements tree)
          then exists name, e = notDefined name
          else e = notRewritten
      end).
Proof.
  assert (A : forall t scope parents reporter,
             match visitAny t (mkChecker (scope :: parents) reporter) with
             | (Ok _, _) => varOnly t = true
             | (Throw e, _) => varOnly t = false /\ e = notRewritten
             end).
  { intros t scope parents reporter. destruct (varOnly t) eqn:Hv.
    - destruct (@returns_visitAny t Hv scope parents reporter) as [c' E].
      rewrite E. reflexivity.
    - destruct (@throwsSome_visitAny t Hv scope parents reporter)
        as (e & c' & E).
      rewrite E. split; [reflexivity|].
      eapply rejectsOnly_visitAny. exact E. }
  split; [exact A|].
  intros reporter tree global. rewrite checkProgram_eq.
  unfold visitProgramBody. rewrite bind_eq. unfold pushScope_ at 1.
  cbn [scope_ reporter_]. rewrite bind_eq.
  destruct (declares_globals global (mkScope [] []) [] reporter)
    as (root0 & E0 & _). rewrite E0.
  change (visitStatements_ visitAny (programElements tree))
    with (visitAny (Block None (programElements tree))).
  specialize (A (Block None (programElements tree)) root0 [] reporter).
  cbn [varOnly] in A.
  destruct (visitAny (Block None (programElements tree))
              (mkChecker [root0] reporter)) as [[[]|e] c1] eqn:E.
  - rewrite A. eapply visits_ok in E; [|apply visits_visitAny].
    destruct E as (root & -> & _). rewrite pop_root.
    destruct (firstGenerated _) as [name|]; [|reflexivity].
    exists name. reflexivity.
  - destruct A as [-> ->]. reflexivity.
Qed.

End CheckerThrowsTrees.

(** * The references of a program and its diagnostics *)

Section CheckerReferences.
Import FreeVariableChecker CheckerFacts ScopeFacts FreeNames.


End CheckerReferences.

(** * The properties of the free variable checker *)

Section CheckerClaims.
Import FreeVariableChecker CheckerFacts.

(** C4, as amended.  In a statement list, the name of a function
    declaration is declared in the enclosing scope when the declaration
    itself is recursed into, after the statements before it were visited;
    once the list is visited the name of each of its function declarations
    is declared, so that no diagnostic is reported for the name of a
    function declared by a statement of the program, wherever it is
    referenced; the visit of an arrow function declares nothing in the
    enclosing scope. *)
Theorem C4_function_hoisting :
  (forall statements i l b g p body c,
      nth_error statements i = Some (FunctionDeclaration l (Some b) g p body) ->
      identifierToken b <> "" ->
      scope_ c <> [] ->
      fst (visitStatements_ visitAny (firstn i statements) c) = Ok tt ->
      declared (identifierToken b) (recursedFrom i statements c) = true /\
      visitStatements_ visitAny statements c =
      (visitAny (FunctionDeclaration l (Some b) g p body) ;;
       visitStatements_ visitAny (skipn (S i) statements))
        (recursedFrom i statements c)) /\
  (forall statements scope parents reporter c' l b g p body,
      visitStatements_ visitAny statements
        (mkChecker (scope :: parents) reporter) = (Ok tt, c') ->
      In (FunctionDeclaration l (Some b) g p body) statements ->
      identifierToken b <> "" ->
      declared (identifierToken b) c' = true) /\
  (forall reporter tree global c' l b g p body,
      checkProgram reporter tree global = (Ok tt, c') ->
      In (FunctionDeclaration l (Some b) g p body) (programElements tree) ->
      identifierToken b <> "" ->
      exists reported,
        reporter_ c' = reporter ++ reported /\
        forall d, In d reported -> argument d <> identifierToken b) /\
  (forall l p body scope parents reporter c',
      visitAny (ArrowFunctionExpression l p body)
        (mkChecker (scope :: parents) reporter) = (Ok tt, c') ->
      exists scope',
        c' = mkChecker (scope' :: parents) reporter /\
        declarations scope' = declarations scope).
Proof.
  split; [|split; [|split]].
  - intros statements i l b g p body c Hn Hne Hc Hok.
    destruct c as [[|scope parents] reporter]; [simpl in Hc; congruence|].
    pose proof (visits_statements (firstn i statements) scope parents reporter)
      as Hv.
    unfold recursedFrom. rewrite Hn. cbn [hoistedName declareVariableOpt_].
    destruct (visitStatements_ visitAny (firstn i statements)
                (mkChecker (scope :: parents) reporter))
      as [[[]|e] c1] eqn:E1; [|discriminate].
    destruct Hv as (scope1 & -> & _). cbn [snd].
    destruct (declared_declareVariable_ b scope1 parents reporter Hne)
      as (scope2 & E2 & D2 & _).
    rewrite E2. cbn [snd]. split; [exact D2|].
    apply nth_error_split in Hn. destruct Hn as (l1 & l2 & El & Hi).
    subst i statements.
    rewrite firstn_app, firstn_all, Nat.sub_diag, firstn_O, app_nil_r in E1.
    assert (Es : skipn (S (List.length l1))
                   (l1 ++ FunctionDeclaration l (Some b) g p body :: l2) = l2).
    { rewrite skipn_app, skipn_all2 by lia.
      replace (S (List.length l1) - List.length l1) with 1 by lia.
      reflexivity. }
    rewrite Es. unfold visitStatements_ at 1. rewrite forEach_app.
    fold (visitStatements_ visitAny l1). rewrite E1. simpl forEach.
    fold (visitStatements_ visitAny l2).
    rewrite bind_eq, bind_eq. cbn [declareVariableOpt_]. rewrite E2.
    rewrite bind_eq. reflexivity.
  - intros. eapply statements_declared; eauto.
  - intros reporter tree global c' l b g p body E Hin Hne.
    apply checkProgram_ok in E. destruct E as (root & Eb & _ & _ & ->).
    apply visitProgramBody_ok in Eb.
    destruct Eb as (root0 & root' & _ & _ & _ & Es & Er & _).
    inversion Er; subst root'. clear Er.
    pose proof (@statements_declared _ _ _ _ _ _ _ _ _ _ Es Hin Hne) as D.
    unfold declared in D. cbn [scope_] in D.
    eexists. split; [reflexivity|]. intros d Hd Hx.
    apply reported_In in Hd. destruct Hd as (name & range & _ & Hu & ->).
    simpl in Hx. subst name. congruence.
  - intros l p body scope parents reporter c' E.
    pose proof (@visitsScoped_visitFunction_ None p body (visits_visitAny p)
                  (visits_visitAny body) scope parents reporter) as H.
    cbn [visitAny] in E. unfold visitArrowFunctionExpression in E.
    rewrite E in H. destruct H as (scope' & -> & [D _] & _).
    exists scope'. auto.
Qed.

(** C10.  The visit of a function declaration, in whatever position it is
    reached, declares nothing in the enclosing scope and leaves no pending
    reference for the name of the function there: the name is declared,
    with [arguments], in the scope the visit pushes for the function.  Only
    the visit of a statement list declares the name of a function
    declaration of the list in the enclosing scope.  So a program that
    names a function in an expression and refers to the name in its next
    statement gets the diagnostic of that reference, unless the name is
    global. *)
Theorem C10_function_name_scope :
  (forall l name g p body scope parents reporter c',
      visitAny (FunctionDeclaration l name g p body)
        (mkChecker (scope :: parents) reporter) = (Ok tt, c') ->
      exists scope',
        c' = mkChecker (scope' :: parents) reporter /\
        growsReferences (ownName name) scope scope') /\
  (forall l name g p body scope parents reporter,
      exists own,
        visitAny (FunctionDeclaration l name g p body)
          (mkChecker (scope :: parents) reporter)
        = (visitAny p ;; visitAny body ;;
           pop_ (List.length (own :: scope :: parents)))
            (mkChecker (own :: scope :: parents) reporter) /\
        references own = [] /\
        forall n, inMap n (declarations own) = true <->
                  In n (ownName name) \/ n = ARGUMENTS) /\
  (forall l b g p body scope parents reporter c',
      visitStatements_ visitAny [FunctionDeclaration l (Some b) g p body]
        (mkChecker (scope :: parents) reporter) = (Ok tt, c') ->
      identifierToken b <> "" ->
      declared (identifierToken b) c' = true) /\
  (forall reporter location sl l b g p body sl' l' global c',
      identifierToken b <> "" ->
      (forall object, In object global -> ~ In (identifierToken b) object) ->
      checkProgram reporter
        (mkProgram location
           [ExpressionStatement sl (FunctionDeclaration l (Some b) g p body);
            ExpressionStatement sl'
              (IdentifierExpression (Some l') (identifierToken b))])
        global = (Ok tt, c') ->
      exists reported,
        reporter_ c' = reporter ++ reported /\
        In (diagnosticOf (identifierToken b) l') reported).
Proof.
  split; [|split; [|split]].
  - intros l name g p body scope parents reporter c' E.
    pose proof (@visitsScoped_visitFunction_ name p body (visits_visitAny p)
                  (visits_visitAny body) scope parents reporter) as H.
    cbn [visitAny] in E. unfold visitFunctionDeclaration in E.
    rewrite E in H. destruct H as (scope' & -> & G & _).
    exists scope'. auto.
  - intros l name g p body scope parents reporter.
    cbn [visitAny]. unfold visitFunctionDeclaration, visitFunction_.
    rewrite bind_eq. unfold pushScope_ at 1. cbn [scope_ reporter_].
    rewrite bind_eq.
    assert (A : forall own0 : Scope,
               references own0 = [] ->
               (forall n, inMap n (declarations own0) = true <->
                          In n (ownName name)) ->
               exists own,
                 (declareVariable_ (OfString ARGUMENTS) ;;
                  visitAny p ;; visitAny body ;;
                  pop_ (S (S (List.length parents))))
                   (mkChecker (own0 :: scope :: parents) reporter)
                 = (visitAny p ;; visitAny body ;;
                    pop_ (List.length (own :: scope :: parents)))
                     (mkChecker (own :: scope :: parents) reporter) /\
                 references own = [] /\
                 forall n, inMap n (declarations own) = true <->
                           In n (ownName name) \/ n = ARGUMENTS).
    { intros own0 R0 D0. rewrite bind_eq. unfold declareVariable_ at 1.
      cbn [scope_ reporter_ getVariableName].
      change (String.eqb ARGUMENTS "") with false. cbv iota.
      destruct (inMap ARGUMENTS (declarations own0)) eqn:Ea.
      - exists own0. split; [reflexivity|]. split; [exact R0|].
        intros n. rewrite D0. split; [auto|]. intros [H| ->]; [exact H|].
        apply D0. exact Ea.
      - eexists. split; [reflexivity|]. split; [exact R0|].
        intros n. cbn [declarations]. unfold addKey. rewrite inMap_app.
        rewrite orb_true_iff, D0. cbn [inMap].
        destruct (String.eqb_spec n ARGUMENTS) as [->|Hn].
        + split; auto.
        + split; [intros [H|H]; [auto|discriminate]|].
          intros [H|H]; [auto|]. congruence. }
    destruct name as [b|]; cbn [declareVariableOpt_].
    + unfold declareVariable_ at 1. cbn [scope_ reporter_ getVariableName
        inMap].
      destruct (String.eqb (identifierToken b) "") eqn:Eq.
      * apply A; [reflexivity|]. intros n. cbn [ownName]. rewrite Eq.
        simpl. split; [discriminate|tauto].
      * apply A; [reflexivity|].
        intros n. cbn [ownName declarations]. rewrite Eq.
        unfold addKey. cbn [app inMap In].
        destruct (String.eqb_spec n (identifierToken b)) as [->|Hn].
        -- split; auto.
        -- split; [discriminate|]. intros [H|[]]. congruence.
    + cbn [ret]. apply A; [reflexivity|].
      intros n. simpl. split; [discriminate|tauto].
  - intros l b g p body scope parents reporter c' E Hne.
    eapply statements_declared; [exact E|left; reflexivity|exact Hne].
  - intros reporter location sl l b g p body sl' l' global c' Hne Hg E.
    apply checkProgram_ok in E. destruct E as (root & Eb & _ & _ & ->).
    apply visitProgramBody_ok in Eb.
    destruct Eb as (root0 & root' & _ & R0 & D0 & Es & Er & _).
    inversion Er; subst root'. clear Er.
    cbn [programElements] in Es.
    unfold visitStatements_ in Es. simpl forEach in Es.
    rewrite !bind_eq in Es. cbn [ret] in Es.
    pose proof (@visitsScoped_visitFunction_ (Some b) p body
                  (visits_visitAny p) (visits_visitAny body)
                  root0 [] reporter) as H.
    unfold visitFunctionDeclaration in Es.
    destruct (visitFunction_ visitAny (Some b) p body
                (mkChecker [root0] reporter)) as [[[]|e] c1]; [|discriminate].
    destruct H as (root1 & -> & [D1 (r & R1 & H1)] & _).
    unfold visitIdentifierExpression in Es. cbn [scope_ reporter_] in Es.
    assert (Hr : inMap (identifierToken b) (references root1) = false).
    { rewrite R1, R0. simpl. apply H1. cbn [ownName].
      apply String.eqb_neq in Hne. rewrite Hne. left. reflexivity. }
    cbv [bind ret] in Es. cbn [scope_ reporter_] in Es.
    rewrite Hr in Es. inversion Es; subst root. clear Es.
    eexists. split; [reflexivity|]. apply reported_In.
    exists (identifierToken b), l'. cbn [references declarations].
    split; [unfold addKey; apply in_or_app; right; left; reflexivity|].
    split; [|reflexivity].
    rewrite D1. destruct (inMap (identifierToken b) (declarations root0))
        eqn:Ed;
      [|reflexivity].
    exfalso. destruct (D0 _ Ed) as (object & Ho & Hin). exact (Hg object Ho
        Hin).
Qed.

End CheckerClaims.

(** ** What a run of the checker ends in *)

Section CheckerOutcome.
Import FreeVariableChecker CheckerFacts ScopeFacts.

Lemma rejectsOnly_statements statements :
  rejectsOnly (visitStatements_ visitAny statements).
Proof. exact (rejectsOnly_visitAny (Block None statements)). Qed.

Lemma visitProgramBody_throw reporter tree global e c1 :
  visitProgramBody tree global (mkChecker [] reporter) = (Throw e, c1) ->
  e = notRewritten /\ reporter_ c1 = reporter.
Proof.
  unfold visitProgramBody. rewrite bind_eq. unfold pushScope_ at 1.
  cbn [scope_ reporter_]. rewrite bind_eq.
  destruct (declares_globals global (mkScope [] []) [] reporter)
    as (root0 & E0 & _). rewrite E0. intros E. split.
  - eapply rejectsOnly_statements. exact E.
  - pose proof (@visits_statements (programElements tree) root0 [] reporter)
      as H.
    rewrite E in H. exact H.
Qed.

(** X5.  The visit of a tree in a chain of scopes throws no error but the
    one of a declaration list that is not of [var], and so does
    [checkProgram] but for the error of a generated variable that is not
    defined: the scopes it pops are the ones it pushed, and no property of
    [null] is read.  When [checkProgram] throws, the reporter has received
    nothing. *)
Theorem checker_throws_two_errors_only :
  (forall t scope parents reporter e c',
      visitAny t (mkChecker (scope :: parents) reporter) = (Throw e, c') ->
      e = notRewritten /\ reporter_ c' = reporter) /\
  (forall reporter tree global e c',
      checkProgram reporter tree global = (Throw e, c') ->
      (e = notRewritten \/ exists name, e = notDefined name) /\
      reporter_ c' = reporter).
Proof.
  split.
  - intros t scope parents reporter e c' E. split.
    + eapply rejectsOnly_visitAny. exact E.
    + pose proof (@visits_visitAny t scope parents reporter) as H.
      rewrite E in H. exact H.
  - intros reporter tree global e c'. rewrite checkProgram_eq.
    destruct (visitProgramBody tree global (mkChecker [] reporter))
      as [[[]|e1] c1] eqn:E.
    + destruct (visitProgramBody_ok _ _ _ E)
        as (root0 & root & _ & _ & _ & _ & -> & _).
      rewrite pop_root. destruct (firstGenerated _) as [name|];
        [|discriminate].
      intros H. inversion H; subst. split; [|reflexivity].
      right. exists name. reflexivity.
    + intros H. inversion H; subst.
      destruct (visitProgramBody_throw _ _ _ E) as [-> R].
      split; [left; reflexivity|exact R].
Qed.

(** X6.  When [checkProgram] returns, the current scope is [null] again and
    the reporter has received, after what it had received before, the
    diagnostics of the run: each says that a name is not defined, no two
    are for the same name, and they are in ascending order of their
    offsets. *)
Theorem checkProgram_reports_in_source_order :
  forall reporter tree global c',
    checkProgram reporter tree global = (Ok tt, c') ->
    exists reported,
      c' = mkChecker [] (reporter ++ reported) /\
      (forall d, In d reported -> format d = "%s is not defined") /\
      NoDup (map argument reported) /\
      Sorted byOffset reported.
Proof.
  intros reporter tree global c' E. apply checkProgram_ok in E.
  destruct E as (root & _ & U & _ & ->).
  eexists. split; [reflexivity|]. split; [|split].
  - intros d Hd. apply reported_In in Hd.
    destruct Hd as (name & range & _ & _ & ->). reflexivity.
  - eapply Permutation_NoDup.
    + apply Permutation_sym. apply Permutation_map. apply sortErrors_perm.
    + apply uniqueKeys_diagnostics. apply uniqueKeys_filter. exact U.
  - apply sortErrors_sorted.
Qed.

End CheckerOutcome.

(** ** Names that are reported, and names that are not *)

Section CheckerCoverage.
Import FreeVariableChecker CheckerFacts ScopeFacts.

Lemma root_of_program reporter tree global c' :
  checkProgram reporter tree global = (Ok tt, c') ->
  exists root0 root,
    forEach (fun object =>
               forEach (fun name => declareVariable_ (OfString name)) object)
      global (mkChecker [mkScope [] []] reporter)
    = (Ok tt, mkChecker [root0] reporter) /\
    visitStatements_ visitAny (programElements tree)
      (mkChecker [root0] reporter) = (Ok tt, mkChecker [root] reporter) /\
    visitProgramBody tree global (mkChecker [] reporter)
    = (Ok tt, mkChecker [root] reporter) /\
    grows root0 root /\
    firstGenerated (unresolved (declarations root) (references root)) = None /\
    c' = mkChecker []
           (reporter ++
            sortErrors
              (diagnostics
                 (unresolved (declarations root) (references root)))).
Proof.
  intros E. apply checkProgram_ok in E.
  destruct E as (root & Eb & _ & F & ->).
  destruct (visitProgramBody_ok _ _ _ Eb)
    as (root0 & root' & E0 & _ & _ & Es & Er & G & _).
  inversion Er; subst root'. exists root0, root. auto 10.
Qed.

Lemma declared_not_reported name declarations names d :
  inMap name declarations = true ->
  In d (sortErrors (diagnostics (unresolved declarations names))) ->
  argument d <> name.
Proof.
  intros Hd Hin. apply reported_In in Hin.
  destruct Hin as (n & range & _ & Hn & ->). simpl. congruence.
Qed.

(** X7.  No diagnostic is reported for a name that is an own property of the
    global object or of an object of its chain of prototypes, the empty name
    apart: [visitProgram] declares these names in the top level scope before
    it visits the statements of the program. *)
Theorem globals_are_never_reported :
  forall reporter tree global c' object name,
    checkProgram reporter tree global = (Ok tt, c') ->
    In object global -> In name object -> name <> "" ->
    exists reported,
      reporter_ c' = reporter ++ reported /\
      forall d, In d reported -> argument d <> name.
Proof.
  intros reporter tree global c' object name E Ho Hn Hne.
  apply root_of_program in E.
  destruct E as (root0 & root & E0 & _ & _ & G & _ & ->).
  eexists. split; [reflexivity|]. intros d Hd.
  eapply declared_not_reported; [|exact Hd].
  eapply grows_declared; [exact G|].
  destruct (@globals_declared global object name Ho Hn Hne _ _ _ _ E0)
    as (scope' & Ec & D).
  inversion Ec; subst. exact D.
Qed.

(** X8.  A block pushes no scope, and the variables of a [var] statement are
    declared in the current scope: once a statement list is visited, be it
    the body of a block, the variables of its [var] statements are declared
    in the scope the list was visited in.  So no diagnostic is reported for
    a variable that a [var] statement of the program declares, wherever the
    variable is referenced. *)
Theorem var_statements_declare_in_the_current_scope :
  (forall statements sl dl ds l b init scope parents reporter c',
      visitStatements_ visitAny statements
        (mkChecker (scope :: parents) reporter) = (Ok tt, c') ->
      In (VariableStatement sl (VariableDeclarationList dl VAR ds))
        statements ->
      In (VariableDeclaration l b init) ds ->
      identifierToken b <> "" ->
      exists scope',
        c' = mkChecker (scope' :: parents) reporter /\
        inMap (identifierToken b) (declarations scope') = true) /\
  (forall location statements scope parents reporter,
      visitAny (Block location statements)
        (mkChecker (scope :: parents) reporter)
      = visitStatements_ visitAny statements
          (mkChecker (scope :: parents) reporter)) /\
  (forall reporter tree global c' sl dl ds l b init,
      checkProgram reporter tree global = (Ok tt, c') ->
      In (VariableStatement sl (VariableDeclarationList dl VAR ds))
        (programElements tree) ->
      In (VariableDeclaration l b init) ds ->
      identifierToken b <> "" ->
      exists reported,
        reporter_ c' = reporter ++ reported /\
        forall d, In d reported -> argument d <> identifierToken b).
Proof.
  assert (A : forall statements sl dl ds l b init scope parents reporter c',
             visitStatements_ visitAny statements
               (mkChecker (scope :: parents) reporter) = (Ok tt, c') ->
             In (VariableStatement sl (VariableDeclarationList dl VAR ds))
               statements ->
             In (VariableDeclaration l b init) ds ->
             identifierToken b <> "" ->
             exists scope',
               c' = mkChecker (scope' :: parents) reporter /\
               inMap (identifierToken b) (declarations scope') = true).
  { intros statements sl dl ds l b init scope parents reporter c' E Hs Hd Hne.
    eapply (@statements_reach
              (fun sc => inMap (identifierToken b) (declarations sc) = true));
      [| |exact Hs|exact E].
    - intros x y. apply grows_declared.
    - intros scope0 parents0 reporter0 c0.
      apply (@var_declared ds l b init Hd Hne). }
  split; [exact A|]. split; [reflexivity|].
  intros reporter tree global c' sl dl ds l b init E Hs Hd Hne.
  apply root_of_program in E.
  destruct E as (root0 & root & _ & Es & _ & _ & _ & ->).
  eexists. split; [reflexivity|]. intros d Hin.
  eapply declared_not_reported; [|exact Hin].
  destruct (A _ _ _ _ _ _ _ _ _ _ _ Es Hs Hd Hne) as (scope' & Ec & D).
  inversion Ec; subst. exact D.
Qed.

(** X9.  When [checkProgram] returns, a name that a statement of the program
    refers to, the statement being the reference and nothing else, and that
    the top level scope does not declare once the statements are visited,
    has a diagnostic among those reported. *)
Theorem undeclared_top_level_reference_is_reported :
  forall reporter tree global c' sl l x,
    checkProgram reporter tree global = (Ok tt, c') ->
    In (ExpressionStatement sl (IdentifierExpression l x))
      (programElements tree) ->
    declaredAtTopLevel reporter tree global x = false ->
    exists reported d,
      reporter_ c' = reporter ++ reported /\
      In d reported /\ argument d = x /\ format d = "%s is not defined".
Proof.
  intros reporter tree global c' sl l x E Hs Hd.
  apply root_of_program in E.
  destruct E as (root0 & root & _ & Es & Eb & _ & F & ->).
  unfold declaredAtTopLevel in Hd. rewrite Eb in Hd.
  unfold declared in Hd. cbn [snd scope_] in Hd.
  assert (R : inMap x (references root) = true).
  { destruct (@statements_reach
                (fun sc => inMap x (references sc) = true)
                (ExpressionStatement sl (IdentifierExpression l x))
                (fun a b => @grows_referenced x a b)) with
      (statements := programElements tree) (scope := root0)
      (parents := @nil Scope) (reporter := reporter)
      (c' := mkChecker [root] reporter) as (scope' & Ec & R);
      [|exact Hs|exact Es|inversion Ec; subst; exact R].
    intros scope parents reporter0 c0 E0.
    cbn [visitAny] in E0. unfold visitIdentifierExpression in E0.
    cbn [scope_ reporter_] in E0.
    destruct (inMap x (references scope)) eqn:Ex; inversion E0.
    - exists scope. auto.
    - eexists. split; [reflexivity|]. cbn [references]. unfold addKey.
      rewrite inMap_app. simpl. rewrite String.eqb_refl. apply orb_true_r. }
  apply inMap_In in R. unfold keys in R. apply in_map_iff in R.
  destruct R as ([n location] & En & Hin). simpl in En. subst n.
  destruct location as [range|].
  - exists (sortErrors
              (diagnostics
                 (unresolved (declarations root) (references root)))),
      (diagnosticOf x range).
    split; [reflexivity|]. split; [|auto].
    apply reported_In. exists x, range. auto.
  - exfalso. rewrite firstGenerated_None in F.
    apply (F x None); [|reflexivity].
    unfold unresolved. apply filter_In. split; [exact Hin|].
    simpl. rewrite Hd. reflexivity.
Qed.

End CheckerCoverage.

Section CheckerCitesPrograms.
Import FreeVariableChecker CheckerFacts ScopeFacts.

(** X10.  A diagnostic [checkProgram] reports is for an identifier
    expression of the program: it has the name of the expression as its
    argument and the start of the location of the expression as its
    position; and the generated variable of the error [checkProgram] throws
    is the name of an identifier expression of the program that has no
    location.  A program without an identifier expression gets no
    diagnostic. *)
Theorem diagnostics_are_for_identifier_expressions :
  forall reporter tree global,
    let mentioned := flat_map identifiers (programElements tree) in
    match checkProgram reporter tree global with
    | (Ok _, c') =>
        exists reported,
          c' = mkChecker [] (reporter ++ reported) /\
          (forall d,
              In d reported ->
              exists name range,
                In (name, Some range) mentioned /\
                d = diagnosticOf name range) /\
          (mentioned = [] -> reported = [])
    | (Throw e, _) =>
        e = notRewritten \/
        exists name, e = notDefined name /\ In (name, None) mentioned
    end.
Proof.
  intros reporter tree global mentioned. rewrite checkProgram_eq.
  destruct (visitProgramBody tree global (mkChecker [] reporter))
    as [[[]|e] c1] eqn:E.
  - destruct (visitProgramBody_ok _ _ _ E)
      as (root0 & root & _ & R0 & _ & Es & -> & _).
    destruct (@cites_statements _ _ _ _ _ Es) as (root' & r & Er & R & F).
    inversion Er; subst root'. rewrite R0 in R. simpl in R.
    rewrite Forall_forall in F. rewrite pop_root.
    destruct (firstGenerated _) as [name|] eqn:G.
    + right. exists name. split; [reflexivity|].
      apply firstGenerated_Some in G. apply filter_In in G.
      destruct G as [G _]. apply F. rewrite <- R. exact G.
    + eexists. split; [reflexivity|]. split.
      * intros d Hd. apply reported_In in Hd.
        destruct Hd as (name & range & Hin & _ & ->).
        exists name, range. split; [|reflexivity].
        apply F. rewrite <- R. exact Hin.
      * intros Hm. destruct r as [|e r].
        -- rewrite R. reflexivity.
        -- exfalso. specialize (F e (or_introl eq_refl)).
           fold mentioned in F. rewrite Hm in F. destruct F.
  - left. eapply visitProgramBody_throw. exact E.
Qed.

End CheckerCitesPrograms.

(** ** The scopes of functions, accessors and catch clauses *)

Section CheckerScopes.
Import FreeVariableChecker CheckerFacts ScopeFacts.

Lemma leaves_pop_incl handle known hidden :
  (forall n, In n hidden -> In n known) ->
  leaves handle known hidden (pop_ handle).
Proof.
  intros Hi inner scope parents reporter Hh Hk.
  apply (@leaves_pop_ handle hidden); [exact Hh|].
  intros name Hn. apply Hk, Hi, Hn.
Qed.

Lemma leaves_declareOpt handle known hidden name (k : V unit) :
  leaves handle (ownName name ++ known) hidden k ->
  leaves handle known hidden (declareVariableOpt_ name ;; k).
Proof.
  intros Hk. destruct name as [b|]; cbn [declareVariableOpt_ ownName] in *.
  - destruct (String.eqb_spec (identifierToken b) "") as [E|Hne].
    + apply leaves_bind; [apply visits_declareVariable_|exact Hk].
    + apply (@leaves_declare handle known hidden (OfBinding b));
        [exact Hne|exact Hk].
  - apply leaves_bind; [apply visits_ret|exact Hk].
Qed.

Lemma visitsScoped_function name formalParameterList body :
  visitsScoped (ARGUMENTS :: ownName name)
    (visitFunction_ visitAny name formalParameterList body).
Proof.
  unfold visitFunction_. apply visitsScoped_push. intros handle.
  apply leaves_declareOpt.
  apply (@leaves_declare handle _ _ (OfString ARGUMENTS)); [discriminate|].
  apply leaves_bind; [apply visits_visitAny|].
  apply leaves_bind; [apply visits_visitAny|].
  apply leaves_pop_incl. cbn [getVariableName]. intros n [<-|Hn].
  - left. reflexivity.
  - right. rewrite app_nil_r. exact Hn.
Qed.

(** X11.  The visit of a function declaration or of an arrow function
    declares nothing in the enclosing scope and leaves no pending reference
    to [arguments] there, nor to the name of the function: what the body
    refers to under these names is resolved in the scope of the function. *)
Theorem arguments_is_resolved_in_the_function :
  (forall l name g p body scope parents reporter c',
      visitAny (FunctionDeclaration l name g p body)
        (mkChecker (scope :: parents) reporter) = (Ok tt, c') ->
      exists scope',
        c' = mkChecker (scope' :: parents) reporter /\
        growsReferences (ARGUMENTS :: ownName name) scope scope') /\
  (forall l p body scope parents reporter c',
      visitAny (ArrowFunctionExpression l p body)
        (mkChecker (scope :: parents) reporter) = (Ok tt, c') ->
      exists scope',
        c' = mkChecker (scope' :: parents) reporter /\
        growsReferences [ARGUMENTS] scope scope').
Proof.
  split.
  - intros l name g p body scope parents reporter c' E.
    cbn [visitAny] in E. unfold visitFunctionDeclaration in E.
    eapply visitsScoped_ok in E; [|apply visitsScoped_function].
    destruct E as (scope' & -> & G & _). exists scope'. auto.
  - intros l p body scope parents reporter c' E.
    cbn [visitAny] in E. unfold visitArrowFunctionExpression in E.
    eapply visitsScoped_ok in E; [|apply (@visitsScoped_function None)].
    destruct E as (scope' & -> & G & _). exists scope'. auto.
Qed.

(** X12.  The visit of a catch clause, of a set accessor or of a get
    accessor declares nothing in the enclosing scope; the binding of the
    catch clause and the parameter of the set accessor are declared in the
    scope the visit pushes, so that no pending reference to them is left
    in the enclosing scope.  The initializer of the parameter of a set
    accessor is not visited. *)
Theorem catch_and_accessor_bindings_stay_inside :
  (forall l b body scope parents reporter c',
      visitAny (Catch l (BindingIdentifierTree b) body)
        (mkChecker (scope :: parents) reporter) = (Ok tt, c') ->
      exists scope',
        c' = mkChecker (scope' :: parents) reporter /\
        growsReferences (ownName (Some b)) scope scope') /\
  (forall l n pl b init body scope parents reporter c',
      visitAny (SetAccessor l n (BindingElement pl b init) body)
        (mkChecker (scope :: parents) reporter) = (Ok tt, c') ->
      exists scope',
        c' = mkChecker (scope' :: parents) reporter /\
        growsReferences (ownName (Some b)) scope scope') /\
  (forall l n body scope parents reporter c',
      visitAny (GetAccessor l n body)
        (mkChecker (scope :: parents) reporter) = (Ok tt, c') ->
      exists scope',
        c' = mkChecker (scope' :: parents) reporter /\
        declarations scope' = declarations scope) /\
  (forall l n pl b init body c,
      visitAny (SetAccessor l n (BindingElement pl b init) body) c
      = visitAny (SetAccessor l n (BindingElement pl b None) body) c).
Proof.
  assert (D : forall handle b (k : V unit),
             leaves handle (ownName (Some b)) (ownName (Some b)) k ->
             leaves handle [] (ownName (Some b))
               (declareVariable_ (OfBinding b) ;; k)).
  { intros handle b k Hk.
    apply (@leaves_declareOpt handle [] _ (Some b)).
    rewrite app_nil_r. exact Hk. }
  split; [|split; [|split]].
  - intros l b body scope parents reporter c' E.
    cbn [visitAny] in E. unfold visitCatch in E.
    eapply visitsScoped_ok in E.
    2:{ apply visitsScoped_push. intros handle.
        change (visitAny (BindingIdentifierTree b))
          with (declareVariable_ (OfBinding b)).
        apply D. apply leaves_bind; [apply visits_visitAny|].
        apply leaves_pop_. }
    destruct E as (scope' & -> & G & _). exists scope'. auto.
  - intros l n pl b init body scope parents reporter c' E.
    cbn [visitAny] in E. unfold visitSetAccessor in E.
    eapply visitsScoped_ok in E.
    2:{ apply visitsScoped_push. intros handle.
        apply D. apply leaves_bind; [apply visits_visitAny|].
        apply leaves_pop_. }
    destruct E as (scope' & -> & G & _). exists scope'. auto.
  - intros l n body scope parents reporter c' E.
    cbn [visitAny] in E. unfold visitGetAccessor in E.
    eapply visitsScoped_ok with (hidden := []) in E.
    2:{ apply visitsScoped_push. intros handle.
        apply leaves_bind; [apply visits_visitAny|]. apply leaves_pop_. }
    destruct E as (scope' & -> & [G _] & _). exists scope'. auto.
  - reflexivity.
Qed.

End CheckerScopes.
Section CheckerFreeNames.
Import FreeVariableChecker CheckerFacts ScopeFacts FreeNames.


End CheckerFreeNames.

(** ** The free variable checker on examples *)

Section CheckerExamples.
Import FreeVariableChecker CheckerFacts.

(** C7, on a scope whose unresolved references [b] and [a] have a location,
    and on a scope with an unresolved reference without one. *)
Lemma C7_witness :
  (exists reported,
      validateScope_ (mkChecker [pendingScope] [])
      = (Ok tt, mkChecker [pendingScope] ([] ++ reported)) /\
      Permutation reported
        (diagnostics
           (unresolved (declarations pendingScope)
              (references pendingScope))) /\
      Sorted byOffset reported) /\
  (exists name,
      In (name, None)
        (unresolved (declarations generatedScope)
           (references generatedScope)) /\
      validateScope_ (mkChecker [generatedScope] [])
      = (Throw (notDefined name), mkChecker [generatedScope] [])).
Proof.
  split.
  - apply (proj2 (C7_root_validation pendingScope [])).
    intros name location H. vm_compute in H.
    destruct H as [H|[H|[]]]; inversion H; discriminate.
  - apply (proj1 (C7_root_validation generatedScope []) "$tmp").
    vm_compute. right. left. reflexivity.
Defined.

(** C4, as stated, fails at [g; function g() {}]: the second statement is
    the function declaration, and the first statement is recursed into with
    [g] not declared in the scope. *)
Lemma C4_counterexample :
  nth_error referenceFirst 1 = Some (function "g" []) /\
  declared "g" (recursedFrom 0 referenceFirst topLevel) = false.
Proof. split; vm_compute; reflexivity. Qed.

(** C4, as amended, at [g; function g() {}] and at
    [function f() { return g(); } function g() { return 1; }]. *)
Lemma C4_witness :
  (declared "g" (recursedFrom 1 referenceFirst topLevel) = true /\
   visitStatements_ visitAny referenceFirst topLevel =
   (visitAny (function "g" []) ;;
    visitStatements_ visitAny (skipn 2 referenceFirst))
     (recursedFrom 1 referenceFirst topLevel)) /\
  (exists reported,
      reporter_ (snd (checkProgram [] forwardReference globalObject))
      = [] ++ reported /\
      forall d, In d reported -> argument d <> "g").
Proof.
  split.
  - apply (proj1 C4_function_hoisting referenceFirst 1 None
             (mkBindingIdentifier None "g") false
             (FormalParameterList None []) (Block None []) topLevel).
    + reflexivity.
    + simpl. discriminate.
    + simpl. discriminate.
    + vm_compute. reflexivity.
  - apply (proj1 (proj2 (proj2 C4_function_hoisting)) [] forwardReference
             globalObject
             (snd (checkProgram [] forwardReference globalObject))
             None (mkBindingIdentifier None "g") false
             (FormalParameterList None [])
             (Block None
                [ReturnStatement None
                   (Some (LiteralExpression None (NumberLiteral 1)))])).
    + vm_compute. reflexivity.
    + simpl. right. left. reflexivity.
    + simpl. discriminate.
Defined.

(** C10, at [(function f() {}); f;]: the reference to [f] of the second
    statement is reported. *)
Lemma C10_witness :
  exists reported,
    reporter_ (snd (checkProgram [] namedExpression globalObject))
    = [] ++ reported /\
    In (diagnosticOf "f"
          (mkSourceRange (mkSourcePosition 20) (mkSourcePosition 21)))
      reported.
Proof.
  apply (proj2 (proj2 (proj2 C10_function_name_scope)) [] None None None
           (mkBindingIdentifier None "f") false (FormalParameterList None [])
           (Block None []) None
           (mkSourceRange (mkSourcePosition 20) (mkSourcePosition 21))
           globalObject
           (snd (checkProgram [] namedExpression globalObject))).
  - simpl. discriminate.
  - intros object [<-|[]] [H|[]]. discriminate.
  - vm_compute. reflexivity.
Defined.

End CheckerExamples.

Section CheckerReferencesExamples.
Import FreeVariableChecker CheckerFacts ScopeFacts FreeNames.


End CheckerReferencesExamples.

(** ** More examples of the free variable checker *)

Section CheckerCoverageExamples.
Import FreeVariableChecker CheckerFacts ScopeFacts.

(** X5, at [let x;]. *)
Lemma checker_throws_two_errors_only_witness :
  (notRewritten = notRewritten \/ exists name, notRewritten = notDefined name)
  /\ reporter_ (snd (checkProgram [] letProgram globalObject)) = [].
Proof.
  apply (proj2 checker_throws_two_errors_only [] letProgram globalObject
           notRewritten (snd (checkProgram [] letProgram globalObject))).
  vm_compute. reflexivity.
Defined.

(** X6, at [x; x;]. *)
Lemma checkProgram_reports_in_source_order_witness :
  exists reported,
    snd (checkProgram [] twoReferences globalObject)
    = mkChecker [] ([] ++ reported) /\
    (forall d, In d reported -> format d = "%s is not defined") /\
    NoDup (map argument reported) /\
    Sorted byOffset reported.
Proof.
  apply (@checkProgram_reports_in_source_order [] twoReferences globalObject
           (snd (checkProgram [] twoReferences globalObject))).
  vm_compute. reflexivity.
Defined.

(** X7, at [Object; y;] with a global object that has the property
    [Object]. *)
Lemma globals_are_never_reported_witness :
  exists reported,
    reporter_ (snd (checkProgram [] globalReference globalObject))
    = [] ++ reported /\
    forall d, In d reported -> argument d <> "Object".
Proof.
  apply (@globals_are_never_reported [] globalReference globalObject
           (snd (checkProgram [] globalReference globalObject))
           ["Object"] "Object").
  - vm_compute. reflexivity.
  - left. reflexivity.
  - left. reflexivity.
  - discriminate.
Defined.

(** X8, at [x; var x;]. *)
Lemma var_statements_declare_in_the_current_scope_witness :
  exists reported,
    reporter_ (snd (checkProgram [] varAfterUse globalObject))
    = [] ++ reported /\
    forall d, In d reported -> argument d <> "x".
Proof.
  apply (proj2 (proj2 var_statements_declare_in_the_current_scope)
           [] varAfterUse globalObject
           (snd (checkProgram [] varAfterUse globalObject))
           None None
           [VariableDeclaration None (mkBindingIdentifier None "x") None]
           None (mkBindingIdentifier None "x") None).
  - vm_compute. reflexivity.
  - right. left. reflexivity.
  - left. reflexivity.
  - simpl. discriminate.
Defined.

(** X9, at [Object; y;]: the reference to [y] is reported. *)
Lemma undeclared_top_level_reference_is_reported_witness :
  exists reported d,
    reporter_ (snd (checkProgram [] globalReference globalObject))
    = [] ++ reported /\
    In d reported /\ argument d = "y" /\ format d = "%s is not defined".
Proof.
  apply (@undeclared_top_level_reference_is_reported [] globalReference
           globalObject (snd (checkProgram [] globalReference globalObject))
           None (at_ 8 9) "y").
  - vm_compute. reflexivity.
  - right. left. reflexivity.
  - vm_compute. reflexivity.
Defined.

(** X10, at [x; x;]. *)
Lemma diagnostics_are_for_identifier_expressions_witness :
  let mentioned := flat_map identifiers (programElements twoReferences) in
  match checkProgram [] twoReferences globalObject with
  | (Ok _, c') =>
      exists reported,
        c' = mkChecker [] ([] ++ reported) /\
        (forall d,
            In d reported ->
            exists name range,
              In (name, Some range) mentioned /\
              d = diagnosticOf name range) /\
        (mentioned = [] -> reported = [])
  | (Throw e, _) =>
      e = notRewritten \/
      exists name, e = notDefined name /\ In (name, None) mentioned
  end.
Proof.
  apply (diagnostics_are_for_identifier_expressions [] twoReferences
           globalObject).
Defined.

(** X11, at [function f() { arguments; f; }]. *)
Lemma arguments_is_resolved_in_the_function_witness :
  exists scope',
    snd (visitAny usesArguments topLevel) = mkChecker [scope'] [] /\
    growsReferences [ARGUMENTS; "f"] (mkScope [] []) scope'.
Proof.
  apply (proj1 arguments_is_resolved_in_the_function None
           (Some (mkBindingIdentifier None "f")) false
           (FormalParameterList None [])
           (Block None [reference 15 24 "arguments"; reference 26 27 "f"])
           (mkScope [] []) [] [] (snd (visitAny usesArguments topLevel))).
  vm_compute. reflexivity.
Defined.

(** X12, at [catch (e) { e; }]. *)
Lemma catch_and_accessor_bindings_stay_inside_witness :
  exists scope',
    snd (visitAny catchClause topLevel) = mkChecker [scope'] [] /\
    growsReferences ["e"] (mkScope [] []) scope'.
Proof.
  apply (proj1 catch_and_accessor_bindings_stay_inside None
           (mkBindingIdentifier None "e") (Block None [reference 12 13 "e"])
           (mkScope [] []) [] [] (snd (visitAny catchClause topLevel))).
  vm_compute. reflexivity.
Defined.

End CheckerCoverageExamples.

Section CheckerFreeNamesExamples.
Import FreeVariableChecker CheckerFacts ScopeFacts FreeNames.


End CheckerFreeNamesExamples.

Section CheckerThrowsExamples.
Import FreeVariableChecker CheckerFacts ScopeFacts.

(** X14, at [var x; { let y; }], and at a [var] list that holds a binding
    element whose initializer has a [let] list: both are rejected. *)
Lemma let_and_const_are_rejected_witness :
  match checkProgram [] letInBlock globalObject with
  | (Ok _, _) => forallb varOnly (programElements letInBlock) = true
  | (Throw e, _) =>
      if forallb varOnly (programElements letInBlock)
      then exists name, e = notDefined name
      else e = notRewritten
  end /\
  match checkProgram [] letInElement globalObject with
  | (Ok _, _) => forallb varOnly (programElements letInElement) = true
  | (Throw e, _) =>
      if forallb varOnly (programElements letInElement)
      then exists name, e = notDefined name
      else e = notRewritten
  end /\
  fst (checkProgram [] letInElement globalObject) = Throw notRewritten.
Proof.
  split; [|split].
  - apply (proj2 let_and_const_are_rejected [] letInBlock globalObject).
  - apply (proj2 let_and_const_are_rejected [] letInElement globalObject).
  - vm_compute. reflexivity.
Defined.

End CheckerThrowsExamples.
